(** * DJKeyTool: the note-state and voice engine of [script.js]

    A shallow embedding of the part of [script.js] that tracks which notes
    sound: the voice registry [activeOscillators], the held-notes ledger
    [heldNotes], the display fallback [lastPlayedNote], the octave shift and
    the event handlers that drive them.

    Modelling decisions.
    - JavaScript numbers are exact rationals ([Q]).  The decimal literals of
      the source are read at their decimal value; multiplying by
      [Math.pow(2, octaveShift)] is exact in binary64 as it is here.
    - A property of [activeOscillators] is named by the string of a number;
      two finite numbers give the same string exactly when they are equal,
      so keys are compared with [Qeq_bool].  The object is an association
      list kept in the order in which [Object.keys], [Object.values] and
      [Object.entries] enumerate it.
    - The Web Audio nodes of a voice are owned by that voice alone; a voice
      carries the frequency of its oscillator and the automation of its gain.
      What the code tells the audio graph to do ([oscillator.start()], the
      fade-out with its delayed release) is appended to [audioLog].
    - The reading of [gainNode.gain.value] and of [audioContext.currentTime]
      comes from the audio thread: both are part of the state.
    - DOM class lists, labels and the centre display are presentation and are
      left out. *)

From Stdlib Require Import ZArith QArith Qabs Qminmax Qpower.
From Stdlib Require Import String Ascii List Bool Lia Lqa Permutation.
Import ListNotations.
Local Open Scope Q_scope.

(** ** Numbers *)

Definition Qlt_bool (x y : Q) : bool :=
  match x ?= y with Lt => true | _ => false end.

(** [Math.pow(2, n)] for an integer [n]. *)
Definition Math_pow2 (n : Z) : Q := 2 ^ n.

(** JavaScript truthiness of a possibly undefined number. *)
Definition truthy (x : option Q) : bool :=
  match x with
  | Some q => negb (Qeq_bool q 0)
  | None => false
  end.

(** ** Objects keyed by a number *)

(** A key is an array index when its string is a canonical integer in
    [0, 2^32 - 2]; such keys are enumerated first, in ascending order, and the
    remaining keys follow in the order of their creation. *)
Definition isArrayIndex (k : Q) : bool :=
  let r := Qred k in
  (Qden r =? 1)%positive && (0 <=? Qnum r)%Z && (Qnum r <? 4294967295)%Z.

Section JSObject.
Variable A : Type.

Definition jsobj := list (Q * A).

Definition is_key (k : Q) (kv : Q * A) : bool := Qeq_bool (fst kv) k.

(** [o[k]] *)
Fixpoint obj_get (k : Q) (o : jsobj) : option A :=
  match o with
  | [] => None
  | kv :: o' => if is_key k kv then Some (snd kv) else obj_get k o'
  end.

Definition obj_has (k : Q) (o : jsobj) : bool :=
  match obj_get k o with Some _ => true | None => false end.

(** [delete o[k]] *)
Definition obj_delete (k : Q) (o : jsobj) : jsobj :=
  filter (fun kv => negb (is_key k kv)) o.

Fixpoint obj_replace (k : Q) (v : A) (o : jsobj) : jsobj :=
  match o with
  | [] => []
  | kv :: o' =>
      if is_key k kv then (fst kv, v) :: o' else kv :: obj_replace k v o'
  end.

(** A new array-index key goes after the smaller array-index keys. *)
Fixpoint obj_insert_index (k : Q) (v : A) (o : jsobj) : jsobj :=
  match o with
  | [] => [(k, v)]
  | kv :: o' =>
      if isArrayIndex (fst kv) && Qle_bool (fst kv) k
      then kv :: obj_insert_index k v o'
      else (k, v) :: o
  end.

(** [o[k] = v] *)
Definition obj_set (k : Q) (v : A) (o : jsobj) : jsobj :=
  if obj_has k o then obj_replace k v o
  else if isArrayIndex k then obj_insert_index k v o
  else o ++ [(k, v)].

(** [Object.keys(o)] *)
Definition obj_keys (o : jsobj) : list Q := map fst o.

(** [Object.keys(o).length] *)
Definition obj_count (o : jsobj) : nat := length (obj_keys o).

(** No key occurs twice. *)
Fixpoint obj_wf (o : jsobj) : Prop :=
  match o with
  | [] => True
  | kv :: o' => obj_get (fst kv) o' = None /\ obj_wf o'
  end.
End JSObject.

Arguments obj_get {A} k o.
Arguments obj_has {A} k o.
Arguments obj_delete {A} k o.
Arguments obj_replace {A} k v o.
Arguments obj_insert_index {A} k v o.
Arguments obj_set {A} k v o.
Arguments obj_keys {A} o.
Arguments obj_count {A} o.
Arguments obj_wf {A} o.
Arguments is_key {A} k kv.

(** ** Pitch classes *)

Definition NOTE_FREQUENCIES : list (string * Q) :=
  [ ("C", 261.63); ("C#", 277.18); ("D", 293.66); ("D#", 311.13);
    ("E", 329.63); ("F", 349.23); ("F#", 369.99); ("G", 392.00);
    ("G#", 415.30); ("A", 440.00); ("A#", 466.16); ("B", 493.88) ]%string.

Definition circleOfFifthsOrder : list string :=
  [ "A"; "E"; "B"; "F#"; "C#"; "G#"; "D#"; "A#"; "F"; "C"; "G"; "D" ]%string.

Definition noteOrder : list string :=
  [ "C"; "C#"; "D"; "D#"; "E"; "F"; "F#"; "G"; "G#"; "A"; "A#"; "B" ]%string.

(** [NOTE_FREQUENCIES[name]] *)
Fixpoint assoc {B : Type} (name : string) (l : list (string * B)) : option B :=
  match l with
  | [] => None
  | (n, b) :: l' => if String.eqb n name then Some b else assoc name l'
  end.

Definition noteFrequency (name : option string) : option Q :=
  match name with
  | Some n => assoc n NOTE_FREQUENCIES
  | None => None
  end.

(** [noteOrder.indexOf(noteName)], [-1] when absent. *)
Fixpoint indexOf (name : string) (l : list string) : Z :=
  match l with
  | [] => -1
  | n :: l' =>
      if String.eqb n name then 0
      else let i := indexOf name l' in if (i <? 0)%Z then -1 else (i + 1)
  end%Z.

(** [%] of JavaScript truncates, as [Z.rem] does. *)
Definition shiftNoteBySemitones (noteName : string) (semitones : Z)
  : option string :=
  let currentIndex := indexOf noteName noteOrder in
  let newIndex := Z.rem (Z.rem (currentIndex + semitones) 12 + 12) 12 in
  nth_error noteOrder (Z.to_nat newIndex).

Definition isMajorCounterpart (baseNote checkNote : string) : bool :=
  match shiftNoteBySemitones baseNote 3 with
  | Some n => String.eqb n checkNote
  | None => false
  end.

Fixpoint firstNoteNear (frequency : Q) (l : list (string * Q)) : option string :=
  match l with
  | [] => None
  | (noteName, noteFreq) :: l' =>
      if Qlt_bool (Qabs (noteFreq - frequency)) 0.01 then Some noteName
      else firstNoteNear frequency l'
  end.

Definition getNoteFromFrequency (frequency : Q) : option string :=
  firstNoteNear frequency NOTE_FREQUENCIES.

(** ** Voices *)

Inductive chord : Type := major | minor.

(** One automation event of an [AudioParam]: the value to reach and when. *)
Inductive automation : Type :=
| SetValue (v t : Q)
| LinearRamp (v t : Q).

Definition automation_time (e : automation) : Q :=
  match e with SetValue _ t | LinearRamp _ t => t end.

(** [gainNode.gain]: the value it reads now and what is scheduled. *)
Record AudioParam : Type := mkParam {
  gain_value : Q;
  gain_events : list automation
}.

Definition cancelScheduledValues (t : Q) (p : AudioParam) : AudioParam :=
  mkParam (gain_value p)
          (filter (fun e => Qlt_bool (automation_time e) t) (gain_events p)).

Definition setValueAtTime (v t : Q) (p : AudioParam) : AudioParam :=
  mkParam (gain_value p) (gain_events p ++ [SetValue v t]).

Definition linearRampToValueAtTime (v t : Q) (p : AudioParam) : AudioParam :=
  mkParam (gain_value p) (gain_events p ++ [LinearRamp v t]).

Definition OSC_GAIN : Q := 0.15.

(** The value stored in [activeOscillators]: [oscillator] is the frequency
    the sine oscillator was given, [gainNode] the gain of its own gain node;
    [chordType] is absent unless the voice came from the wheel. *)
Record voice : Type := mkVoice {
  oscillator : Q;
  gainNode : AudioParam;
  baseFrequency : Q;
  isPrimary : bool;
  chordType : option chord
}.

(** An entry of [heldNotes]: a bare note name, or the object
    [{ note, source: 'wheel', type }]. *)
Inductive heldNote : Type :=
| Plain (note : string)
| Wheel (note : string) (type : chord).

Definition heldName (h : heldNote) : string :=
  match h with Plain n | Wheel n _ => n end.

Definition isWheelNote (noteName : string) (h : heldNote) : bool :=
  match h with
  | Plain _ => false
  | Wheel n _ => String.eqb n noteName
  end.

(** What the engine asks of the audio graph. *)
Inductive audio_effect : Type :=
| OscillatorStart (frequency : Q)
| FadeOutAndRelease (frequency : Q) (gain : AudioParam).

Record state : Type := mkState {
  activeOscillators : jsobj voice;
  heldNotes : list heldNote;
  lastPlayedNote : option heldNote;
  octaveShift : Z;
  majorOnTop : bool;
  MASTER_GAIN : Q;
  isMouseDown : bool;
  currentPlayingFrequency : option Q;
  activeKeys : list string;
  currentTime : Q;
  audioLog : list audio_effect
}.

Definition MAX_OCTAVE_SHIFT : Z := 3.
Definition MIN_OCTAVE_SHIFT : Z := -3.

Definition set_activeOscillators (o : jsobj voice) (st : state) : state :=
  mkState o (heldNotes st) (lastPlayedNote st) (octaveShift st) (majorOnTop st)
          (MASTER_GAIN st) (isMouseDown st) (currentPlayingFrequency st)
          (activeKeys st) (currentTime st) (audioLog st).

Definition set_heldNotes (h : list heldNote) (st : state) : state :=
  mkState (activeOscillators st) h (lastPlayedNote st) (octaveShift st)
          (majorOnTop st) (MASTER_GAIN st) (isMouseDown st)
          (currentPlayingFrequency st) (activeKeys st) (currentTime st)
          (audioLog st).

Definition set_lastPlayedNote (n : option heldNote) (st : state) : state :=
  mkState (activeOscillators st) (heldNotes st) n (octaveShift st)
          (majorOnTop st) (MASTER_GAIN st) (isMouseDown st)
          (currentPlayingFrequency st) (activeKeys st) (currentTime st)
          (audioLog st).

Definition set_octaveShift (z : Z) (st : state) : state :=
  mkState (activeOscillators st) (heldNotes st) (lastPlayedNote st) z
          (majorOnTop st) (MASTER_GAIN st) (isMouseDown st)
          (currentPlayingFrequency st) (activeKeys st) (currentTime st)
          (audioLog st).

Definition set_majorOnTop (b : bool) (st : state) : state :=
  mkState (activeOscillators st) (heldNotes st) (lastPlayedNote st)
          (octaveShift st) b (MASTER_GAIN st) (isMouseDown st)
          (currentPlayingFrequency st) (activeKeys st) (currentTime st)
          (audioLog st).

Definition set_MASTER_GAIN (v : Q) (st : state) : state :=
  mkState (activeOscillators st) (heldNotes st) (lastPlayedNote st)
          (octaveShift st) (majorOnTop st) v (isMouseDown st)
          (currentPlayingFrequency st) (activeKeys st) (currentTime st)
          (audioLog st).

Definition set_isMouseDown (b : bool) (st : state) : state :=
  mkState (activeOscillators st) (heldNotes st) (lastPlayedNote st)
          (octaveShift st) (majorOnTop st) (MASTER_GAIN st) b
          (currentPlayingFrequency st) (activeKeys st) (currentTime st)
          (audioLog st).

Definition set_currentPlayingFrequency (f : option Q) (st : state) : state :=
  mkState (activeOscillators st) (heldNotes st) (lastPlayedNote st)
          (octaveShift st) (majorOnTop st) (MASTER_GAIN st) (isMouseDown st)
          f (activeKeys st) (currentTime st) (audioLog st).

Definition set_activeKeys (k : list string) (st : state) : state :=
  mkState (activeOscillators st) (heldNotes st) (lastPlayedNote st)
          (octaveShift st) (majorOnTop st) (MASTER_GAIN st) (isMouseDown st)
          (currentPlayingFrequency st) k (currentTime st) (audioLog st).

Definition log_effect (e : audio_effect) (st : state) : state :=
  mkState (activeOscillators st) (heldNotes st) (lastPlayedNote st)
          (octaveShift st) (majorOnTop st) (MASTER_GAIN st) (isMouseDown st)
          (currentPlayingFrequency st) (activeKeys st) (currentTime st)
          (audioLog st ++ [e]).

(** ** The held-notes ledger *)

(** [findIndex] on the note name followed by [splice(index, 1)]: the first
    entry with that name is removed. *)
Fixpoint removeHeld (noteName : string) (l : list heldNote) : list heldNote :=
  match l with
  | [] => []
  | h :: l' =>
      if String.eqb (heldName h) noteName then l'
      else h :: removeHeld noteName l'
  end.

(** ** Sounding and stopping a note *)

Definition stopNote (actualFrequency : Q) (st : state) : state :=
  match obj_get actualFrequency (activeOscillators st) with
  | None => st
  | Some data =>
      let st1 :=
        set_activeOscillators
          (obj_delete actualFrequency (activeOscillators st)) st in
      let now := currentTime st in
      let currentValue := gain_value (gainNode data) in
      let gain :=
        linearRampToValueAtTime 0 (now + 0.05)
          (setValueAtTime currentValue now
             (cancelScheduledValues now (gainNode data))) in
      let st2 := log_effect (FadeOutAndRelease (oscillator data) gain) st1 in
      let frequencyToUnhighlight :=
        if Qeq_bool (baseFrequency data) 0 then actualFrequency
        else baseFrequency data in
      match getNoteFromFrequency frequencyToUnhighlight with
      | Some noteName =>
          set_heldNotes (removeHeld noteName (heldNotes st2)) st2
      | None => st2
      end
  end.

(** The gain of a voice that has just been created: zero, then a ramp to
    [OSC_GAIN] within 7 ms. *)
Definition attackGain (now : Q) : AudioParam :=
  linearRampToValueAtTime OSC_GAIN (now + 0.007)
    (setValueAtTime 0 now (mkParam 0 [])).

Definition playNote (frequency : Q) (applyOctaveShift isPrimary : bool)
  (st : state) : state :=
  let actualFrequency :=
    if applyOctaveShift then frequency * Math_pow2 (octaveShift st)
    else frequency in
  let st1 :=
    if obj_has actualFrequency (activeOscillators st)
    then stopNote actualFrequency st else st in
  let gain := attackGain (currentTime st1) in
  let st2 := log_effect (OscillatorStart actualFrequency) st1 in
  let st3 :=
    set_activeOscillators
      (obj_set actualFrequency
         (mkVoice actualFrequency gain frequency isPrimary None)
         (activeOscillators st2)) st2 in
  match getNoteFromFrequency frequency with
  | Some noteName =>
      set_lastPlayedNote (Some (Plain noteName))
        (set_heldNotes
           (removeHeld noteName (heldNotes st3) ++ [Plain noteName]) st3)
  | None => st3
  end.

Definition playNoteFromWheel (frequency : Q) (noteName : string) (type : chord)
  (st : state) : state :=
  let actualFrequency := frequency * Math_pow2 (octaveShift st) in
  let st1 :=
    if obj_has actualFrequency (activeOscillators st)
    then stopNote actualFrequency st else st in
  let gain := attackGain (currentTime st1) in
  let st2 := log_effect (OscillatorStart actualFrequency) st1 in
  let st3 :=
    set_activeOscillators
      (obj_set actualFrequency
         (mkVoice actualFrequency gain frequency true (Some type))
         (activeOscillators st2)) st2 in
  set_lastPlayedNote (Some (Wheel noteName type))
    (set_heldNotes
       (removeHeld noteName (heldNotes st3) ++ [Wheel noteName type]) st3).

(** ** The polyphony gain helpers *)

Section Volume.
(** [Math.sqrt], a function of the platform. *)
Variable Math_sqrt : Q -> Q.

Definition calculateVolume (st : state) : Q :=
  let activeCount := obj_count (activeOscillators st) in
  if (activeCount =? 0)%nat then MASTER_GAIN st
  else if (activeCount =? 1)%nat then MASTER_GAIN st
  else Qmax 0.05
         (MASTER_GAIN st / Math_sqrt (inject_Z (Z.of_nat activeCount))).

(** The body of the [forEach] of [adjustActiveVolumes] on one gain. *)
Definition rampToTarget (targetVolume now : Q) (g : AudioParam) : AudioParam :=
  let currentValue := gain_value g in
  if Qlt_bool 0.01 currentValue
  then linearRampToValueAtTime targetVolume (now + 0.05)
         (setValueAtTime currentValue now (cancelScheduledValues now g))
  else g.

Definition with_gainNode (g : AudioParam) (v : voice) : voice :=
  mkVoice (oscillator v) g (baseFrequency v) (isPrimary v) (chordType v).

Definition adjustActiveVolumes (st : state) : state :=
  let targetVolume := calculateVolume st in
  let now := currentTime st in
  set_activeOscillators
    (map (fun kv =>
            (fst kv,
             with_gainNode (rampToTarget targetVolume now (gainNode (snd kv)))
                           (snd kv)))
         (activeOscillators st)) st.
End Volume.

(** ** The octave transposer *)

Record activeNote : Type := mkActiveNote {
  actualFreq : Q;
  baseFreq : Q;
  data : voice
}.

(** The body of the second [forEach] of [shiftActiveNotes].  [find] returns
    the entry that [some] has just found; the remaining branch of the match
    cannot be taken. *)
Definition restartNote (note : activeNote) (st : state) : state :=
  match getNoteFromFrequency (baseFreq note) with
  | Some noteName =>
      let isFromWheel := existsb (isWheelNote noteName) (heldNotes st) in
      if isFromWheel then
        match find (isWheelNote noteName) (heldNotes st) with
        | Some (Wheel _ type) =>
            playNoteFromWheel (baseFreq note) noteName type st
        | _ => st
        end
      else playNote (baseFreq note) true true st
  | None => st
  end.

(** Both parameters are unused by the source too: the caller has already
    written the new shift to [octaveShift]. *)
Definition shiftActiveNotes (oldOctaveShift newOctaveShift : Z) (st : state)
  : state :=
  let activeNotes :=
    map (fun kv => mkActiveNote (fst kv) (baseFrequency (snd kv)) (snd kv))
        (activeOscillators st) in
  let st1 := fold_left (fun s note => stopNote (actualFreq note) s)
                       activeNotes st in
  fold_left (fun s note => restartNote note s) activeNotes st1.

(** ** Input handlers *)

Definition keyboardMap : list (string * option Q) :=
  [ ("a", noteFrequency (Some "C")); ("w", noteFrequency (Some "C#"));
    ("s", noteFrequency (Some "D")); ("e", noteFrequency (Some "D#"));
    ("d", noteFrequency (Some "E")); ("f", noteFrequency (Some "F"));
    ("t", noteFrequency (Some "F#")); ("g", noteFrequency (Some "G"));
    ("y", noteFrequency (Some "G#")); ("h", noteFrequency (Some "A"));
    ("u", noteFrequency (Some "A#")); ("j", noteFrequency (Some "B")) ]%string.

(** [keyboardMap[key]] *)
Definition keyFrequency (key : string) : option Q :=
  match assoc key keyboardMap with
  | Some f => f
  | None => None
  end.

(** [toLowerCase] on the ASCII letters; no other character lowers to a key of
    [keyboardMap] or to [z] or [x]. *)
Definition lower_ascii (c : ascii) : ascii :=
  let n := nat_of_ascii c in
  if ((65 <=? n) && (n <=? 90))%nat then ascii_of_nat (n + 32) else c.

Fixpoint toLowerCase (s : string) : string :=
  match s with
  | EmptyString => EmptyString
  | String c s' => String (lower_ascii c) (toLowerCase s')
  end.

Definition set_has (key : string) (s : list string) : bool :=
  existsb (String.eqb key) s.

Definition set_add (key : string) (s : list string) : list string :=
  if set_has key s then s else s ++ [key].

Definition set_remove (key : string) (s : list string) : list string :=
  filter (fun k => negb (String.eqb key k)) s.

Definition isSome {B : Type} (x : option B) : bool :=
  match x with Some _ => true | None => false end.

(** The block that every piano and keyboard note-on repeats before it calls
    [playNote]: whether the voice is the primary rendition of its note. *)
Definition plainIsPrimary (frequency : Q) (st : state) : bool :=
  match getNoteFromFrequency frequency with
  | Some noteName =>
      let majorCounterpart := shiftNoteBySemitones noteName 3 in
      let minorCounterpart := shiftNoteBySemitones noteName (-3) in
      if truthy (noteFrequency majorCounterpart)
         || truthy (noteFrequency minorCounterpart)
      then
        let isMajorChordCenter := isSome (noteFrequency minorCounterpart) in
        if majorOnTop st then isMajorChordCenter else negb isMajorChordCenter
      else true
  | None => true
  end.

(** [if (currentPlayingFrequency && currentPlayingFrequency !== frequency)]
    stop the note under the pointer so far. *)
Definition stopDragged (frequency : Q) (st : state) : state :=
  match currentPlayingFrequency st with
  | Some cpf =>
      if negb (Qeq_bool cpf 0) && negb (Qeq_bool cpf frequency)
      then stopNote (cpf * Math_pow2 (octaveShift st)) st
      else st
  | None => st
  end.

Definition wheelElement : Type := (Q * string * chord)%type.

(** The paths [createWheel] builds: per note of the circle an inner (minor)
    path and an outer (major) path three semitones up. *)
Definition wheelElements : list wheelElement :=
  flat_map
    (fun name =>
       match noteFrequency (Some name), shiftNoteBySemitones name 3 with
       | Some frequency, Some outerNote =>
           match noteFrequency (Some outerNote) with
           | Some outerFrequency =>
               [ (frequency, name, minor); (outerFrequency, outerNote, major) ]
           | None => []
           end
       | _, _ => []
       end)
    circleOfFifthsOrder.

(** The frequencies of the keys [createPianoKeyboard] builds. *)
Definition pianoKeys : list Q :=
  flat_map
    (fun name =>
       match noteFrequency (Some name) with
       | Some frequency => [frequency]
       | None => []
       end)
    noteOrder.

Definition wheelPlay (el : wheelElement) (st : state) : state :=
  let '(frequency, noteName, type) := el in
  playNoteFromWheel frequency noteName type st.

Definition octaveDown (st : state) : state :=
  let oldOctaveShift := octaveShift st in
  let st1 := set_octaveShift (octaveShift st - 1) st in
  shiftActiveNotes oldOctaveShift (octaveShift st1) st1.

Definition octaveUp (st : state) : state :=
  let oldOctaveShift := octaveShift st in
  let st1 := set_octaveShift (octaveShift st + 1) st in
  shiftActiveNotes oldOctaveShift (octaveShift st1) st1.

Definition octaveReset (st : state) : state :=
  let oldOctaveShift := octaveShift st in
  let st1 := set_octaveShift 0 st in
  shiftActiveNotes oldOctaveShift (octaveShift st1) st1.

Inductive event : Type :=
| WheelMouseDown (el : wheelElement)
| WheelMouseEnter (el : wheelElement)
| WheelTouchStart (el : wheelElement)
| WheelTouchEnd (el : wheelElement)
| MouseUp
| KeyDown (key : string) (ignored : bool)
| KeyUp (key : string)
| Blur
| PianoMouseDown (frequency : Q)
| PianoMouseEnter (frequency : Q)
| PianoTouchStart (frequency : Q)
| PianoTouchEnd (frequency : Q)
| MajorOnTopChange (checked : bool)
| VolumeInput (volume : Q)
| OctaveDownClick
| OctaveDisplayClick
| OctaveUpClick.

(** [ignored] of [KeyDown]: a modifier key is down or the target is an input. *)
Definition onKeyDown (rawKey : string) (ignored : bool) (st : state) : state :=
  if ignored then st else
  let key := toLowerCase rawKey in
  if String.eqb key "z" && (MIN_OCTAVE_SHIFT <? octaveShift st)%Z
  then octaveDown st
  else if String.eqb key "x" && (octaveShift st <? MAX_OCTAVE_SHIFT)%Z
  then octaveUp st
  else
    match keyFrequency key with
    | Some frequency =>
        if negb (Qeq_bool frequency 0) && negb (set_has key (activeKeys st))
        then
          let st1 := set_activeKeys (set_add key (activeKeys st)) st in
          playNote frequency true (plainIsPrimary frequency st1) st1
        else st
    | None => st
    end.

Definition onKeyUp (rawKey : string) (st : state) : state :=
  let key := toLowerCase rawKey in
  match keyFrequency key with
  | Some frequency =>
      if negb (Qeq_bool frequency 0) && set_has key (activeKeys st)
      then
        let st1 := set_activeKeys (set_remove key (activeKeys st)) st in
        stopNote (frequency * Math_pow2 (octaveShift st1)) st1
      else st
  | None => st
  end.

Definition onBlur (st : state) : state :=
  let st1 :=
    set_heldNotes []
      (set_activeKeys []
         (set_currentPlayingFrequency None (set_isMouseDown false st))) in
  fold_left (fun s freq => stopNote freq s)
            (obj_keys (activeOscillators st1)) st1.

Definition onMouseUp (st : state) : state :=
  let st1 := set_isMouseDown false st in
  match currentPlayingFrequency st1 with
  | Some cpf =>
      if negb (Qeq_bool cpf 0)
      then set_currentPlayingFrequency None
             (stopNote (cpf * Math_pow2 (octaveShift st1)) st1)
      else st1
  | None => st1
  end.

Definition wheelPress (el : wheelElement) (st : state) : state :=
  let st1 := stopDragged (fst (fst el)) st in
  wheelPlay el (set_currentPlayingFrequency (Some (fst (fst el))) st1).

Definition pianoPlay (frequency : Q) (st : state) : state :=
  playNote frequency true (plainIsPrimary frequency st) st.

Definition pianoPress (frequency : Q) (st : state) : state :=
  let st1 := stopDragged frequency st in
  pianoPlay frequency (set_currentPlayingFrequency (Some frequency) st1).

Definition handle (e : event) (st : state) : state :=
  match e with
  | WheelMouseDown el => wheelPress el (set_isMouseDown true st)
  | WheelMouseEnter el => if isMouseDown st then wheelPress el st else st
  | WheelTouchStart el => wheelPlay el st
  | WheelTouchEnd el => stopNote (fst (fst el) * Math_pow2 (octaveShift st)) st
  | MouseUp => onMouseUp st
  | KeyDown key ignored => onKeyDown key ignored st
  | KeyUp key => onKeyUp key st
  | Blur => onBlur st
  | PianoMouseDown frequency => pianoPress frequency (set_isMouseDown true st)
  | PianoMouseEnter frequency =>
      if isMouseDown st then pianoPress frequency st else st
  | PianoTouchStart frequency => pianoPlay frequency st
  | PianoTouchEnd frequency =>
      stopNote (frequency * Math_pow2 (octaveShift st)) st
  | MajorOnTopChange checked => set_majorOnTop checked st
  | VolumeInput volume => set_MASTER_GAIN volume st
  | OctaveDownClick =>
      if (MIN_OCTAVE_SHIFT <? octaveShift st)%Z then octaveDown st else st
  | OctaveDisplayClick => octaveReset st
  | OctaveUpClick =>
      if (octaveShift st <? MAX_OCTAVE_SHIFT)%Z then octaveUp st else st
  end.

(** An event the page can deliver: wheel and piano events come from the
    elements that were created. *)
Definition valid_event (e : event) : Prop :=
  match e with
  | WheelMouseDown el | WheelMouseEnter el
  | WheelTouchStart el | WheelTouchEnd el => In el wheelElements
  | PianoMouseDown f | PianoMouseEnter f
  | PianoTouchStart f | PianoTouchEnd f => In f pianoKeys
  | _ => True
  end.

(** The audio thread moves on: the clock advances and every live gain reads
    whatever its automation has reached. *)
Definition with_gain_value (x : Q) (v : voice) : voice :=
  mkVoice (oscillator v) (mkParam x (gain_events (gainNode v)))
          (baseFrequency v) (isPrimary v) (chordType v).

Definition audioRender (now : Q) (level : Q -> Q) (st : state) : state :=
  mkState (map (fun kv => (fst kv, with_gain_value (level (fst kv)) (snd kv)))
               (activeOscillators st))
          (heldNotes st) (lastPlayedNote st) (octaveShift st) (majorOnTop st)
          (MASTER_GAIN st) (isMouseDown st) (currentPlayingFrequency st)
          (activeKeys st) now (audioLog st).

(** The state when the script has loaded, from the stored settings. *)
Definition initialState (settings_majorOnTop : bool) (settings_volume : Q)
  : state :=
  mkState [] [] None 0 settings_majorOnTop settings_volume false None [] 0 [].

Inductive reachable : state -> Prop :=
| reach_init : forall m v, reachable (initialState m v)
| reach_event : forall e st,
    reachable st -> valid_event e -> reachable (handle e st)
| reach_render : forall now level st,
    reachable st -> reachable (audioRender now level st).

(** ** Invariants of the engine *)

Definition shift_in_range (st : state) : Prop :=
  (MIN_OCTAVE_SHIFT <= octaveShift st <= MAX_OCTAVE_SHIFT)%Z.

(** Every live voice is registered under its base frequency times
    [2 ^ octaveShift], the frequency its oscillator sounds at. *)
Definition keys_follow_shift (st : state) : Prop :=
  forall k v, In (k, v) (activeOscillators st) ->
              k == baseFrequency v * Math_pow2 (octaveShift st) /\
              oscillator v == k.

(** At most one ledger entry per pitch class. *)
Definition ledger_unique (st : state) : Prop :=
  NoDup (map heldName (heldNotes st)).

(** At most one voice per sounding frequency. *)
Definition registry_wf (st : state) : Prop :=
  obj_wf (activeOscillators st).

Definition engine_inv (st : state) : Prop :=
  shift_in_range st /\ keys_follow_shift st /\ ledger_unique st /\ registry_wf st.

(** The ledger without the entries of one pitch class. *)
Definition withoutNote (noteName : string) (l : list heldNote) : list heldNote :=
  filter (fun h => negb (String.eqb (heldName h) noteName)) l.

(** The voice [playNote] registers. *)
Definition plainVoice (actualFrequency frequency now : Q) (isPrimary : bool)
  : voice :=
  mkVoice actualFrequency (attackGain now) frequency isPrimary None.

(** The voice [playNoteFromWheel] registers. *)
Definition wheelVoice (actualFrequency frequency now : Q) (type : chord)
  : voice :=
  mkVoice actualFrequency (attackGain now) frequency true (Some type).

(** The key under which [playNote] registers its voice. *)
Definition actualOf (applyOctaveShift : bool) (frequency : Q) (st : state) : Q :=
  if applyOctaveShift then frequency * Math_pow2 (octaveShift st) else frequency.

(** ** Notions the properties are stated with *)

(** The number of voices registered under a sounding frequency. *)
Definition voicesAt (k : Q) (o : jsobj voice) : nat :=
  length (filter (is_key k) o).

(** A frequency that is not within 0.01 Hz of any of the twelve canonical
    frequencies. *)
Definition offPitch (frequency : Q) : Prop :=
  forall noteName noteFreq,
    In (noteName, noteFreq) NOTE_FREQUENCIES ->
    ~ Qabs (noteFreq - frequency) < 0.01.

(** The major-chord-centre test of the handlers: the pitch class three
    semitones below exists. *)
Definition isMajorChordCenter (noteName : string) : bool :=
  isSome (noteFrequency (shiftNoteBySemitones noteName (-3))).

(** The events that sound a plain note at [frequency] in state [st]. *)
Definition plainNoteOn (e : event) (frequency : Q) (st : state) : Prop :=
  match e with
  | PianoMouseDown f | PianoTouchStart f => f = frequency
  | PianoMouseEnter f => f = frequency /\ isMouseDown st = true
  | KeyDown key ignored =>
      ignored = false /\
      keyFrequency (toLowerCase key) = Some frequency /\
      set_has (toLowerCase key) (activeKeys st) = false
  | _ => False
  end.

(** Several plain note-ons in a row. *)
Definition playAll (notes : list (Q * bool)) (st : state) : state :=
  fold_left (fun s note => playNote (fst note) true (snd note) s) notes st.

Definition pitchClasses (notes : list (Q * bool)) : list (option string) :=
  map (fun note => getNoteFromFrequency (fst note)) notes.

(** The notes are on the twelve pitches and no two share a pitch class. *)
Definition distinctPitchClasses (notes : list (Q * bool)) : Prop :=
  NoDup (pitchClasses notes) /\ ~ In None (pitchClasses notes).

(** States used as concrete inputs: C sounds from the keyboard; C sounds from
    the major ring of the wheel. *)
Definition keyboardC : state := handle (KeyDown "a" false) (initialState false 0.7).

Definition wheelCmajor : state :=
  handle (WheelMouseDown (261.63, "C"%string, major)) (initialState true 0.7).

(** C, E, G and B from the keyboard; the lowest octave with C held. *)
Definition seventhChord : list (Q * bool) :=
  [(261.63, true); (329.63, true); (392.00, true); (493.88, true)].

Definition lowestOctave : state :=
  handle (KeyDown "z" false)
    (handle (KeyDown "z" false) (handle (KeyDown "z" false) keyboardC)).

(** C from the keyboard, a second later and at its full level, when E goes
    down as well. *)
Definition soundingC : state := audioRender 1 (fun _ => 0.15) keyboardC.

Definition secondKey : state := handle (KeyDown "d" false) soundingC.

(** A gain on which a ramp to zero has been scheduled. *)
Definition fadingOut (g : AudioParam) : bool :=
  existsb (fun e => match e with
                    | LinearRamp v _ => Qeq_bool v 0
                    | SetValue _ _ => false
                    end)
          (gain_events g).

(** The gain rebalance as the specification words it for the state after a
    note-on or note-off: every live voice that is not fading out has a ramp
    scheduled that ends 50 ms from now (at the new target, whatever it is). *)
Definition rebalanced (st : state) : Prop :=
  forall k v,
    In (k, v) (activeOscillators st) ->
    fadingOut (gainNode v) = false ->
    exists target,
      In (LinearRamp target (currentTime st + 0.05)) (gain_events (gainNode v)).

(** Every voice of [st'] is a voice of [st], untouched, or a voice created
    since, whose gain ramps to [OSC_GAIN]. *)
Definition fresh_or_kept (st st' : state) : Prop :=
  currentTime st' = currentTime st /\
  forall k v,
    In (k, v) (activeOscillators st') ->
    gainNode v = attackGain (currentTime st) \/ In (k, v) (activeOscillators st).

(** The voices of [st] are plain and the ledger entries of the pitch classes
    [P] are plain. *)
Definition all_plain (P : string -> Prop) (st : state) : Prop :=
  (forall k v, In (k, v) (activeOscillators st) ->
               chordType v = None /\ isPrimary v = true) /\
  (forall h, In h (heldNotes st) -> P (heldName h) -> h = Plain (heldName h)).

(** ** Notation tables, note names and the piano keyboard *)

(** An entry [{ minor: ..., major: ... }] of the notation and colour tables. *)
Record keyPair : Type := mkPair {
  pair_minor : string;
  pair_major : string
}.

(** [entry[type]] *)
Definition pairAt (type : chord) (entry : keyPair) : string :=
  match type with
  | minor => pair_minor entry
  | major => pair_major entry
  end.

(** Camelot notation. *)
Definition camelotKeys : list (string * keyPair) :=
  [ ("C", mkPair "5A" "8B");
    ("G", mkPair "6A" "9B");
    ("D", mkPair "7A" "10B");
    ("A", mkPair "8A" "11B");
    ("E", mkPair "9A" "12B");
    ("B", mkPair "10A" "1B");
    ("F#", mkPair "11A" "2B");
    ("C#", mkPair "12A" "3B");
    ("G#", mkPair "1A" "4B");
    ("D#", mkPair "2A" "5B");
    ("A#", mkPair "3A" "6B");
    ("F", mkPair "4A" "7B") ]%string.

(** Open Key notation ([d] for major, [m] for minor). *)
Definition openKeys : list (string * keyPair) :=
  [ ("C", mkPair "10m" "1d");
    ("G", mkPair "11m" "2d");
    ("D", mkPair "12m" "3d");
    ("A", mkPair "1m" "4d");
    ("E", mkPair "2m" "5d");
    ("B", mkPair "3m" "6d");
    ("F#", mkPair "4m" "7d");
    ("C#", mkPair "5m" "8d");
    ("G#", mkPair "6m" "9d");
    ("D#", mkPair "7m" "10d");
    ("A#", mkPair "8m" "11d");
    ("F", mkPair "9m" "12d") ]%string.

(** The colours of the wheel, as the source spells them. *)
Definition keyColors : list (string * keyPair) :=
  [ ("B", mkPair "rgb(201, 214, 250)" "rgb(109, 234, 203	)");
    ("F#", mkPair "rgb(171, 231, 247)" "rgb(121, 235, 142)");
    ("C#", mkPair "rgb(145	241	242)" "rgb(161, 242, 104)");
    ("G#", mkPair "rgb(146, 242, 222)" "rgb(245, 206, 98)");
    ("D#", mkPair "rgb(164, 241, 182)" "rgb(241, 164, 130)");
    ("A#", mkPair "rgb(196, 245, 160)" "rgb(239, 143, 151)");
    ("F", mkPair "rgb(247, 226, 154)" "rgb(239, 135, 179)");
    ("C", mkPair "rgb(245, 201, 182)" "rgb(221, 137, 214)");
    ("G", mkPair "rgb(242, 188, 193)" "rgb(194, 146,248)");
    ("D", mkPair "rgb(242, 183, 208)" "rgb(164, 181, 249)");
    ("A", mkPair "rgb(233,183,228	)" "rgb(125, 213, 244)");
    ("E", mkPair "rgb(220,189,250	)" "rgb(109, 233, 233)") ]%string.

Definition sharpToFlat : list (string * string) :=
  [ ("C#", "Db"); ("D#", "Eb"); ("F#", "Gb"); ("G#", "Ab"); ("A#", "Bb") ]%string.

Definition nonEmpty (s : string) : bool :=
  match s with EmptyString => false | String _ _ => true end.

(** [useFlats] is the global the flats toggle writes. *)
Definition formatNoteName (useFlats : bool) (noteName : string) : string :=
  if useFlats then
    match assoc noteName sharpToFlat with
    | Some flat => if nonEmpty flat then flat else noteName
    | None => noteName
    end
  else noteName.

(** [notationType === 'camelot' ? camelotKeys : openKeys] *)
Definition keyNotationOf (notationType : string) : list (string * keyPair) :=
  if String.eqb notationType "camelot" then camelotKeys else openKeys.

Definition chord_eqb (a b : chord) : bool :=
  match a, b with
  | major, major | minor, minor => true
  | _, _ => false
  end.

(** The two lines [updateWheelLabels] writes into the label of
    [baseNoteName] and [type]; [None] stands for the [TypeError] of reading a
    property of [undefined]. *)
Definition wheelLabelLines (notationType : string) (useFlats : bool)
  (baseNoteName : string) (type : chord) : option (string * string) :=
  let displayNoteName := formatNoteName useFlats baseNoteName in
  let suffix := match type with minor => "min" | major => "maj" end%string in
  match assoc baseNoteName (keyNotationOf notationType) with
  | Some entry => Some (pairAt type entry, (displayNoteName ++ suffix)%string)
  | None => None
  end.

(** [name.includes('#')] *)
Fixpoint includesSharp (name : string) : bool :=
  match name with
  | EmptyString => false
  | String c name' => Ascii.eqb c "#" || includesSharp name'
  end.

(** [pianoNotes] of [createPianoKeyboard]: name, frequency, [isBlack]. *)
Definition pianoNotes : list (string * Q * bool) :=
  flat_map
    (fun name =>
       match noteFrequency (Some name) with
       | Some frequency => [(name, frequency, includesSharp name)]
       | None => []
       end)
    noteOrder.

Definition whiteKeys : list (string * Q * bool) :=
  filter (fun note => negb (snd note)) pianoNotes.

Definition blackKeys : list (string * Q * bool) :=
  filter (fun note => snd note) pianoNotes.

Definition upper_ascii (c : ascii) : ascii :=
  let n := nat_of_ascii c in
  if ((97 <=? n) && (n <=? 122))%nat then ascii_of_nat (n - 32) else c.

(** [toUpperCase] on the ASCII letters. *)
Fixpoint toUpperCase (s : string) : string :=
  match s with
  | EmptyString => EmptyString
  | String c s' => String (upper_ascii c) (toUpperCase s')
  end.

(** The reverse map for the key hints: a fresh object, written once per
    entry of [keyboardMap]. *)
Definition frequencyToKey : jsobj string :=
  fold_left
    (fun o entry =>
       match snd entry with
       | Some freq => obj_set freq (toUpperCase (fst entry)) o
       | None => o
       end)
    keyboardMap [].

(** The hint [createPianoKeyboard] puts on the key of [frequency], if any. *)
Definition keyHint (frequency : Q) : option string :=
  match obj_get frequency frequencyToKey with
  | Some key => if nonEmpty key then Some key else None
  | None => None
  end.

(** The keys in the order in which they are appended to the keyboard:
    the white ones, then the black ones. *)
Definition pianoKeyboard : list (string * Q * bool) := whiteKeys ++ blackKeys.

(** ** The centre display *)

(** The two elements of the centre display: text, colour and text shadow of
    [center-main-key] and of [center-alt-key]. *)
Record centerDisplay : Type := mkDisplay {
  mainText : string;
  altText : string;
  mainColor : string;
  altColor : string;
  mainShadow : string;
  altShadow : string
}.

(** Truthiness of an entry of the ledger: an empty note name is falsy. *)
Definition heldTruthy (h : heldNote) : bool :=
  match h with
  | Plain n => nonEmpty n
  | Wheel _ _ => true
  end.

(** The note [updateCenterDisplay] picks: the last held one, else the last
    played one. *)
Definition noteToDisplay (st : state) : option heldNote :=
  match heldNotes st with
  | [] =>
      match lastPlayedNote st with
      | Some h => if heldTruthy h then Some h else None
      | None => None
      end
  | h0 :: l =>
      let h := last l h0 in
      if heldTruthy h then Some h else None
  end.

(** [updateCenterDisplay(forceDisplay)] on the display [el]; [notationType]
    and [useFlats] are the globals of the options panel.  [None] stands for
    the [TypeError] of [keyNotation[baseNoteName].major] on a name that is
    not in the table. *)
Definition updateCenterDisplay (forceDisplay : option string)
  (notationType : string) (useFlats : bool) (st : state) (el : centerDisplay)
  : option centerDisplay :=
  match noteToDisplay st with
  | Some note =>
      let baseNoteName := heldName note in
      let displayNoteName := formatNoteName useFlats baseNoteName in
      match assoc baseNoteName (keyNotationOf notationType) with
      | None => None
      | Some entry =>
          let majorKey := (pair_major entry ++ " " ++ displayNoteName ++ "maj")%string in
          let minorKey := (pair_minor entry ++ " " ++ displayNoteName ++ "min")%string in
          let showMajorOnTop :=
            match forceDisplay with
            | Some force =>
                if String.eqb force "major" then true
                else if String.eqb force "minor" then false
                else match note with
                     | Wheel _ type => chord_eqb type major
                     | Plain _ => majorOnTop st
                     end
            | None =>
                match note with
                | Wheel _ type => chord_eqb type major
                | Plain _ => majorOnTop st
                end
            end in
          let el1 :=
            match assoc baseNoteName keyColors with
            | Some noteColor =>
                let primaryColor :=
                  if showMajorOnTop then pair_major noteColor
                  else pair_minor noteColor in
                let secondaryColor :=
                  if showMajorOnTop then pair_minor noteColor
                  else pair_major noteColor in
                mkDisplay (mainText el) (altText el) primaryColor secondaryColor
                          "2px 2px 4px rgba(0, 0, 0, 0.8)"
                          "2px 2px 4px rgba(0, 0, 0, 0.8)"
            | None => el
            end in
          Some (if showMajorOnTop
                then mkDisplay majorKey minorKey (mainColor el1) (altColor el1)
                               (mainShadow el1) (altShadow el1)
                else mkDisplay minorKey majorKey (mainColor el1) (altColor el1)
                               (mainShadow el1) (altShadow el1))
      end
  | None =>
      Some (mkDisplay "--" "--" "white" "white" (mainShadow el) (altShadow el))
  end.

(** ** Notions for the notation of the wheel *)

(** The number a notation code starts with: 10 for [10A]. *)
Fixpoint leadingNumber (acc : nat) (s : string) : nat :=
  match s with
  | EmptyString => acc
  | String c s' =>
      let d := nat_of_ascii c in
      if ((48 <=? d) && (d <=? 57))%nat
      then leadingNumber (10 * acc + (d - 48)) s'
      else acc
  end.

Definition codeNumber (code : option string) : nat :=
  match code with
  | Some s => leadingNumber 0 s
  | None => 0
  end.

(** The notation code on the label of a wheel element. *)
Definition wheelCode (notationType : string) (el : wheelElement) : option string :=
  option_map fst (wheelLabelLines notationType false (snd (fst el)) (snd el)).

(** The paths of the wheel taken segment by segment: inner, outer. *)
Fixpoint segmentsOf {A : Type} (l : list A) : list (A * A) :=
  match l with
  | a :: b :: l' => (a, b) :: segmentsOf l'
  | _ => []
  end.

(** Each number is followed by the next one, 12 by 1. *)
Fixpoint clockwise (l : list nat) : Prop :=
  match l with
  | a :: l' =>
      match l' with
      | b :: _ => b = (a mod 12 + 1)%nat /\ clockwise l'
      | [] => True
      end
  | [] => True
  end.

(** A check that no code occurs twice. *)
Definition code_eqb (a b : option string) : bool :=
  match a, b with
  | Some x, Some y => String.eqb x y
  | None, None => true
  | _, _ => false
  end.

Fixpoint distinctb (l : list (option string)) : bool :=
  match l with
  | [] => true
  | a :: l' => negb (existsb (code_eqb a) l') && distinctb l'
  end.

(** ** The ledger and the voices together *)

(** The ledger entry that goes with a voice: the pitch class of its base
    frequency, with the chord type when it came from the wheel. *)
Definition heldOfVoice (v : voice) : option heldNote :=
  match getNoteFromFrequency (baseFrequency v) with
  | Some n =>
      Some (match chordType v with
            | Some t => Wheel n t
            | None => Plain n
            end)
  | None => None
  end.

(** Every live voice has one of the twelve canonical base frequencies. *)
Definition bases_canonical (st : state) : Prop :=
  forall k v, In (k, v) (activeOscillators st) -> In (baseFrequency v) pianoKeys.

(** The ledger holds, in some order, exactly the entries of the live
    voices. *)
Definition ledger_in_sync (st : state) : Prop :=
  Permutation (map Some (heldNotes st))
              (map (fun kv => heldOfVoice (snd kv)) (activeOscillators st)).

Definition sounding_inv (st : state) : Prop :=
  registry_wf st /\ ledger_unique st /\ bases_canonical st /\ ledger_in_sync st.

(** The last-played-note fallback names a pitch class. *)
Definition lastPlayed_canonical (st : state) : Prop :=
  forall h, lastPlayedNote st = Some h -> In (heldName h) noteOrder.

(** While the mouse plays a note the button is down, and the note is one of
    the twelve. *)
Definition pointer_inv (st : state) : Prop :=
  forall f, currentPlayingFrequency st = Some f ->
            isMouseDown st = true /\ In f pianoKeys.

Definition full_inv (st : state) : Prop :=
  engine_inv st /\ sounding_inv st /\ lastPlayed_canonical st.

(** The pointer, settings and keyboard bookkeeping of [st'] is that of
    [st]. *)
Definition aux_kept (st st' : state) : Prop :=
  isMouseDown st' = isMouseDown st /\
  currentPlayingFrequency st' = currentPlayingFrequency st /\
  activeKeys st' = activeKeys st /\
  majorOnTop st' = majorOnTop st /\
  MASTER_GAIN st' = MASTER_GAIN st.

(** The events that end the note of frequency [f]: the key that holds it is
    released, the touch on its element ends, or the mouse button goes up
    while it is the note under the pointer. *)
Definition releaseOf (e : event) (f : Q) (st : state) : Prop :=
  match e with
  | KeyUp key =>
      keyFrequency (toLowerCase key) = Some f /\
      set_has (toLowerCase key) (activeKeys st) = true
  | PianoTouchEnd g => g = f
  | WheelTouchEnd el => fst (fst el) = f
  | MouseUp => currentPlayingFrequency st = Some f
  | _ => False
  end.

(** The events by which the mouse pointer starts the note of frequency [f]:
    a press on its element, or entering it with the button down. *)
Definition pointerPlays (e : event) (f : Q) (st : state) : Prop :=
  match e with
  | PianoMouseDown g => g = f
  | PianoMouseEnter g => g = f /\ isMouseDown st = true
  | WheelMouseDown el => fst (fst el) = f
  | WheelMouseEnter el => fst (fst el) = f /\ isMouseDown st = true
  | _ => False
  end.

(** The octave shift an event asks for, when the handler accepts it. *)
Definition octaveTarget (e : event) (st : state) : option Z :=
  match e with
  | OctaveDownClick =>
      if (MIN_OCTAVE_SHIFT <? octaveShift st)%Z
      then Some (octaveShift st - 1)%Z else None
  | OctaveUpClick =>
      if (octaveShift st <? MAX_OCTAVE_SHIFT)%Z
      then Some (octaveShift st + 1)%Z else None
  | OctaveDisplayClick => Some 0%Z
  | KeyDown key false =>
      if String.eqb (toLowerCase key) "z"
      then (if (MIN_OCTAVE_SHIFT <? octaveShift st)%Z
            then Some (octaveShift st - 1)%Z else None)
      else if String.eqb (toLowerCase key) "x"
      then (if (octaveShift st <? MAX_OCTAVE_SHIFT)%Z
            then Some (octaveShift st + 1)%Z else None)
      else None
  | _ => None
  end.

(** The base frequencies of the live voices, in enumeration order. *)
Definition liveBases (st : state) : list Q :=
  map (fun kv => baseFrequency (snd kv)) (activeOscillators st).

(** ** Notions for the centre display *)

(** The line of a wheel label as the centre display writes it: the code, a
    space, the key name. *)
Definition labelLine (notationType : string) (useFlats : bool)
  (noteName : string) (type : chord) : option string :=
  match wheelLabelLines notationType useFlats noteName type with
  | Some (code, keyName) => Some (code ++ " " ++ keyName)%string
  | None => None
  end.

(** The chord type shown on top for a ledger entry: the clicked one for an
    entry from the wheel, the one the [majorOnTop] setting asks for
    otherwise. *)
Definition topType (st : state) (h : heldNote) : chord :=
  match h with
  | Wheel _ type => type
  | Plain _ => if majorOnTop st then major else minor
  end.

Definition otherType (t : chord) : chord :=
  match t with major => minor | minor => major end.

(** The events that sound the wheel element [el] in state [st]. *)
Definition wheelNoteOn (e : event) (el : wheelElement) (st : state) : Prop :=
  match e with
  | WheelMouseDown x | WheelTouchStart x => x = el
  | WheelMouseEnter x => x = el /\ isMouseDown st = true
  | _ => False
  end.

(** ** Notions for the audio log *)

Definition isStart (e : audio_effect) : bool :=
  match e with OscillatorStart _ => true | FadeOutAndRelease _ _ => false end.

Definition isRelease (e : audio_effect) : bool :=
  match e with OscillatorStart _ => false | FadeOutAndRelease _ _ => true end.

(** How many oscillators the log has started, and how many it has faded out
    and released. *)
Definition startsIn (log : list audio_effect) : nat := length (filter isStart log).

Definition releasesIn (log : list audio_effect) : nat := length (filter isRelease log).

(** A release that clicks nowhere: what was scheduled is kept only where it
    lies in the past, the gain is pinned to the value it reads and ramps from
    there to zero within 50 ms. *)
Definition smoothRelease (e : audio_effect) : Prop :=
  match e with
  | OscillatorStart _ => True
  | FadeOutAndRelease _ g =>
      exists past now,
        gain_events g
        = past ++ [SetValue (gain_value g) now; LinearRamp 0 (now + 0.05)] /\
        Forall (fun ev => automation_time ev < now) past
  end.

(** Every oscillator the log has started is live or has been released, and
    every release is smooth. *)
Definition accounted (st : state) : Prop :=
  registry_wf st /\
  startsIn (audioLog st)
  = (obj_count (activeOscillators st) + releasesIn (audioLog st))%nat /\
  Forall smoothRelease (audioLog st).

(** * Properties *)

(** ** Objects keyed by a number *)

Section JSObjectFacts.
Context {A : Type}.
Implicit Types (o : jsobj A) (k : Q) (v : A).

Lemma is_key_compat k1 k2 (kv : Q * A) :
  k1 == k2 -> is_key k1 kv = is_key k2 kv.
Proof.
  intros H. unfold is_key.
  destruct (Qeq_bool (fst kv) k2) eqn:E.
  - apply Qeq_bool_iff. apply Qeq_bool_iff in E. rewrite E. symmetry. exact H.
  - destruct (Qeq_bool (fst kv) k1) eqn:E1; [|reflexivity].
    apply Qeq_bool_iff in E1. apply Qeq_bool_neq in E.
    exfalso. apply E. rewrite E1. exact H.
Qed.

Lemma obj_get_compat k1 k2 o : k1 == k2 -> obj_get k1 o = obj_get k2 o.
Proof.
  intros H. induction o as [|kv o IH]; simpl; [reflexivity|].
  rewrite (is_key_compat k1 k2 kv H), IH. reflexivity.
Qed.

Lemma obj_has_compat k1 k2 o : k1 == k2 -> obj_has k1 o = obj_has k2 o.
Proof. intros H. unfold obj_has. rewrite (obj_get_compat k1 k2 o H). reflexivity. Qed.

Lemma obj_get_none k o :
  obj_get k o = None <-> (forall kv, In kv o -> is_key k kv = false).
Proof.
  induction o as [|kv o IH]; simpl.
  - split; [intros _ ? []|reflexivity].
  - destruct (is_key k kv) eqn:E.
    + split; [discriminate|]. intros H. specialize (H kv (or_introl eq_refl)).
      congruence.
    + rewrite IH. split.
      * intros H x [<-|Hx]; auto.
      * intros H x Hx. apply H. now right.
Qed.

Lemma obj_get_some_in k v o :
  obj_get k o = Some v -> exists k', In (k', v) o /\ k' == k.
Proof.
  induction o as [|[k0 v0] o IH]; simpl; [discriminate|].
  unfold is_key; simpl. destruct (Qeq_bool k0 k) eqn:E.
  - intros [= <-]. exists k0. split; [now left|now apply Qeq_bool_iff].
  - intros H. destruct (IH H) as (k' & Hin & Hk). exists k'. split; [now right|assumption].
Qed.

Lemma obj_delete_absent k o : obj_get k o = None -> obj_delete k o = o.
Proof.
  induction o as [|kv o IH]; simpl; [reflexivity|].
  destruct (is_key k kv); [discriminate|]. simpl. intros H. now rewrite IH.
Qed.

Lemma obj_get_delete_same k o : obj_get k (obj_delete k o) = None.
Proof.
  induction o as [|kv o IH]; simpl; [reflexivity|].
  destruct (is_key k kv) eqn:E; simpl; [assumption|]. now rewrite E.
Qed.

Lemma obj_get_delete_other k k' o :
  ~ k' == k -> obj_get k' (obj_delete k o) = obj_get k' o.
Proof.
  intros Hne. induction o as [|kv o IH]; simpl; [reflexivity|].
  destruct (is_key k kv) eqn:E; simpl.
  - destruct (is_key k' kv) eqn:E'; [|assumption].
    exfalso. apply Hne. unfold is_key in *.
    apply Qeq_bool_iff in E, E'. rewrite <- E, <- E'. reflexivity.
  - now rewrite IH.
Qed.

Lemma obj_delete_in kv k o : In kv (obj_delete k o) -> In kv o.
Proof. unfold obj_delete. intros H. now apply filter_In in H. Qed.

Lemma obj_delete_length k o : (length (obj_delete k o) <= length o)%nat.
Proof. apply filter_length_le. Qed.

Lemma obj_get_delete_none k k' o :
  obj_get k' o = None -> obj_get k' (obj_delete k o) = None.
Proof.
  rewrite !obj_get_none. intros H kv Hin. apply H. eapply obj_delete_in; eauto.
Qed.

Lemma obj_wf_delete k o : obj_wf o -> obj_wf (obj_delete k o).
Proof.
  induction o as [|kv o IH]; simpl; [trivial|].
  intros [Hn Hw]. destruct (is_key k kv); simpl; auto.
  split; auto. now apply obj_get_delete_none.
Qed.

Lemma obj_insert_index_perm k v o :
  Permutation (obj_insert_index k v o) ((k, v) :: o).
Proof.
  induction o as [|kv o IH]; simpl; [reflexivity|].
  destruct (isArrayIndex (fst kv) && Qle_bool (fst kv) k); [|reflexivity].
  rewrite IH. apply perm_swap.
Qed.

(** Writing a key that is absent adds one entry and moves no other. *)
Lemma obj_set_perm k v o :
  obj_get k o = None -> Permutation (obj_set k v o) ((k, v) :: o).
Proof.
  intros H. unfold obj_set, obj_has. rewrite H.
  destruct (isArrayIndex k).
  - apply obj_insert_index_perm.
  - symmetry. apply Permutation_cons_append.
Qed.

Lemma obj_get_insert_index k' k v o :
  obj_get k o = None ->
  obj_get k' (obj_insert_index k v o) =
  if Qeq_bool k k' then Some v else obj_get k' o.
Proof.
  induction o as [|kv o IH]; simpl; [reflexivity|].
  destruct (is_key k kv) eqn:E; [discriminate|]. intros H.
  destruct (isArrayIndex (fst kv) && Qle_bool (fst kv) k); simpl.
  - rewrite (IH H). destruct (is_key k' kv) eqn:E'; [|reflexivity].
    destruct (Qeq_bool k k') eqn:Ek; [|reflexivity].
    apply Qeq_bool_iff in Ek. rewrite (is_key_compat _ _ kv Ek) in E. congruence.
  - unfold is_key at 1; simpl. reflexivity.
Qed.

Lemma obj_get_app_absent k' k v o :
  obj_get k' (o ++ [(k, v)]) =
  match obj_get k' o with
  | Some x => Some x
  | None => if Qeq_bool k k' then Some v else None
  end.
Proof.
  induction o as [|kv o IH]; simpl; [reflexivity|].
  destruct (is_key k' kv); [reflexivity|assumption].
Qed.

Lemma obj_get_set_absent k' k v o :
  obj_get k o = None ->
  obj_get k' (obj_set k v o) = if Qeq_bool k k' then Some v else obj_get k' o.
Proof.
  intros H. unfold obj_set, obj_has. rewrite H.
  destruct (isArrayIndex k).
  - now apply obj_get_insert_index.
  - rewrite obj_get_app_absent.
    destruct (obj_get k' o) eqn:E; [|reflexivity].
    destruct (Qeq_bool k k') eqn:Ek; [|reflexivity].
    apply Qeq_bool_iff in Ek. rewrite (obj_get_compat _ _ o Ek) in H. congruence.
Qed.

Lemma obj_get_set_same k v o :
  obj_get k o = None -> obj_get k (obj_set k v o) = Some v.
Proof. intros H. rewrite obj_get_set_absent by assumption. now rewrite Qeq_bool_refl. Qed.

Lemma obj_get_set_other k' k v o :
  obj_get k o = None -> ~ k' == k -> obj_get k' (obj_set k v o) = obj_get k' o.
Proof.
  intros H Hne. rewrite obj_get_set_absent by assumption.
  destruct (Qeq_bool k k') eqn:E; [|reflexivity].
  apply Qeq_bool_iff in E. exfalso. apply Hne. now symmetry.
Qed.

Lemma obj_delete_insert_index k v o :
  obj_get k o = None -> obj_delete k (obj_insert_index k v o) = o.
Proof.
  induction o as [|kv o IH]; simpl.
  - intros _. unfold is_key; simpl. now rewrite Qeq_bool_refl.
  - destruct (is_key k kv) eqn:E; [discriminate|]. intros H.
    destruct (isArrayIndex (fst kv) && Qle_bool (fst kv) k); simpl.
    + rewrite E. simpl. now rewrite IH.
    + unfold is_key at 1; simpl. rewrite Qeq_bool_refl. simpl. rewrite E. simpl.
      now rewrite obj_delete_absent.
Qed.

(** Deleting a key that has just been created gives the object back. *)
Lemma obj_delete_set k v o :
  obj_get k o = None -> obj_delete k (obj_set k v o) = o.
Proof.
  intros H. unfold obj_set, obj_has. rewrite H.
  destruct (isArrayIndex k).
  - now apply obj_delete_insert_index.
  - unfold obj_delete. rewrite filter_app. simpl.
    unfold is_key at 2; simpl. rewrite Qeq_bool_refl. simpl.
    rewrite app_nil_r. now apply obj_delete_absent.
Qed.

Lemma obj_wf_perm o o' : Permutation o o' -> obj_wf o -> obj_wf o'.
Proof.
  intros HP. induction HP as [|x l l' HP IH|x y l|l l' l'' H1 IH1 H2 IH2]; simpl; auto.
  - intros [Hn Hw]. split; auto.
    rewrite obj_get_none in *. intros kv Hin. apply Hn.
    eapply Permutation_in; [symmetry; eassumption|assumption].
  - intros [Hy [Hx Hw]]. destruct (is_key (fst y) x) eqn:E; [discriminate|].
    repeat split; auto.
    destruct (is_key (fst x) y) eqn:E'; [|assumption].
    unfold is_key in *. rewrite Qeq_bool_comm in E'. congruence.
Qed.

Lemma obj_wf_set k v o :
  obj_get k o = None -> obj_wf o -> obj_wf (obj_set k v o).
Proof.
  intros H Hw. apply (obj_wf_perm ((k, v) :: o)).
  - symmetry. now apply obj_set_perm.
  - simpl. auto.
Qed.

Lemma obj_count_set k v o :
  obj_get k o = None -> obj_count (obj_set k v o) = S (obj_count o).
Proof.
  intros H. unfold obj_count, obj_keys. rewrite !length_map.
  rewrite (Permutation_length (obj_set_perm k v o H)). reflexivity.
Qed.

Lemma obj_set_in kv k v o :
  obj_get k o = None -> In kv (obj_set k v o) <-> kv = (k, v) \/ In kv o.
Proof.
  intros H. split; intros Hin.
  - apply (Permutation_in _ (obj_set_perm k v o H)) in Hin.
    destruct Hin as [<-|Hin]; auto.
  - apply (Permutation_in _ (Permutation_sym (obj_set_perm k v o H))).
    destruct Hin as [->|Hin]; [now left|now right].
Qed.

(** In a well-formed object an entry is what a lookup of its key gives. *)
Lemma obj_wf_in_get k v o : obj_wf o -> In (k, v) o -> obj_get k o = Some v.
Proof.
  induction o as [|kv o IH]; simpl; [intros _ []|].
  intros [Hn Hw] [->|Hin].
  - unfold is_key; simpl. now rewrite Qeq_bool_refl.
  - destruct (is_key k kv) eqn:E; [|now apply IH].
    rewrite obj_get_none in Hn. specialize (Hn _ Hin).
    unfold is_key in *; simpl in *. rewrite Qeq_bool_comm in Hn. congruence.
Qed.

(** Deleting every key, one after the other, empties the object. *)
Lemma obj_delete_all (ks : list Q) o :
  (forall kv, In kv o -> exists k, In k ks /\ is_key k kv = true) ->
  fold_left (fun o' k => obj_delete k o') ks o = [].
Proof.
  revert o. induction ks as [|k ks IH]; simpl; intros o H.
  - destruct o as [|kv o]; [reflexivity|].
    destruct (H kv (or_introl eq_refl)) as (k & [] & _).
  - apply IH. intros kv Hin. unfold obj_delete in Hin.
    apply filter_In in Hin. destruct Hin as [Hin Hk].
    destruct (H kv Hin) as (k' & [<-|Hk'] & Hm).
    + rewrite Hm in Hk. discriminate.
    + exists k'. auto.
Qed.

Lemma obj_delete_own_keys o :
  fold_left (fun o' k => obj_delete k o') (obj_keys o) o = [].
Proof.
  apply obj_delete_all. intros kv Hin. exists (fst kv). split.
  - unfold obj_keys. now apply in_map.
  - unfold is_key. apply Qeq_bool_refl.
Qed.
End JSObjectFacts.

(** ** The ledger *)

Lemma removeHeld_incl noteName l h : In h (removeHeld noteName l) -> In h l.
Proof.
  induction l as [|x l IH]; simpl; [trivial|].
  destruct (String.eqb (heldName x) noteName); [now right|].
  intros [<-|H]; [now left|right; auto].
Qed.

Lemma removeHeld_names_incl noteName l n :
  In n (map heldName (removeHeld noteName l)) -> In n (map heldName l).
Proof.
  rewrite !in_map_iff. intros (h & <- & H). exists h. split; [reflexivity|].
  eapply removeHeld_incl; eauto.
Qed.

Lemma removeHeld_NoDup noteName l :
  NoDup (map heldName l) -> NoDup (map heldName (removeHeld noteName l)).
Proof.
  induction l as [|x l IH]; simpl; [trivial|].
  intros H. inversion H as [|? ? Hx Hl]; subst.
  destruct (String.eqb (heldName x) noteName); [assumption|].
  simpl. constructor; auto.
  intros Hin. apply Hx. eapply removeHeld_names_incl; eauto.
Qed.

Lemma removeHeld_absent noteName l :
  ~ In noteName (map heldName l) -> removeHeld noteName l = l.
Proof.
  induction l as [|x l IH]; simpl; [trivial|].
  intros H. destruct (String.eqb (heldName x) noteName) eqn:E.
  - apply String.eqb_eq in E. exfalso. apply H. now left.
  - f_equal. apply IH. intros Hin. apply H. now right.
Qed.

Lemma withoutNote_absent noteName l :
  ~ In noteName (map heldName l) -> withoutNote noteName l = l.
Proof.
  induction l as [|x l IH]; simpl; [trivial|].
  intros H. destruct (String.eqb (heldName x) noteName) eqn:E; simpl.
  - apply String.eqb_eq in E. exfalso. apply H. now left.
  - f_equal. apply IH. intros Hin. apply H. now right.
Qed.

(** With one entry per pitch class, removing the first entry of a pitch
    class removes them all. *)
Lemma removeHeld_withoutNote noteName l :
  NoDup (map heldName l) -> removeHeld noteName l = withoutNote noteName l.
Proof.
  induction l as [|x l IH]; simpl; [trivial|].
  intros H. inversion H as [|? ? Hx Hl]; subst.
  destruct (String.eqb (heldName x) noteName) eqn:E; simpl.
  - apply String.eqb_eq in E. subst. symmetry. now apply withoutNote_absent.
  - f_equal. now apply IH.
Qed.

Lemma withoutNote_notin noteName l :
  ~ In noteName (map heldName (withoutNote noteName l)).
Proof.
  rewrite in_map_iff. intros (h & Hn & Hin).
  apply filter_In in Hin. destruct Hin as [_ Hb].
  rewrite Hn, String.eqb_refl in Hb. discriminate.
Qed.

Lemma withoutNote_NoDup noteName l :
  NoDup (map heldName l) -> NoDup (map heldName (withoutNote noteName l)).
Proof. intros H. rewrite <- removeHeld_withoutNote by assumption. now apply removeHeld_NoDup. Qed.

(** Engaging a pitch class keeps one entry per pitch class. *)
Lemma engage_NoDup h l :
  NoDup (map heldName l) ->
  NoDup (map heldName (removeHeld (heldName h) l ++ [h])).
Proof.
  intros H. rewrite removeHeld_withoutNote by assumption.
  rewrite map_app. simpl.
  apply Permutation_NoDup with (l := heldName h :: map heldName (withoutNote (heldName h) l)).
  - apply Permutation_cons_append.
  - constructor; [apply withoutNote_notin|now apply withoutNote_NoDup].
Qed.

(** ** What [stopNote] touches *)

Ltac stop_cases :=
  unfold stopNote;
  match goal with
  | |- context [obj_get ?f (activeOscillators ?st)] =>
      let E := fresh "Eget" in
      destruct (obj_get f (activeOscillators st)) eqn:E;
      [ match goal with
        | |- context [getNoteFromFrequency ?x] =>
            let En := fresh "Enote" in
            destruct (getNoteFromFrequency x) eqn:En
        end
      | ]
  end.

Lemma stopNote_absent f st :
  obj_get f (activeOscillators st) = None -> stopNote f st = st.
Proof. intros H. unfold stopNote. now rewrite H. Qed.

Lemma stopNote_activeOscillators f st :
  activeOscillators (stopNote f st) = obj_delete f (activeOscillators st).
Proof.
  stop_cases; simpl; try reflexivity.
  symmetry. now apply obj_delete_absent.
Qed.

Lemma stopNote_octaveShift f st : octaveShift (stopNote f st) = octaveShift st.
Proof. stop_cases; reflexivity. Qed.

Lemma stopNote_lastPlayedNote f st :
  lastPlayedNote (stopNote f st) = lastPlayedNote st.
Proof. stop_cases; reflexivity. Qed.

Lemma stopNote_currentTime f st : currentTime (stopNote f st) = currentTime st.
Proof. stop_cases; reflexivity. Qed.

Lemma stopNote_majorOnTop f st : majorOnTop (stopNote f st) = majorOnTop st.
Proof. stop_cases; reflexivity. Qed.

Lemma stopNote_MASTER_GAIN f st : MASTER_GAIN (stopNote f st) = MASTER_GAIN st.
Proof. stop_cases; reflexivity. Qed.

(** The ledger loses at most the first entry of one pitch class. *)
Lemma stopNote_heldNotes f st :
  heldNotes (stopNote f st) = heldNotes st \/
  exists noteName, heldNotes (stopNote f st) = removeHeld noteName (heldNotes st).
Proof. stop_cases; simpl; eauto. Qed.

Lemma stopNote_heldNotes_nil f st :
  heldNotes st = [] -> heldNotes (stopNote f st) = [].
Proof.
  intros H. destruct (stopNote_heldNotes f st) as [->|(n & ->)]; [assumption|].
  now rewrite H.
Qed.

Lemma stopNote_ledger_unique f st : ledger_unique st -> ledger_unique (stopNote f st).
Proof.
  unfold ledger_unique. intros H.
  destruct (stopNote_heldNotes f st) as [->|(n & ->)]; [assumption|].
  now apply removeHeld_NoDup.
Qed.

Lemma stopNote_registry_wf f st : registry_wf st -> registry_wf (stopNote f st).
Proof. unfold registry_wf. rewrite stopNote_activeOscillators. apply obj_wf_delete. Qed.

Lemma stopNote_keys_follow_shift f st :
  keys_follow_shift st -> keys_follow_shift (stopNote f st).
Proof.
  unfold keys_follow_shift. rewrite stopNote_activeOscillators, stopNote_octaveShift.
  intros H k v Hin. apply H. eapply obj_delete_in; eauto.
Qed.

Lemma stopNote_inv f st : engine_inv st -> engine_inv (stopNote f st).
Proof.
  intros (Hr & Hk & Hl & Hw). split; [|split; [|split]].
  - unfold shift_in_range in *. now rewrite stopNote_octaveShift.
  - now apply stopNote_keys_follow_shift.
  - now apply stopNote_ledger_unique.
  - now apply stopNote_registry_wf.
Qed.

(** ** What a note-on touches *)

Lemma guarded_stopNote k st :
  (if obj_has k (activeOscillators st) then stopNote k st else st) = stopNote k st.
Proof.
  unfold obj_has.
  destruct (obj_get k (activeOscillators st)) eqn:E; [reflexivity|].
  symmetry. now apply stopNote_absent.
Qed.


Lemma playNote_eq f a p st :
  playNote f a p st =
  let k := actualOf a f st in
  let st1 := stopNote k st in
  let st3 :=
    set_activeOscillators
      (obj_set k (plainVoice k f (currentTime st) p)
         (obj_delete k (activeOscillators st)))
      (log_effect (OscillatorStart k) st1) in
  match getNoteFromFrequency f with
  | Some noteName =>
      set_lastPlayedNote (Some (Plain noteName))
        (set_heldNotes (removeHeld noteName (heldNotes st1) ++ [Plain noteName]) st3)
  | None => st3
  end.
Proof.
  unfold playNote, actualOf. rewrite guarded_stopNote. cbv zeta.
  set (k := if a then _ else _).
  assert (E : activeOscillators (log_effect (OscillatorStart k) (stopNote k st))
              = obj_delete k (activeOscillators st))
    by (simpl; apply stopNote_activeOscillators).
  rewrite E, stopNote_currentTime. reflexivity.
Qed.

Lemma playNoteFromWheel_eq f noteName type st :
  playNoteFromWheel f noteName type st =
  let k := f * Math_pow2 (octaveShift st) in
  let st1 := stopNote k st in
  let st3 :=
    set_activeOscillators
      (obj_set k (wheelVoice k f (currentTime st) type)
         (obj_delete k (activeOscillators st)))
      (log_effect (OscillatorStart k) st1) in
  set_lastPlayedNote (Some (Wheel noteName type))
    (set_heldNotes (removeHeld noteName (heldNotes st1) ++ [Wheel noteName type]) st3).
Proof.
  unfold playNoteFromWheel. rewrite guarded_stopNote. cbv zeta.
  set (k := f * _).
  assert (E : activeOscillators (log_effect (OscillatorStart k) (stopNote k st))
              = obj_delete k (activeOscillators st))
    by (simpl; apply stopNote_activeOscillators).
  rewrite E, stopNote_currentTime. reflexivity.
Qed.

Lemma playNote_activeOscillators f a p st :
  activeOscillators (playNote f a p st) =
  obj_set (actualOf a f st) (plainVoice (actualOf a f st) f (currentTime st) p)
          (obj_delete (actualOf a f st) (activeOscillators st)).
Proof. rewrite playNote_eq. cbv zeta. destruct (getNoteFromFrequency f); reflexivity. Qed.

Lemma playNote_octaveShift f a p st : octaveShift (playNote f a p st) = octaveShift st.
Proof.
  rewrite playNote_eq. cbv zeta.
  destruct (getNoteFromFrequency f); simpl; apply stopNote_octaveShift.
Qed.

Lemma playNote_heldNotes f a p st :
  heldNotes (playNote f a p st) =
  match getNoteFromFrequency f with
  | Some noteName =>
      removeHeld noteName (heldNotes (stopNote (actualOf a f st) st)) ++ [Plain noteName]
  | None => heldNotes (stopNote (actualOf a f st) st)
  end.
Proof. rewrite playNote_eq. cbv zeta. destruct (getNoteFromFrequency f); reflexivity. Qed.

Lemma playNote_lastPlayedNote f a p st :
  lastPlayedNote (playNote f a p st) =
  match getNoteFromFrequency f with
  | Some noteName => Some (Plain noteName)
  | None => lastPlayedNote st
  end.
Proof.
  rewrite playNote_eq. cbv zeta.
  destruct (getNoteFromFrequency f); simpl; [reflexivity|apply stopNote_lastPlayedNote].
Qed.

Lemma playNote_audioLog f a p st :
  audioLog (playNote f a p st) =
  audioLog (stopNote (actualOf a f st) st) ++ [OscillatorStart (actualOf a f st)].
Proof. rewrite playNote_eq. cbv zeta. destruct (getNoteFromFrequency f); reflexivity. Qed.

Lemma playNoteFromWheel_activeOscillators f n t st :
  activeOscillators (playNoteFromWheel f n t st) =
  obj_set (f * Math_pow2 (octaveShift st))
          (wheelVoice (f * Math_pow2 (octaveShift st)) f (currentTime st) t)
          (obj_delete (f * Math_pow2 (octaveShift st)) (activeOscillators st)).
Proof. rewrite playNoteFromWheel_eq. reflexivity. Qed.

Lemma playNoteFromWheel_octaveShift f n t st :
  octaveShift (playNoteFromWheel f n t st) = octaveShift st.
Proof. rewrite playNoteFromWheel_eq. simpl. apply stopNote_octaveShift. Qed.

Lemma playNoteFromWheel_heldNotes f n t st :
  heldNotes (playNoteFromWheel f n t st) =
  removeHeld n (heldNotes (stopNote (f * Math_pow2 (octaveShift st)) st)) ++ [Wheel n t].
Proof. rewrite playNoteFromWheel_eq. reflexivity. Qed.

(** Both note-on functions keep the invariants. *)
Lemma registered_wf k (v : voice) o : obj_wf o -> obj_wf (obj_set k v (obj_delete k o)).
Proof.
  intros H. apply obj_wf_set; [apply obj_get_delete_same|now apply obj_wf_delete].
Qed.

Lemma registered_in k v o (kv : Q * voice) :
  In kv (obj_set k v (obj_delete k o)) -> kv = (k, v) \/ In kv o.
Proof.
  intros H. apply obj_set_in in H; [|apply obj_get_delete_same].
  destruct H as [H|H]; [now left|right]. eapply obj_delete_in; eauto.
Qed.

Lemma playNote_inv f p st : engine_inv st -> engine_inv (playNote f true p st).
Proof.
  intros (Hr & Hk & Hl & Hw).
  unfold engine_inv, shift_in_range, keys_follow_shift, ledger_unique, registry_wf.
  rewrite playNote_octaveShift, playNote_activeOscillators, playNote_heldNotes.
  split; [exact Hr|]. split; [|split].
  - intros k v Hin. apply registered_in in Hin. destruct Hin as [[= -> ->]|Hin].
    + split; reflexivity.
    + now apply Hk.
  - pose proof (stopNote_ledger_unique (actualOf true f st) st Hl) as Hs.
    destruct (getNoteFromFrequency f) as [n|]; [|exact Hs].
    apply (engage_NoDup (Plain n)). exact Hs.
  - now apply registered_wf.
Qed.

Lemma playNoteFromWheel_inv f n t st :
  engine_inv st -> engine_inv (playNoteFromWheel f n t st).
Proof.
  intros (Hr & Hk & Hl & Hw).
  unfold engine_inv, shift_in_range, keys_follow_shift, ledger_unique, registry_wf.
  rewrite playNoteFromWheel_octaveShift, playNoteFromWheel_activeOscillators,
    playNoteFromWheel_heldNotes.
  split; [exact Hr|]. split; [|split].
  - intros k v Hin. apply registered_in in Hin. destruct Hin as [[= -> ->]|Hin].
    + split; reflexivity.
    + now apply Hk.
  - apply (engage_NoDup (Wheel n t)).
    exact (stopNote_ledger_unique _ st Hl).
  - now apply registered_wf.
Qed.

(** ** Stopping every voice *)

Lemma fold_left_on_map {S X K : Type} (F : K -> S -> S) (g : X -> K) l s :
  fold_left (fun s' x => F (g x) s') l s = fold_left (fun s' k => F k s') (map g l) s.
Proof. revert s. induction l as [|x l IH]; simpl; intros s; [reflexivity|apply IH]. Qed.

Lemma stopAll_activeOscillators ks st :
  activeOscillators (fold_left (fun s k => stopNote k s) ks st) =
  fold_left (fun o k => obj_delete k o) ks (activeOscillators st).
Proof.
  revert st. induction ks as [|k ks IH]; simpl; intros st; [reflexivity|].
  rewrite IH, stopNote_activeOscillators. reflexivity.
Qed.

Lemma stopAll_octaveShift ks st :
  octaveShift (fold_left (fun s k => stopNote k s) ks st) = octaveShift st.
Proof.
  revert st. induction ks as [|k ks IH]; simpl; intros st; [reflexivity|].
  rewrite IH. apply stopNote_octaveShift.
Qed.

Lemma stopAll_lastPlayedNote ks st :
  lastPlayedNote (fold_left (fun s k => stopNote k s) ks st) = lastPlayedNote st.
Proof.
  revert st. induction ks as [|k ks IH]; simpl; intros st; [reflexivity|].
  rewrite IH. apply stopNote_lastPlayedNote.
Qed.

Lemma stopAll_heldNotes_nil ks st :
  heldNotes st = [] -> heldNotes (fold_left (fun s k => stopNote k s) ks st) = [].
Proof.
  revert st. induction ks as [|k ks IH]; simpl; intros st H; [assumption|].
  apply IH. now apply stopNote_heldNotes_nil.
Qed.

Lemma stopAll_ledger_unique ks st :
  ledger_unique st -> ledger_unique (fold_left (fun s k => stopNote k s) ks st).
Proof.
  revert st. induction ks as [|k ks IH]; simpl; intros st H; [assumption|].
  apply IH. now apply stopNote_ledger_unique.
Qed.

(** Stopping the voices under all the keys of the registry empties it. *)
Lemma stopAll_empty st :
  activeOscillators
    (fold_left (fun s k => stopNote k s) (obj_keys (activeOscillators st)) st) = [].
Proof. rewrite stopAll_activeOscillators. apply obj_delete_own_keys. Qed.

(** ** The octave transposer keeps the invariants *)

Lemma restartNote_inv note st : engine_inv st -> engine_inv (restartNote note st).
Proof.
  intros H. unfold restartNote.
  destruct (getNoteFromFrequency (baseFreq note)) as [n|]; [|assumption].
  destruct (existsb (isWheelNote n) (heldNotes st)).
  - destruct (find (isWheelNote n) (heldNotes st)) as [[?|? t]|]; try assumption.
    now apply playNoteFromWheel_inv.
  - now apply playNote_inv.
Qed.

Lemma restartAll_inv notes st :
  engine_inv st -> engine_inv (fold_left (fun s note => restartNote note s) notes st).
Proof.
  revert st. induction notes as [|n notes IH]; simpl; intros st H; [assumption|].
  apply IH. now apply restartNote_inv.
Qed.

Lemma activeNotes_keys (o : jsobj voice) :
  map actualFreq
      (map (fun kv => mkActiveNote (fst kv) (baseFrequency (snd kv)) (snd kv)) o)
  = obj_keys o.
Proof. unfold obj_keys. rewrite map_map. reflexivity. Qed.

Lemma shiftActiveNotes_inv old new st :
  shift_in_range st -> ledger_unique st -> engine_inv (shiftActiveNotes old new st).
Proof.
  intros Hr Hl. unfold shiftActiveNotes. apply restartAll_inv.
  rewrite (fold_left_on_map stopNote actualFreq), activeNotes_keys.
  unfold engine_inv, shift_in_range, keys_follow_shift, registry_wf.
  rewrite stopAll_empty, stopAll_octaveShift.
  split; [exact Hr|]. split; [intros k v []|]. split; [|exact I].
  now apply stopAll_ledger_unique.
Qed.

(** ** Every handler keeps the invariants *)

Lemma inv_frame st st' :
  activeOscillators st' = activeOscillators st ->
  heldNotes st' = heldNotes st ->
  octaveShift st' = octaveShift st ->
  engine_inv st -> engine_inv st'.
Proof.
  unfold engine_inv, shift_in_range, keys_follow_shift, ledger_unique, registry_wf.
  intros -> -> ->. trivial.
Qed.

Lemma stopDragged_inv f st : engine_inv st -> engine_inv (stopDragged f st).
Proof.
  intros H. unfold stopDragged. destruct (currentPlayingFrequency st); [|assumption].
  destruct (_ && _); [now apply stopNote_inv|assumption].
Qed.

Lemma wheelPress_inv el st : engine_inv st -> engine_inv (wheelPress el st).
Proof.
  intros H. unfold wheelPress, wheelPlay. destruct el as [[f n] t]. simpl.
  apply playNoteFromWheel_inv.
  apply (inv_frame (stopDragged f st)); try reflexivity. now apply stopDragged_inv.
Qed.

Lemma pianoPress_inv f st : engine_inv st -> engine_inv (pianoPress f st).
Proof.
  intros H. unfold pianoPress, pianoPlay. apply playNote_inv.
  apply (inv_frame (stopDragged f st)); try reflexivity. now apply stopDragged_inv.
Qed.

Lemma octaveDown_inv st :
  (MIN_OCTAVE_SHIFT < octaveShift st)%Z -> engine_inv st -> engine_inv (octaveDown st).
Proof.
  intros Hg (Hr & _ & Hl & _). unfold octaveDown. apply shiftActiveNotes_inv.
  - unfold shift_in_range in *. simpl. lia.
  - exact Hl.
Qed.

Lemma octaveUp_inv st :
  (octaveShift st < MAX_OCTAVE_SHIFT)%Z -> engine_inv st -> engine_inv (octaveUp st).
Proof.
  intros Hg (Hr & _ & Hl & _). unfold octaveUp. apply shiftActiveNotes_inv.
  - unfold shift_in_range in *. simpl. lia.
  - exact Hl.
Qed.

Lemma octaveReset_inv st : engine_inv st -> engine_inv (octaveReset st).
Proof.
  intros (Hr & _ & Hl & _). unfold octaveReset. apply shiftActiveNotes_inv.
  - unfold shift_in_range, MIN_OCTAVE_SHIFT, MAX_OCTAVE_SHIFT. simpl. lia.
  - exact Hl.
Qed.

Lemma onKeyDown_inv key ignored st : engine_inv st -> engine_inv (onKeyDown key ignored st).
Proof.
  intros H. unfold onKeyDown. destruct ignored; [assumption|].
  destruct (String.eqb (toLowerCase key) "z" && _) eqn:Ez.
  { apply andb_true_iff in Ez. destruct Ez as [_ Ez]. apply Z.ltb_lt in Ez.
    now apply octaveDown_inv. }
  destruct (String.eqb (toLowerCase key) "x" && _) eqn:Ex.
  { apply andb_true_iff in Ex. destruct Ex as [_ Ex]. apply Z.ltb_lt in Ex.
    now apply octaveUp_inv. }
  destruct (keyFrequency (toLowerCase key)); [|assumption].
  destruct (negb _ && negb _); [|assumption].
  apply playNote_inv. now apply (inv_frame st).
Qed.

Lemma onKeyUp_inv key st : engine_inv st -> engine_inv (onKeyUp key st).
Proof.
  intros H. unfold onKeyUp.
  destruct (keyFrequency (toLowerCase key)); [|assumption].
  destruct (negb _ && set_has _ _); [|assumption].
  apply stopNote_inv. now apply (inv_frame st).
Qed.

Lemma onMouseUp_inv st : engine_inv st -> engine_inv (onMouseUp st).
Proof.
  intros H. unfold onMouseUp. simpl.
  destruct (currentPlayingFrequency st) as [cpf|]; [|now apply (inv_frame st)].
  destruct (negb _); [|now apply (inv_frame st)].
  eapply inv_frame; [..|apply (stopNote_inv (cpf * Math_pow2 (octaveShift st)))];
    [reflexivity|reflexivity|reflexivity|].
  now apply (inv_frame st).
Qed.

Lemma onBlur_inv st : engine_inv st -> engine_inv (onBlur st).
Proof.
  intros (Hr & _ & _ & _). unfold onBlur.
  unfold engine_inv, shift_in_range, keys_follow_shift, ledger_unique, registry_wf.
  match goal with
  | |- context [fold_left _ (obj_keys (activeOscillators ?s)) ?s] =>
      rewrite (stopAll_empty s), stopAll_octaveShift,
        (stopAll_heldNotes_nil _ s eq_refl)
  end.
  split; [exact Hr|]. split; [intros k v []|]. split; [constructor|exact I].
Qed.

Lemma mapped_values_get {A : Type} (g : Q -> A -> A) k (o : jsobj A) :
  obj_get k (map (fun kv => (fst kv, g (fst kv) (snd kv))) o) = None <->
  obj_get k o = None.
Proof.
  induction o as [|kv o IH]; simpl; [tauto|].
  unfold is_key; simpl. destruct (Qeq_bool (fst kv) k); [split; discriminate|exact IH].
Qed.

Lemma mapped_values_wf {A : Type} (g : Q -> A -> A) (o : jsobj A) :
  obj_wf o -> obj_wf (map (fun kv => (fst kv, g (fst kv) (snd kv))) o).
Proof.
  induction o as [|kv o IH]; simpl; [trivial|].
  intros [Hn Hw]. split; [now apply mapped_values_get|now apply IH].
Qed.

Lemma audioRender_inv now level st : engine_inv st -> engine_inv (audioRender now level st).
Proof.
  intros (Hr & Hk & Hl & Hw). split; [exact Hr|]. split; [|split; [exact Hl|]].
  - intros k v Hin. simpl in Hin. apply in_map_iff in Hin.
    destruct Hin as ([k0 v0] & [= <- <-] & Hin). simpl. now apply Hk.
  - unfold registry_wf. simpl.
    apply (mapped_values_wf (fun k v => with_gain_value (level k) v)). exact Hw.
Qed.

Lemma handle_inv e st : engine_inv st -> engine_inv (handle e st).
Proof.
  intros H. destruct e; simpl.
  - apply wheelPress_inv. now apply (inv_frame st).
  - destruct (isMouseDown st); [now apply wheelPress_inv|assumption].
  - destruct el as [[f n] t]. now apply playNoteFromWheel_inv.
  - now apply stopNote_inv.
  - now apply onMouseUp_inv.
  - now apply onKeyDown_inv.
  - now apply onKeyUp_inv.
  - now apply onBlur_inv.
  - apply pianoPress_inv. now apply (inv_frame st).
  - destruct (isMouseDown st); [now apply pianoPress_inv|assumption].
  - now apply playNote_inv.
  - now apply stopNote_inv.
  - now apply (inv_frame st).
  - now apply (inv_frame st).
  - destruct (MIN_OCTAVE_SHIFT <? octaveShift st)%Z eqn:E; [|assumption].
    apply Z.ltb_lt in E. now apply octaveDown_inv.
  - now apply octaveReset_inv.
  - destruct (octaveShift st <? MAX_OCTAVE_SHIFT)%Z eqn:E; [|assumption].
    apply Z.ltb_lt in E. now apply octaveUp_inv.
Qed.

Lemma initialState_inv m v : engine_inv (initialState m v).
Proof.
  split; [|split; [|split]].
  - unfold shift_in_range, MIN_OCTAVE_SHIFT, MAX_OCTAVE_SHIFT. simpl. lia.
  - intros k x [].
  - constructor.
  - exact I.
Qed.

(** The invariants hold in every state the page can reach. *)
Lemma reachable_inv st : reachable st -> engine_inv st.
Proof.
  induction 1 as [m v|e st _ IH _|now level st _ IH].
  - apply initialState_inv.
  - now apply handle_inv.
  - now apply audioRender_inv.
Qed.

(** ** Frequencies and pitch classes *)

Lemma Math_pow2_nonzero n : ~ Math_pow2 n == 0.
Proof. unfold Math_pow2. apply Qpower_not_0. discriminate. Qed.

Lemma shifted_inj f g n : f * Math_pow2 n == g * Math_pow2 n -> f == g.
Proof. intros H. apply Qmult_inj_r in H; [assumption|apply Math_pow2_nonzero]. Qed.

Lemma Qlt_bool_iff x y : Qlt_bool x y = true <-> x < y.
Proof.
  unfold Qlt_bool. rewrite Qlt_alt. destruct (x ?= y); split; congruence.
Qed.

Lemma Qlt_bool_compat x x' y : x == x' -> Qlt_bool x y = Qlt_bool x' y.
Proof. intros H. unfold Qlt_bool. now rewrite H. Qed.

Lemma firstNoteNear_compat f g l : f == g -> firstNoteNear f l = firstNoteNear g l.
Proof.
  intros H. induction l as [|[n nf] l IH]; cbn [firstNoteNear]; [reflexivity|].
  rewrite (Qlt_bool_compat (Qabs (nf - f)) (Qabs (nf - g))), IH; [reflexivity|].
  now rewrite H.
Qed.

Lemma getNoteFromFrequency_compat f g :
  f == g -> getNoteFromFrequency f = getNoteFromFrequency g.
Proof. apply firstNoteNear_compat. Qed.

Lemma firstNoteNear_none f l :
  firstNoteNear f l = None <->
  (forall n nf, In (n, nf) l -> ~ Qabs (nf - f) < 0.01).
Proof.
  induction l as [|[n nf] l IH]; cbn [firstNoteNear In].
  - split; [intros _ ? ? []|reflexivity].
  - destruct (Qlt_bool (Qabs (nf - f)) 0.01) eqn:E.
    + split; [discriminate|]. intros H. exfalso.
      apply (H n nf); [now left|now apply Qlt_bool_iff].
    + rewrite IH. split.
      * intros H n' nf' [[= <- <-]|Hin]; [|now apply (H n' nf')].
        intros Hlt. apply Qlt_bool_iff in Hlt. congruence.
      * intros H n' nf' Hin. apply (H n' nf'). now right.
Qed.

(** [getNoteFromFrequency] finds no note exactly for the off-pitch
    frequencies. *)
Lemma getNoteFromFrequency_none f : getNoteFromFrequency f = None <-> offPitch f.
Proof. apply firstNoteNear_none. Qed.

Lemma firstNoteNear_in f l n : firstNoteNear f l = Some n -> In n (map fst l).
Proof.
  induction l as [|[n' nf] l IH]; cbn [firstNoteNear In map fst]; [discriminate|].
  destruct (Qlt_bool (Qabs (nf - f)) 0.01); [intros [= ->]; now left|].
  intros H. right. now apply IH.
Qed.

Lemma getNoteFromFrequency_in f n : getNoteFromFrequency f = Some n -> In n noteOrder.
Proof. intros H. apply firstNoteNear_in in H. exact H. Qed.

(** The pitch class [stopNote] takes off the ledger is that of the base
    frequency of the voice. *)
Lemma unhighlight_note (v : voice) k n :
  k == baseFrequency v * Math_pow2 n ->
  getNoteFromFrequency (if Qeq_bool (baseFrequency v) 0 then k else baseFrequency v)
  = getNoteFromFrequency (baseFrequency v).
Proof.
  intros Hk. destruct (Qeq_bool (baseFrequency v) 0) eqn:E; [|reflexivity].
  apply Qeq_bool_iff in E. apply getNoteFromFrequency_compat.
  rewrite Hk, E. ring.
Qed.

(** In a state where keys follow the shift, stopping the voice under the
    sounding frequency of [f] costs the ledger at most the entry of the pitch
    class of [f]. *)
Lemma stopNote_shifted_heldNotes f st :
  keys_follow_shift st ->
  heldNotes (stopNote (f * Math_pow2 (octaveShift st)) st) =
  match obj_get (f * Math_pow2 (octaveShift st)) (activeOscillators st),
        getNoteFromFrequency f with
  | Some _, Some noteName => removeHeld noteName (heldNotes st)
  | _, _ => heldNotes st
  end.
Proof.
  intros Hk. unfold stopNote.
  destruct (obj_get _ (activeOscillators st)) as [v|] eqn:E; [|reflexivity].
  destruct (obj_get_some_in _ _ _ E) as (k' & Hin & Hk').
  destruct (Hk _ _ Hin) as [Hb _].
  assert (Hf : baseFrequency v == f).
  { apply (shifted_inj _ _ (octaveShift st)). now rewrite <- Hb. }
  rewrite (unhighlight_note v _ (octaveShift st)) by (now rewrite Hf).
  rewrite (getNoteFromFrequency_compat _ _ Hf).
  destruct (getNoteFromFrequency f); reflexivity.
Qed.

(** ** Counting the voices at a frequency *)

Lemma voicesAt_perm k (o o' : jsobj voice) :
  Permutation o o' -> voicesAt k o = voicesAt k o'.
Proof.
  unfold voicesAt. induction 1 as [|x l l' _ IH|x y l|l l' l'' _ IH1 _ IH2]; simpl.
  - reflexivity.
  - destruct (is_key k x); simpl; congruence.
  - destruct (is_key k x), (is_key k y); reflexivity.
  - congruence.
Qed.

Lemma voicesAt_deleted k (o : jsobj voice) : voicesAt k (obj_delete k o) = 0%nat.
Proof.
  unfold voicesAt, obj_delete. induction o as [|kv o IH]; simpl; [reflexivity|].
  destruct (is_key k kv) eqn:E; simpl; [assumption|]. now rewrite E.
Qed.

Lemma voicesAt_registered k v (o : jsobj voice) :
  voicesAt k (obj_set k v (obj_delete k o)) = 1%nat.
Proof.
  rewrite (voicesAt_perm k _ _ (obj_set_perm k v _ (obj_get_delete_same k o))).
  unfold voicesAt at 1. simpl. unfold is_key at 1. simpl. rewrite Qeq_bool_refl. simpl.
  f_equal. apply voicesAt_deleted.
Qed.

Lemma voicesAt_absent k (o : jsobj voice) : obj_get k o = None -> voicesAt k o = 0%nat.
Proof.
  unfold voicesAt. induction o as [|kv o IH]; simpl; [reflexivity|].
  destruct (is_key k kv); [discriminate|assumption].
Qed.

Lemma voicesAt_wf k (o : jsobj voice) : obj_wf o -> (voicesAt k o <= 1)%nat.
Proof.
  induction o as [|kv o IH]; simpl; [unfold voicesAt; simpl; lia|].
  intros [Hn Hw]. unfold voicesAt in *. simpl.
  destruct (is_key k kv) eqn:E; [|now apply IH]. simpl.
  unfold is_key in E. apply Qeq_bool_iff in E.
  rewrite (obj_get_compat _ _ o E) in Hn.
  pose proof (voicesAt_absent k o Hn) as H0. unfold voicesAt in H0. lia.
Qed.

(** ** More of what a note-on leaves alone *)

Lemma playNote_currentTime f a p st : currentTime (playNote f a p st) = currentTime st.
Proof.
  rewrite playNote_eq. cbv zeta.
  destruct (getNoteFromFrequency f); simpl; apply stopNote_currentTime.
Qed.

Lemma playNote_MASTER_GAIN f a p st : MASTER_GAIN (playNote f a p st) = MASTER_GAIN st.
Proof.
  rewrite playNote_eq. cbv zeta.
  destruct (getNoteFromFrequency f); simpl; apply stopNote_MASTER_GAIN.
Qed.

Lemma playNoteFromWheel_currentTime f n t st :
  currentTime (playNoteFromWheel f n t st) = currentTime st.
Proof. rewrite playNoteFromWheel_eq. simpl. apply stopNote_currentTime. Qed.

Lemma playNoteFromWheel_audioLog f n t st :
  audioLog (playNoteFromWheel f n t st) =
  audioLog (stopNote (f * Math_pow2 (octaveShift st)) st)
  ++ [OscillatorStart (f * Math_pow2 (octaveShift st))].
Proof. rewrite playNoteFromWheel_eq. reflexivity. Qed.

Lemma stopNote_audioLog_live k v st :
  obj_get k (activeOscillators st) = Some v ->
  exists g, audioLog (stopNote k st) = audioLog st ++ [FadeOutAndRelease (oscillator v) g].
Proof.
  intros H. unfold stopNote. rewrite H.
  destruct (getNoteFromFrequency _); simpl; eexists; reflexivity.
Qed.

Lemma registered_get k v (o : jsobj voice) :
  obj_get k (obj_set k v (obj_delete k o)) = Some v.
Proof. apply obj_get_set_same, obj_get_delete_same. Qed.

Lemma registered_twice k v (o : jsobj voice) :
  obj_set k v (obj_delete k (obj_set k v (obj_delete k o))) = obj_set k v (obj_delete k o).
Proof. rewrite obj_delete_set by apply obj_get_delete_same. reflexivity. Qed.

(** ** The model on small inputs *)

(** [Object.keys] lists the array-index keys 392 and 440 first, in ascending
    order, then 261.63. *)
Example keys_enumerate_as_in_js :
  obj_keys
    (activeOscillators
       (handle (KeyDown "g" false)
          (handle (KeyDown "a" false)
             (handle (KeyDown "H" false) (initialState false 0.7)))))
  = [392.00; 440.00; 261.63].
Proof. reflexivity. Qed.

(** C and E go down, C goes up: E is the one entry left on the ledger. *)
Example release_keeps_the_other_note :
  heldNotes
    (handle (KeyUp "a")
       (handle (KeyDown "d" false)
          (handle (KeyDown "a" false) (initialState false 0.7))))
  = [Plain "E"].
Proof. reflexivity. Qed.

(** A key that is held does not re-trigger, and a key with a modifier is
    ignored. *)
Example held_key_does_not_repeat :
  handle (KeyDown "a" false) keyboardC = keyboardC /\
  handle (KeyDown "d" true) keyboardC = keyboardC.
Proof. split; reflexivity. Qed.

(** * The claims *)

(** ** Note-off for an unknown frequency *)

(** C9.  For every frequency [f] under which no live voice is registered,
    [stopNote f] returns without any effect: the whole state, and with it
    the voice registry, the held-notes ledger and the last-played-note
    fallback, is unchanged. *)
Theorem noteOff_unknown_is_noop (f : Q) (st : state) :
  obj_get f (activeOscillators st) = None ->
  stopNote f st = st /\
  activeOscillators (stopNote f st) = activeOscillators st /\
  heldNotes (stopNote f st) = heldNotes st /\
  lastPlayedNote (stopNote f st) = lastPlayedNote st.
Proof.
  intros H. rewrite (stopNote_absent f st H). repeat split.
Qed.

Lemma noteOff_unknown_is_noop_witness :
  obj_get 440 (activeOscillators keyboardC) = None /\
  stopNote 440 keyboardC = keyboardC.
Proof.
  split; [reflexivity|].
  apply (noteOff_unknown_is_noop 440 keyboardC). reflexivity.
Defined.

(** ** All notes off *)

(** C5.  Whatever the state and however many voices are live, the blur
    handler leaves no live voice and an empty ledger, and does not touch the
    last-played-note fallback. *)
Theorem blur_stops_everything (st : state) :
  activeOscillators (handle Blur st) = [] /\
  obj_count (activeOscillators (handle Blur st)) = 0%nat /\
  heldNotes (handle Blur st) = [] /\
  lastPlayedNote (handle Blur st) = lastPlayedNote st.
Proof.
  simpl. unfold onBlur.
  match goal with
  | |- context [fold_left _ (obj_keys (activeOscillators ?s)) ?s] =>
      rewrite (stopAll_empty s), (stopAll_heldNotes_nil _ s eq_refl),
        stopAll_lastPlayedNote
  end.
  repeat split.
Qed.

(** ** The held-notes ledger *)

(** C3.  In every reachable state the ledger holds at most one entry per
    pitch class.  Engaging a pitch class, from the piano or keyboard
    ([playNote]) or from the wheel ([playNoteFromWheel]), whatever the
    provenance of the entry already there, removes the entries of that pitch
    class and appends the new entry at the end, and the ledger still holds at
    most one entry per pitch class. *)
Theorem ledger_one_entry_per_pitch_class (st : state) :
  reachable st ->
  NoDup (map heldName (heldNotes st)) /\
  (forall f n p,
      getNoteFromFrequency f = Some n ->
      heldNotes (playNote f true p st) = withoutNote n (heldNotes st) ++ [Plain n] /\
      NoDup (map heldName (heldNotes (playNote f true p st)))) /\
  (forall f n t,
      getNoteFromFrequency f = Some n ->
      heldNotes (playNoteFromWheel f n t st)
      = withoutNote n (heldNotes st) ++ [Wheel n t] /\
      NoDup (map heldName (heldNotes (playNoteFromWheel f n t st)))).
Proof.
  intros Hreach. pose proof (reachable_inv st Hreach) as Hinv.
  pose proof Hinv as (Hr & Hk & Hl & Hw).
  assert (Hstop : forall f n, getNoteFromFrequency f = Some n ->
            removeHeld n (heldNotes (stopNote (f * Math_pow2 (octaveShift st)) st))
            = withoutNote n (heldNotes st)).
  { intros f n Hn. rewrite (stopNote_shifted_heldNotes f st Hk), Hn.
    destruct (obj_get _ (activeOscillators st)).
    - rewrite (removeHeld_withoutNote n (heldNotes st) Hl).
      apply removeHeld_absent, withoutNote_notin.
    - now apply removeHeld_withoutNote. }
  split; [exact Hl|]. split.
  - intros f n p Hn. split.
    + rewrite playNote_heldNotes, Hn. unfold actualOf. now rewrite Hstop.
    + now apply (playNote_inv f p st).
  - intros f n t Hn. split.
    + rewrite playNoteFromWheel_heldNotes. now rewrite Hstop.
    + now apply (playNoteFromWheel_inv f n t st).
Qed.

Lemma ledger_one_entry_per_pitch_class_witness :
  reachable wheelCmajor /\
  heldNotes wheelCmajor = [Wheel "C"%string major] /\
  heldNotes (playNote 261.63 true true wheelCmajor) = [Plain "C"%string].
Proof.
  assert (R : reachable wheelCmajor).
  { apply reach_event; [apply reach_init|]. simpl. auto 20. }
  split; [exact R|]. split; [reflexivity|].
  destruct (ledger_one_entry_per_pitch_class wheelCmajor R) as (_ & H & _).
  destruct (H 261.63 "C"%string true eq_refl) as [-> _]. reflexivity.
Defined.

(** ** A note-on off the twelve pitches *)



(** ** Re-triggering a sounding frequency *)

(** C7.  A note-on for a sounding frequency at which a voice is registered
    first destroys that voice (its fade-out and release are issued before the
    new oscillator starts) and registers one new voice: after one note-on,
    and after a second one, exactly one voice is registered at the sounding
    frequency and the registry is the same.  This holds for [playNote] and
    for [playNoteFromWheel].  In every reachable state at most one voice is
    registered per sounding frequency. *)
Theorem noteOn_retrigger_idempotent (f : Q) (p : bool) (n : string) (t : chord)
  (st : state) :
  let k := f * Math_pow2 (octaveShift st) in
  (forall v0,
      obj_get k (activeOscillators st) = Some v0 ->
      exists g,
        audioLog (playNote f true p st)
        = audioLog st ++ [FadeOutAndRelease (oscillator v0) g; OscillatorStart k] /\
        audioLog (playNoteFromWheel f n t st)
        = audioLog st ++ [FadeOutAndRelease (oscillator v0) g; OscillatorStart k]) /\
  (let once := playNote f true p st in
   let twice := playNote f true p once in
   voicesAt k (activeOscillators once) = 1%nat /\
   voicesAt k (activeOscillators twice) = 1%nat /\
   activeOscillators twice = activeOscillators once /\
   exists g, audioLog twice
             = audioLog once ++ [FadeOutAndRelease k g; OscillatorStart k]) /\
  (let once := playNoteFromWheel f n t st in
   let twice := playNoteFromWheel f n t once in
   voicesAt k (activeOscillators once) = 1%nat /\
   voicesAt k (activeOscillators twice) = 1%nat /\
   activeOscillators twice = activeOscillators once /\
   exists g, audioLog twice
             = audioLog once ++ [FadeOutAndRelease k g; OscillatorStart k]) /\
  (reachable st ->
   forall k', (voicesAt k' (activeOscillators st) <= 1)%nat).
Proof.
  intros k. split; [|split; [|split]].
  - intros v0 Hv0. destruct (stopNote_audioLog_live k v0 st Hv0) as (g & Hg).
    exists g. rewrite playNote_audioLog, playNoteFromWheel_audioLog.
    unfold actualOf. fold k. rewrite Hg, <- app_assoc. split; reflexivity.
  - cbv zeta.
    assert (E : activeOscillators (playNote f true p (playNote f true p st))
                = activeOscillators (playNote f true p st)).
    { rewrite (playNote_activeOscillators f true p (playNote f true p st)).
      unfold actualOf. rewrite playNote_octaveShift, playNote_currentTime.
      rewrite playNote_activeOscillators. unfold actualOf. apply registered_twice. }
    rewrite E. rewrite playNote_activeOscillators. unfold actualOf. fold k.
    split; [apply voicesAt_registered|]. split; [apply voicesAt_registered|].
    split; [reflexivity|].
    rewrite (playNote_audioLog f true p (playNote f true p st)).
    unfold actualOf. rewrite playNote_octaveShift. fold k.
    destruct (stopNote_audioLog_live k (plainVoice k f (currentTime st) p)
                (playNote f true p st)) as (g & Hg).
    { rewrite playNote_activeOscillators. unfold actualOf. apply registered_get. }
    exists g. rewrite Hg, <- app_assoc. reflexivity.
  - cbv zeta.
    assert (E : activeOscillators
                  (playNoteFromWheel f n t (playNoteFromWheel f n t st))
                = activeOscillators (playNoteFromWheel f n t st)).
    { rewrite (playNoteFromWheel_activeOscillators f n t (playNoteFromWheel f n t st)).
      rewrite playNoteFromWheel_octaveShift, playNoteFromWheel_currentTime.
      rewrite playNoteFromWheel_activeOscillators. apply registered_twice. }
    rewrite E. rewrite playNoteFromWheel_activeOscillators. fold k.
    split; [apply voicesAt_registered|]. split; [apply voicesAt_registered|].
    split; [reflexivity|].
    rewrite (playNoteFromWheel_audioLog f n t (playNoteFromWheel f n t st)).
    rewrite playNoteFromWheel_octaveShift. fold k.
    destruct (stopNote_audioLog_live k (wheelVoice k f (currentTime st) t)
                (playNoteFromWheel f n t st)) as (g & Hg).
    { rewrite playNoteFromWheel_activeOscillators. apply registered_get. }
    exists g. rewrite Hg, <- app_assoc. reflexivity.
  - intros Hreach k'. apply voicesAt_wf.
    now destruct (reachable_inv st Hreach) as (_ & _ & _ & Hw).
Qed.

Lemma noteOn_retrigger_idempotent_witness :
  reachable keyboardC /\
  (voicesAt 261.63 (activeOscillators keyboardC) <= 1)%nat.
Proof.
  assert (R : reachable keyboardC).
  { apply reach_event; [apply reach_init|exact I]. }
  split; [exact R|].
  destruct (noteOn_retrigger_idempotent 261.63 true "C"%string major keyboardC)
    as (_ & _ & _ & H).
  exact (H R 261.63).
Defined.

(** ** The octave shift *)

Lemma keyDown_z_rejected key ignored st :
  toLowerCase key = "z"%string ->
  (octaveShift st - 1 < MIN_OCTAVE_SHIFT)%Z ->
  handle (KeyDown key ignored) st = st.
Proof.
  intros Hz Hlow. simpl. unfold onKeyDown. destruct ignored; [reflexivity|].
  rewrite Hz. replace (MIN_OCTAVE_SHIFT <? octaveShift st)%Z with false
    by (symmetry; apply Z.ltb_ge; lia).
  reflexivity.
Qed.

Lemma keyDown_x_rejected key ignored st :
  toLowerCase key = "x"%string ->
  (MAX_OCTAVE_SHIFT < octaveShift st + 1)%Z ->
  handle (KeyDown key ignored) st = st.
Proof.
  intros Hx Hhigh. simpl. unfold onKeyDown. destruct ignored; [reflexivity|].
  rewrite Hx. replace (octaveShift st <? MAX_OCTAVE_SHIFT)%Z with false
    by (symmetry; apply Z.ltb_ge; lia).
  reflexivity.
Qed.

(** C6.  In every reachable state the octave shift lies in [-3, 3].  A
    request to shift down (key [z], the down button) whose result would be
    below -3, and a request to shift up (key [x], the up button) whose result
    would be above 3, leaves the whole state unchanged.  Every live voice is
    registered under, and its oscillator sounds at, its base frequency times
    [2 ^ octaveShift], and that is the frequency a note-on registers. *)
Theorem octave_shift_bounded (st : state) :
  reachable st ->
  (-3 <= octaveShift st <= 3)%Z /\
  ((octaveShift st - 1 < -3)%Z ->
   handle OctaveDownClick st = st /\
   forall key ignored, toLowerCase key = "z"%string ->
                       handle (KeyDown key ignored) st = st) /\
  ((3 < octaveShift st + 1)%Z ->
   handle OctaveUpClick st = st /\
   forall key ignored, toLowerCase key = "x"%string ->
                       handle (KeyDown key ignored) st = st) /\
  (forall k v, In (k, v) (activeOscillators st) ->
               k == baseFrequency v * 2 ^ octaveShift st /\
               oscillator v == baseFrequency v * 2 ^ octaveShift st) /\
  (forall f p,
      obj_get (f * 2 ^ octaveShift st) (activeOscillators (playNote f true p st))
      = Some (plainVoice (f * 2 ^ octaveShift st) f (currentTime st) p)) /\
  (forall f n t,
      obj_get (f * 2 ^ octaveShift st)
              (activeOscillators (playNoteFromWheel f n t st))
      = Some (wheelVoice (f * 2 ^ octaveShift st) f (currentTime st) t)).
Proof.
  intros Hreach. destruct (reachable_inv st Hreach) as (Hr & Hk & _ & _).
  split; [exact Hr|]. split; [|split; [|split; [|split]]].
  - intros Hlow. split.
    + simpl. replace (MIN_OCTAVE_SHIFT <? octaveShift st)%Z with false
        by (symmetry; apply Z.ltb_ge; unfold MIN_OCTAVE_SHIFT; lia).
      reflexivity.
    + intros key ignored Hz. now apply keyDown_z_rejected.
  - intros Hhigh. split.
    + simpl. replace (octaveShift st <? MAX_OCTAVE_SHIFT)%Z with false
        by (symmetry; apply Z.ltb_ge; unfold MAX_OCTAVE_SHIFT; lia).
      reflexivity.
    + intros key ignored Hx. now apply keyDown_x_rejected.
  - intros k v Hin. destruct (Hk k v Hin) as [H1 H2]. split; [exact H1|].
    rewrite H2. exact H1.
  - intros f p. rewrite playNote_activeOscillators. apply registered_get.
  - intros f n t. rewrite playNoteFromWheel_activeOscillators. apply registered_get.
Qed.

Lemma octave_shift_bounded_witness :
  reachable lowestOctave /\
  (octaveShift lowestOctave - 1 < -3)%Z /\
  handle (KeyDown "Z" false) lowestOctave = lowestOctave.
Proof.
  assert (R : reachable lowestOctave).
  { repeat (apply reach_event; [|exact I]). apply reach_init. }
  split; [exact R|].
  destruct (octave_shift_bounded lowestOctave R) as (_ & H & _).
  assert (L : (octaveShift lowestOctave - 1 < -3)%Z) by (vm_compute; reflexivity).
  split; [exact L|]. destruct (H L) as [_ Hz]. apply Hz. reflexivity.
Defined.

(** ** Polyphony and the target loudness *)

Lemma playAll_count notes : forall (st : state) (played : list Q),
  (forall kv, In kv (activeOscillators st) ->
              exists g, In g played /\ fst kv == g * Math_pow2 (octaveShift st)) ->
  NoDup (map getNoteFromFrequency (played ++ map fst notes)) ->
  obj_count (activeOscillators (playAll notes st))
  = (obj_count (activeOscillators st) + length notes)%nat /\
  MASTER_GAIN (playAll notes st) = MASTER_GAIN st.
Proof.
  induction notes as [|[f p] notes IH]; intros st played Hkeys Hnd.
  - simpl. split; [lia|reflexivity].
  - cbn [playAll fold_left fst snd length].
    assert (Habs : obj_get (f * Math_pow2 (octaveShift st)) (activeOscillators st) = None).
    { destruct (obj_get _ (activeOscillators st)) as [v|] eqn:E; [|reflexivity].
      exfalso. destruct (obj_get_some_in _ _ _ E) as (k' & Hin & Hk').
      destruct (Hkeys _ Hin) as (g & Hg & Hkg). simpl in Hkg.
      assert (Hfg : g == f).
      { apply (shifted_inj _ _ (octaveShift st)). now rewrite <- Hkg. }
      rewrite map_app in Hnd. cbn [map fst] in Hnd.
      apply NoDup_remove_2 in Hnd. apply Hnd. apply in_or_app. left.
      rewrite <- (getNoteFromFrequency_compat _ _ Hfg). now apply in_map. }
    destruct (IH (playNote f true p st) (played ++ [f])) as [Hc Hm].
    + rewrite playNote_activeOscillators, playNote_octaveShift. unfold actualOf.
      intros kv Hin. apply registered_in in Hin. destruct Hin as [->|Hin].
      * exists f. split; [apply in_or_app; right; now left|reflexivity].
      * destruct (Hkeys _ Hin) as (g & Hg & Hkg). exists g.
        split; [apply in_or_app; now left|assumption].
    + rewrite <- app_assoc. exact Hnd.
    + fold (playAll notes (playNote f true p st)). rewrite Hc, Hm.
      rewrite playNote_activeOscillators, playNote_MASTER_GAIN. unfold actualOf.
      rewrite (obj_delete_absent _ _ Habs), (obj_count_set _ _ _ Habs).
      split; [lia|reflexivity].
Qed.

(** C4.  From a state with no live voice, note-ons for N notes of pairwise
    distinct pitch classes leave N live voices, and the target loudness then
    computed by [calculateVolume] is the master volume for N <= 1 and
    [max(0.05, masterVolume / sqrt(N))] for N >= 2. *)
Theorem polyphony_count_and_target (Math_sqrt : Q -> Q) (notes : list (Q * bool))
  (st : state) :
  activeOscillators st = [] ->
  distinctPitchClasses notes ->
  let N := length notes in
  let st' := playAll notes st in
  obj_count (activeOscillators st') = N /\
  calculateVolume Math_sqrt st'
  = if (N <=? 1)%nat then MASTER_GAIN st
    else Qmax 0.05 (MASTER_GAIN st / Math_sqrt (inject_Z (Z.of_nat N))).
Proof.
  intros Hempty [Hnd _] N st'. subst N st'.
  destruct (playAll_count notes st []) as [Hc Hm].
  - rewrite Hempty. intros kv [].
  - simpl. unfold pitchClasses in Hnd. now rewrite map_map.
  - rewrite Hempty in Hc. simpl in Hc. split; [exact Hc|].
    unfold calculateVolume. rewrite Hc, Hm.
    destruct (length notes) as [|[|n]]; reflexivity.
Qed.

Lemma polyphony_count_and_target_witness :
  distinctPitchClasses seventhChord /\
  obj_count (activeOscillators (playAll seventhChord (initialState false 0.7)))
  = 4%nat /\
  calculateVolume (fun _ => 2) (playAll seventhChord (initialState false 0.7))
  == 0.35.
Proof.
  assert (D : distinctPitchClasses seventhChord).
  { split.
    - repeat constructor; simpl; intuition discriminate.
    - simpl. intuition discriminate. }
  split; [exact D|].
  destruct (polyphony_count_and_target (fun _ => 2) seventhChord
              (initialState false 0.7) eq_refl D) as [Hc Hv].
  split; [exact Hc|]. rewrite Hv. reflexivity.
Defined.

(** ** Primary and secondary renditions *)

Lemma plainIsPrimary_canonical f n st :
  getNoteFromFrequency f = Some n ->
  plainIsPrimary f st
  = if majorOnTop st then isMajorChordCenter n else negb (isMajorChordCenter n).
Proof.
  intros Hn. unfold plainIsPrimary. rewrite Hn.
  apply getNoteFromFrequency_in in Hn. simpl in Hn.
  repeat (destruct Hn as [<-|Hn]; [destruct (majorOnTop st); reflexivity|]).
  destruct Hn.
Qed.

Lemma plainIsPrimary_frame f st st' :
  majorOnTop st' = majorOnTop st -> plainIsPrimary f st' = plainIsPrimary f st.
Proof. intros H. unfold plainIsPrimary. now rewrite H. Qed.

Lemma stopDragged_octaveShift f st : octaveShift (stopDragged f st) = octaveShift st.
Proof.
  unfold stopDragged. destruct (currentPlayingFrequency st); [|reflexivity].
  destruct (negb _ && negb _); [apply stopNote_octaveShift|reflexivity].
Qed.

Lemma stopDragged_majorOnTop f st : majorOnTop (stopDragged f st) = majorOnTop st.
Proof.
  unfold stopDragged. destruct (currentPlayingFrequency st); [|reflexivity].
  destruct (negb _ && negb _); [apply stopNote_majorOnTop|reflexivity].
Qed.

Lemma pianoPlay_voice f st :
  obj_get (f * 2 ^ octaveShift st) (activeOscillators (pianoPlay f st))
  = Some (plainVoice (f * 2 ^ octaveShift st) f (currentTime st) (plainIsPrimary f st)).
Proof. unfold pianoPlay. rewrite playNote_activeOscillators. apply registered_get. Qed.

Lemma pianoPress_voice f st :
  exists now,
    obj_get (f * 2 ^ octaveShift st) (activeOscillators (pianoPress f st))
    = Some (plainVoice (f * 2 ^ octaveShift st) f now (plainIsPrimary f st)).
Proof.
  unfold pianoPress.
  set (st1 := set_currentPlayingFrequency (Some f) (stopDragged f st)).
  assert (Hs : octaveShift st1 = octaveShift st) by apply stopDragged_octaveShift.
  assert (Hm : majorOnTop st1 = majorOnTop st) by apply stopDragged_majorOnTop.
  exists (currentTime st1).
  rewrite <- Hs, <- (plainIsPrimary_frame f st st1 Hm). apply pianoPlay_voice.
Qed.

Lemma assoc_in {B : Type} k (b : B) l : assoc k l = Some b -> In (k, b) l.
Proof.
  induction l as [|[k' b'] l IH]; simpl; [discriminate|].
  destruct (String.eqb k' k) eqn:E.
  - apply String.eqb_eq in E. intros [= ->]. left. now subst.
  - intros H. right. now apply IH.
Qed.

(** A key of [keyboardMap] is neither [z] nor [x], and its frequency is not
    zero. *)
Lemma keyFrequency_mapped key f :
  keyFrequency key = Some f ->
  String.eqb key "z" = false /\ String.eqb key "x" = false /\ Qeq_bool f 0 = false.
Proof.
  unfold keyFrequency. destruct (assoc key keyboardMap) as [o|] eqn:E; [|discriminate].
  intros ->. apply assoc_in in E. simpl in E.
  repeat (destruct E as [[= <- <-]|E]; [repeat split; reflexivity|]).
  destruct E.
Qed.

Lemma keyDown_voice key f st :
  keyFrequency (toLowerCase key) = Some f ->
  set_has (toLowerCase key) (activeKeys st) = false ->
  obj_get (f * 2 ^ octaveShift st) (activeOscillators (handle (KeyDown key false) st))
  = Some (plainVoice (f * 2 ^ octaveShift st) f (currentTime st) (plainIsPrimary f st)).
Proof.
  intros Hf Hfree. simpl. unfold onKeyDown.
  destruct (keyFrequency_mapped _ _ Hf) as (Hz & Hx & H0).
  rewrite Hz, Hx, Hf, H0, Hfree. simpl.
  rewrite playNote_activeOscillators. apply registered_get.
Qed.



(** ** The octave transposer and provenance *)

Lemma stopNote_heldNotes_incl f st h :
  In h (heldNotes (stopNote f st)) -> In h (heldNotes st).
Proof.
  destruct (stopNote_heldNotes f st) as [->|(n & ->)]; [trivial|].
  apply removeHeld_incl.
Qed.

Lemma stopAll_heldNotes_incl ks st h :
  In h (heldNotes (fold_left (fun s k => stopNote k s) ks st)) -> In h (heldNotes st).
Proof.
  revert st. induction ks as [|k ks IH]; simpl; intros st H; [assumption|].
  eapply stopNote_heldNotes_incl, IH, H.
Qed.

Lemma getNoteFromFrequency_zero f : f == 0 -> getNoteFromFrequency f = None.
Proof. intros H. now rewrite (getNoteFromFrequency_compat f 0 H). Qed.

(** Stopping a live voice whose base frequency is on a pitch takes that
    pitch class off the ledger. *)
Lemma stopNote_removes_pitch k v n st :
  ledger_unique st ->
  obj_get k (activeOscillators st) = Some v ->
  getNoteFromFrequency (baseFrequency v) = Some n ->
  ~ In n (map heldName (heldNotes (stopNote k st))).
Proof.
  intros Hl Hget Hn. unfold stopNote. rewrite Hget.
  destruct (Qeq_bool (baseFrequency v) 0) eqn:E.
  { apply Qeq_bool_iff, getNoteFromFrequency_zero in E. congruence. }
  rewrite Hn. simpl. rewrite (removeHeld_withoutNote n _ Hl). apply withoutNote_notin.
Qed.

Lemma stopAll_removes_pitch ks : forall st k v n,
  ledger_unique st ->
  In k ks ->
  obj_get k (activeOscillators st) = Some v ->
  getNoteFromFrequency (baseFrequency v) = Some n ->
  ~ In n (map heldName (heldNotes (fold_left (fun s k' => stopNote k' s) ks st))).
Proof.
  induction ks as [|k0 ks IH]; intros st k v n Hl Hin Hget Hn; [destruct Hin|].
  simpl. destruct (Qeq_bool k k0) eqn:E.
  - apply Qeq_bool_iff in E. rewrite (obj_get_compat _ _ _ E) in Hget.
    intros H. apply (stopNote_removes_pitch k0 v n st Hl Hget Hn).
    apply in_map_iff in H. destruct H as (h & Hh & H). apply in_map_iff.
    exists h. split; [exact Hh|]. eapply stopAll_heldNotes_incl, H.
  - destruct Hin as [->|Hin]; [rewrite Qeq_bool_refl in E; discriminate|].
    apply (IH (stopNote k0 st) k v n); auto.
    + now apply stopNote_ledger_unique.
    + rewrite stopNote_activeOscillators, obj_get_delete_other; [assumption|].
      now apply Qeq_bool_neq.
Qed.

Lemma existsb_isWheelNote_plain (P : string -> Prop) n st :
  all_plain P st -> P n -> existsb (isWheelNote n) (heldNotes st) = false.
Proof.
  intros [_ Hl] Hp. destruct (existsb _ _) eqn:E; [|reflexivity].
  apply existsb_exists in E. destruct E as (h & Hin & Hw).
  destruct h as [m|m t]; [discriminate|]. simpl in Hw. apply String.eqb_eq in Hw.
  subst m. specialize (Hl _ Hin Hp). discriminate.
Qed.

Lemma restartNote_all_plain (P : string -> Prop) note st :
  (forall n, getNoteFromFrequency (baseFreq note) = Some n -> P n) ->
  all_plain P st -> all_plain P (restartNote note st).
Proof.
  intros HP Hs. unfold restartNote.
  destruct (getNoteFromFrequency (baseFreq note)) as [n|] eqn:En; [|assumption].
  rewrite (existsb_isWheelNote_plain P n st Hs (HP n eq_refl)).
  destruct Hs as [Hv Hl]. split.
  - intros k v Hin. rewrite playNote_activeOscillators in Hin.
    apply registered_in in Hin. destruct Hin as [[= -> ->]|Hin]; [now split|].
    exact (Hv k v Hin).
  - intros h Hin Hp. rewrite playNote_heldNotes, En in Hin.
    apply in_app_or in Hin. destruct Hin as [Hin|[<-|[]]]; [|reflexivity].
    apply Hl; [|assumption].
    eapply stopNote_heldNotes_incl, removeHeld_incl, Hin.
Qed.

Lemma restartAll_all_plain (P : string -> Prop) notes : forall st,
  (forall note n, In note notes ->
                  getNoteFromFrequency (baseFreq note) = Some n -> P n) ->
  all_plain P st ->
  all_plain P (fold_left (fun s note => restartNote note s) notes st).
Proof.
  induction notes as [|note notes IH]; simpl; intros st HP Hs; [assumption|].
  apply IH.
  - intros note' n Hin. apply HP. now right.
  - apply restartNote_all_plain; [|assumption].
    intros n. apply HP. now left.
Qed.

(** Whatever was sounding, and from wherever, the voices [shiftActiveNotes]
    leaves behind are those of [playNote] with its default arguments: none
    has a chord type, all are primary. *)
Lemma shiftActiveNotes_restarts_plain old new st :
  ledger_unique st -> registry_wf st ->
  forall k v, In (k, v) (activeOscillators (shiftActiveNotes old new st)) ->
              chordType v = None /\ isPrimary v = true.
Proof.
  intros Hl Hw. unfold shiftActiveNotes. cbv zeta.
  set (notes := map _ (activeOscillators st)).
  set (P := fun n => exists note, In note notes /\
                                  getNoteFromFrequency (baseFreq note) = Some n).
  apply (restartAll_all_plain P notes).
  - intros note n Hin Hn. exists note. now split.
  - rewrite (fold_left_on_map stopNote actualFreq). subst notes.
    rewrite activeNotes_keys. split.
    + rewrite stopAll_empty. intros k v [].
    + intros h Hin (note & Hnote & Hn). exfalso.
      apply in_map_iff in Hnote. destruct Hnote as ([k v] & <- & Hkv).
      simpl in Hn.
      apply (stopAll_removes_pitch (obj_keys (activeOscillators st)) st k v
               (heldName h) Hl); try assumption.
      * unfold obj_keys. apply in_map_iff. exists (k, v). now split.
      * now apply obj_wf_in_get.
      * now apply in_map.
Qed.

(** In particular no octave shift of a reachable state keeps a chord type. *)
Lemma octave_shift_restarts_plain st e k v :
  reachable st ->
  e = OctaveDownClick \/ e = OctaveUpClick \/ e = OctaveDisplayClick ->
  In (k, v) (activeOscillators (handle e st)) ->
  (chordType v = None /\ isPrimary v = true) \/ handle e st = st.
Proof.
  intros Hreach He Hin. destruct (reachable_inv st Hreach) as (_ & _ & Hl & Hw).
  destruct He as [-> | [-> | ->]]; simpl in *.
  - destruct (MIN_OCTAVE_SHIFT <? octaveShift st)%Z; [left|now right].
    unfold octaveDown in Hin.
    eapply shiftActiveNotes_restarts_plain; [| |exact Hin]; assumption.
  - destruct (octaveShift st <? MAX_OCTAVE_SHIFT)%Z; [left|now right].
    unfold octaveUp in Hin.
    eapply shiftActiveNotes_restarts_plain; [| |exact Hin]; assumption.
  - left. unfold octaveReset in Hin.
    eapply shiftActiveNotes_restarts_plain; [| |exact Hin]; assumption.
Qed.

(** C2.  C sounds from the major ring of the wheel and the octave goes up
    (key [x]).  The voice is stopped at its old sounding frequency, 261.63 Hz,
    and re-triggered at 523.26 Hz, its base frequency times [2 ^ 1]; but the
    re-trigger goes through [playNote]: the new voice has no chord type and
    the ledger entry has lost its wheel provenance. *)
Theorem octave_shift_loses_wheel_provenance :
  let summary (st : state) :=
    map (fun kv => (fst kv, baseFrequency (snd kv), chordType (snd kv)))
        (activeOscillators st) in
  let after := handle (KeyDown "x" false) wheelCmajor in
  summary wheelCmajor = [(261.63, 261.63, Some major)] /\
  heldNotes wheelCmajor = [Wheel "C" major] /\
  octaveShift after = 1%Z /\
  (exists g, audioLog after
             = audioLog wheelCmajor
               ++ [FadeOutAndRelease 261.63 g; OscillatorStart 523.26]) /\
  summary after = [(523.26, 261.63, None)] /\
  heldNotes after = [Plain "C"] /\
  lastPlayedNote after = Some (Plain "C").
Proof.
  cbv zeta. repeat split; try reflexivity.
  eexists. reflexivity.
Qed.

(** ** The gain of the live voices *)

Lemma fresh_or_kept_refl st : fresh_or_kept st st.
Proof. split; [reflexivity|]. intros k v H. now right. Qed.

Lemma fresh_or_kept_trans st1 st2 st3 :
  fresh_or_kept st1 st2 -> fresh_or_kept st2 st3 -> fresh_or_kept st1 st3.
Proof.
  intros [T1 H1] [T2 H2]. split; [congruence|].
  intros k v Hin. destruct (H2 k v Hin) as [E|Hin2].
  - left. now rewrite <- T1.
  - now apply H1.
Qed.

Lemma fresh_or_kept_frame st st' :
  activeOscillators st' = activeOscillators st ->
  currentTime st' = currentTime st ->
  fresh_or_kept st st'.
Proof. intros Ho Ht. split; [exact Ht|]. intros k v H. right. now rewrite <- Ho. Qed.

Lemma stopNote_fresh_or_kept f st : fresh_or_kept st (stopNote f st).
Proof.
  split; [apply stopNote_currentTime|].
  intros k v H. right. rewrite stopNote_activeOscillators in H.
  eapply obj_delete_in; eauto.
Qed.

Lemma playNote_fresh_or_kept f a p st : fresh_or_kept st (playNote f a p st).
Proof.
  split; [apply playNote_currentTime|].
  intros k v H. rewrite playNote_activeOscillators in H.
  apply registered_in in H. destruct H as [[= -> ->]|H]; [now left|now right].
Qed.

Lemma playNoteFromWheel_fresh_or_kept f n t st :
  fresh_or_kept st (playNoteFromWheel f n t st).
Proof.
  split; [apply playNoteFromWheel_currentTime|].
  intros k v H. rewrite playNoteFromWheel_activeOscillators in H.
  apply registered_in in H. destruct H as [[= -> ->]|H]; [now left|now right].
Qed.

Lemma fold_fresh_or_kept {X : Type} (F : state -> X -> state) (l : list X) :
  (forall s x, fresh_or_kept s (F s x)) ->
  forall st, fresh_or_kept st (fold_left F l st).
Proof.
  intros HF. induction l as [|x l IH]; simpl; intros st.
  - apply fresh_or_kept_refl.
  - eapply fresh_or_kept_trans; [apply HF|apply IH].
Qed.

Lemma restartNote_fresh_or_kept note st : fresh_or_kept st (restartNote note st).
Proof.
  unfold restartNote.
  destruct (getNoteFromFrequency (baseFreq note)) as [n|]; [|apply fresh_or_kept_refl].
  destruct (existsb (isWheelNote n) (heldNotes st)).
  - destruct (find (isWheelNote n) (heldNotes st)) as [[?|? t]|];
      try apply fresh_or_kept_refl.
    apply playNoteFromWheel_fresh_or_kept.
  - apply playNote_fresh_or_kept.
Qed.

Lemma shiftActiveNotes_fresh_or_kept old new st :
  fresh_or_kept st (shiftActiveNotes old new st).
Proof.
  unfold shiftActiveNotes. cbv zeta. set (notes := map _ (activeOscillators st)).
  apply (fresh_or_kept_trans _
           (fold_left (fun s note => stopNote (actualFreq note) s) notes st)).
  - apply (fold_fresh_or_kept (fun s note => stopNote (actualFreq note) s)).
    intros s x. apply stopNote_fresh_or_kept.
  - apply (fold_fresh_or_kept (fun s note => restartNote note s)).
    intros s x. apply restartNote_fresh_or_kept.
Qed.

Lemma stopDragged_fresh_or_kept f st : fresh_or_kept st (stopDragged f st).
Proof.
  unfold stopDragged. destruct (currentPlayingFrequency st); [|apply fresh_or_kept_refl].
  destruct (negb _ && negb _); [apply stopNote_fresh_or_kept|apply fresh_or_kept_refl].
Qed.

Ltac kept_step lemma :=
  eapply fresh_or_kept_trans; [|apply lemma]; try (apply fresh_or_kept_frame; reflexivity).

Lemma wheelPress_fresh_or_kept el st : fresh_or_kept st (wheelPress el st).
Proof.
  unfold wheelPress, wheelPlay. destruct el as [[f n] t]. simpl.
  kept_step playNoteFromWheel_fresh_or_kept.
  eapply fresh_or_kept_trans; [apply (stopDragged_fresh_or_kept f)|].
  apply fresh_or_kept_frame; reflexivity.
Qed.

Lemma pianoPress_fresh_or_kept f st : fresh_or_kept st (pianoPress f st).
Proof.
  unfold pianoPress, pianoPlay.
  kept_step playNote_fresh_or_kept.
  eapply fresh_or_kept_trans; [apply (stopDragged_fresh_or_kept f)|].
  apply fresh_or_kept_frame; reflexivity.
Qed.

Lemma onKeyDown_fresh_or_kept key ignored st :
  fresh_or_kept st (onKeyDown key ignored st).
Proof.
  unfold onKeyDown. destruct ignored; [apply fresh_or_kept_refl|].
  destruct (String.eqb (toLowerCase key) "z" && _).
  { unfold octaveDown. kept_step shiftActiveNotes_fresh_or_kept. }
  destruct (String.eqb (toLowerCase key) "x" && _).
  { unfold octaveUp. kept_step shiftActiveNotes_fresh_or_kept. }
  destruct (keyFrequency (toLowerCase key)); [|apply fresh_or_kept_refl].
  destruct (negb _ && negb _); [|apply fresh_or_kept_refl].
  kept_step playNote_fresh_or_kept.
Qed.

(** No handler rebalances a gain. *)
Lemma handle_fresh_or_kept e st : fresh_or_kept st (handle e st).
Proof.
  destruct e; simpl.
  - kept_step wheelPress_fresh_or_kept.
  - destruct (isMouseDown st); [apply wheelPress_fresh_or_kept|apply fresh_or_kept_refl].
  - destruct el as [[f n] t]. apply playNoteFromWheel_fresh_or_kept.
  - apply stopNote_fresh_or_kept.
  - unfold onMouseUp. simpl.
    destruct (currentPlayingFrequency st) as [cpf|];
      [|apply fresh_or_kept_frame; reflexivity].
    destruct (negb _); [|apply fresh_or_kept_frame; reflexivity].
    eapply fresh_or_kept_trans; [|apply fresh_or_kept_frame; reflexivity].
    kept_step stopNote_fresh_or_kept.
  - apply onKeyDown_fresh_or_kept.
  - unfold onKeyUp. destruct (keyFrequency (toLowerCase key)); [|apply fresh_or_kept_refl].
    destruct (negb _ && set_has _ _); [|apply fresh_or_kept_refl].
    kept_step stopNote_fresh_or_kept.
  - unfold onBlur.
    eapply fresh_or_kept_trans;
      [|apply (fold_fresh_or_kept (fun s freq => stopNote freq s)); intros s x;
        apply stopNote_fresh_or_kept].
    apply fresh_or_kept_frame; reflexivity.
  - kept_step pianoPress_fresh_or_kept.
  - destruct (isMouseDown st); [apply pianoPress_fresh_or_kept|apply fresh_or_kept_refl].
  - apply playNote_fresh_or_kept.
  - apply stopNote_fresh_or_kept.
  - apply fresh_or_kept_frame; reflexivity.
  - apply fresh_or_kept_frame; reflexivity.
  - destruct (MIN_OCTAVE_SHIFT <? octaveShift st)%Z; [|apply fresh_or_kept_refl].
    unfold octaveDown. kept_step shiftActiveNotes_fresh_or_kept.
  - unfold octaveReset. kept_step shiftActiveNotes_fresh_or_kept.
  - destruct (octaveShift st <? MAX_OCTAVE_SHIFT)%Z; [|apply fresh_or_kept_refl].
    unfold octaveUp. kept_step shiftActiveNotes_fresh_or_kept.
Qed.

Lemma adjustActiveVolumes_in (Math_sqrt : Q -> Q) st k v :
  In (k, v) (activeOscillators st) ->
  In (k, with_gainNode
           (rampToTarget (calculateVolume Math_sqrt st) (currentTime st) (gainNode v)) v)
     (activeOscillators (adjustActiveVolumes Math_sqrt st)).
Proof.
  intros H. unfold adjustActiveVolumes. simpl.
  apply in_map_iff. exists (k, v). split; [reflexivity|exact H].
Qed.

Lemma rampToTarget_live target now g :
  0.01 < gain_value g ->
  rampToTarget target now g
  = mkParam (gain_value g)
      (filter (fun e => Qlt_bool (automation_time e) now) (gain_events g)
       ++ [SetValue (gain_value g) now; LinearRamp target (now + 0.05)]).
Proof.
  intros H. unfold rampToTarget. apply Qlt_bool_iff in H. rewrite H.
  unfold linearRampToValueAtTime, setValueAtTime, cancelScheduledValues. simpl.
  now rewrite <- app_assoc.
Qed.

Lemma rampToTarget_silent target now g :
  gain_value g <= 0.01 -> rampToTarget target now g = g.
Proof.
  intros H. unfold rampToTarget.
  destruct (Qlt_bool 0.01 (gain_value g)) eqn:E; [|reflexivity].
  apply Qlt_bool_iff in E. exfalso. apply (Qlt_not_le _ _ E H).
Qed.

(** C1, the claim as the specification has it, fails: C sounds at its full
    level and E is played; afterwards no ramp that ends 50 ms from now is
    scheduled on the gain of C. *)
Lemma noteOn_does_not_rebalance : ~ rebalanced secondKey.
Proof.
  intros H.
  destruct (H 261.63
              (mkVoice 261.63 (mkParam 0.15 [SetValue 0 0; LinearRamp 0.15 0.007])
                       261.63 false None)) as (target & Hin).
  - left. reflexivity.
  - reflexivity.
  - vm_compute in Hin. destruct Hin as [Hin|[Hin|[]]]; discriminate Hin.
Qed.

(** C1, as amended.  No event handler rebalances the gains: after any event,
    a note-on or note-off included, every live voice is either a voice of the
    state before, unchanged with its gain automation, or a voice created by
    the handler, whose gain ramps from 0 to the fixed level [OSC_GAIN].  The
    routine [adjustActiveVolumes] does the rebalancing when it is run: it
    keeps the keys of the registry and, with the target of [calculateVolume],
    cancels what is scheduled from now on and ramps to the target within
    50 ms the gain of every live voice that reads above 0.01; a gain that
    reads 0.01 or less is left as it is. *)
Theorem gain_rebalance_only_in_adjustActiveVolumes (Math_sqrt : Q -> Q)
  (st : state) :
  (forall e k v,
      In (k, v) (activeOscillators (handle e st)) ->
      gainNode v = attackGain (currentTime st) \/ In (k, v) (activeOscillators st)) /\
  gain_events (attackGain (currentTime st))
  = [SetValue 0 (currentTime st); LinearRamp OSC_GAIN (currentTime st + 0.007)] /\
  let target := calculateVolume Math_sqrt st in
  let now := currentTime st in
  obj_keys (activeOscillators (adjustActiveVolumes Math_sqrt st))
  = obj_keys (activeOscillators st) /\
  (forall k v,
      In (k, v) (activeOscillators st) ->
      In (k, with_gainNode (rampToTarget target now (gainNode v)) v)
         (activeOscillators (adjustActiveVolumes Math_sqrt st))) /\
  (forall g,
      0.01 < gain_value g ->
      rampToTarget target now g
      = mkParam (gain_value g)
          (filter (fun e => Qlt_bool (automation_time e) now) (gain_events g)
           ++ [SetValue (gain_value g) now; LinearRamp target (now + 0.05)])) /\
  (forall g, gain_value g <= 0.01 -> rampToTarget target now g = g).
Proof.
  split; [|split; [reflexivity|]].
  - intros e k v. apply (handle_fresh_or_kept e st).
  - cbv zeta. split; [|split; [|split]].
    + unfold adjustActiveVolumes, obj_keys. simpl. rewrite map_map. reflexivity.
    + intros k v. apply adjustActiveVolumes_in.
    + intros g. apply rampToTarget_live.
    + intros g. apply rampToTarget_silent.
Qed.

Lemma gain_rebalance_only_in_adjustActiveVolumes_witness :
  0.01 < 0.15 /\
  gain_events
    (rampToTarget (calculateVolume (fun _ => 1) soundingC) (currentTime soundingC)
       (mkParam 0.15 [SetValue 0 0; LinearRamp 0.15 0.007]))
  = [SetValue 0 0; LinearRamp 0.15 0.007; SetValue 0.15 1; LinearRamp 0.7 (1 + 0.05)].
Proof.
  assert (L : 0.01 < 0.15) by reflexivity.
  split; [exact L|].
  destruct (gain_rebalance_only_in_adjustActiveVolumes (fun _ => 1) soundingC)
    as (_ & _ & _ & _ & H & _).
  rewrite (H (mkParam 0.15 [SetValue 0 0; LinearRamp 0.15 0.007]) L). reflexivity.
Defined.

(** * Further properties of the code *)

(** ** Semitone arithmetic *)

Lemma rem_wrap x : Z.rem (Z.rem x 12 + 12) 12 = (x mod 12)%Z.
Proof. Z.to_euclidean_division_equations. lia. Qed.

Lemma shift_index name s :
  shiftNoteBySemitones name s
  = nth_error noteOrder (Z.to_nat ((indexOf name noteOrder + s) mod 12)).
Proof. unfold shiftNoteBySemitones. cbv zeta. now rewrite rem_wrap. Qed.

Lemma noteOrder_nth j :
  (0 <= j < 12)%Z ->
  exists n, nth_error noteOrder (Z.to_nat j) = Some n /\
            In n noteOrder /\ indexOf n noteOrder = j.
Proof.
  intros Hj.
  assert (H : (j = 0 \/ j = 1 \/ j = 2 \/ j = 3 \/ j = 4 \/ j = 5 \/ j = 6 \/
               j = 7 \/ j = 8 \/ j = 9 \/ j = 10 \/ j = 11)%Z) by lia.
  repeat (destruct H as [->|H]; [eexists; split; [reflexivity|]; split;
                                 [simpl; auto 20|reflexivity]|]).
  subst j. eexists. split; [reflexivity|]. split; [simpl; auto 20|reflexivity].
Qed.

Lemma indexOf_noteOrder n :
  In n noteOrder -> (0 <= indexOf n noteOrder < 12)%Z /\
                    nth_error noteOrder (Z.to_nat (indexOf n noteOrder)) = Some n.
Proof.
  intros H. simpl in H.
  repeat (destruct H as [<-|H]; [split; [vm_compute; split; congruence|reflexivity]|]).
  destruct H.
Qed.



(** ** Frequencies and note names *)

Lemma firstNoteNear_some f l n :
  firstNoteNear f l = Some n ->
  exists nf, In (n, nf) l /\ Qabs (nf - f) < 0.01.
Proof.
  induction l as [|[n' nf] l IH]; cbn [firstNoteNear In]; [discriminate|].
  destruct (Qlt_bool (Qabs (nf - f)) 0.01) eqn:E.
  - intros [= ->]. exists nf. split; [now left|now apply Qlt_bool_iff].
  - intros H. destruct (IH H) as (x & Hin & Hx). exists x. split; [now right|assumption].
Qed.

Ltac near_step f :=
  match goal with
  | |- context [Qlt_bool (Qabs (?a - f)) 0.01] =>
      let E := fresh "E" in
      destruct (Qlt_bool (Qabs (a - f)) 0.01) eqn:E;
      [ first [ reflexivity
              | exfalso; apply Qlt_bool_iff, Qabs_Qlt_condition in E; lra ]
      | ]
  end.

Lemma nearest_note f n nf :
  In (n, nf) NOTE_FREQUENCIES -> Qabs (nf - f) < 0.01 ->
  getNoteFromFrequency f = Some n.
Proof.
  intros Hin Hnear. pose proof Hnear as Hb. apply Qlt_bool_iff in Hb.
  apply Qabs_Qlt_condition in Hnear.
  unfold getNoteFromFrequency, NOTE_FREQUENCIES in *. cbn [firstNoteNear].
  cbn [In] in Hin.
  repeat (destruct Hin as [[= <- <-]|Hin];
          [repeat near_step f; congruence|]).
  destruct Hin.
Qed.



(** X3.  A canonical frequency moved by one to three octaves, up or down, is
    no longer recognised as a note: only the base frequency of a voice names
    its pitch class, its sounding frequency does so at octave shift 0 only. *)
Theorem shifted_frequency_names_no_note (n : string) (f : Q) (s : Z) :
  In (n, f) NOTE_FREQUENCIES ->
  (MIN_OCTAVE_SHIFT <= s <= MAX_OCTAVE_SHIFT)%Z ->
  s <> 0%Z ->
  getNoteFromFrequency (f * Math_pow2 s) = None /\
  getNoteFromFrequency (f * Math_pow2 0) = Some n.
Proof.
  intros Hin Hs Hnz. unfold MIN_OCTAVE_SHIFT, MAX_OCTAVE_SHIFT in Hs.
  assert (H : (s = -3 \/ s = -2 \/ s = -1 \/ s = 1 \/ s = 2 \/ s = 3)%Z) by lia.
  cbn [In NOTE_FREQUENCIES] in Hin.
  repeat (destruct Hin as [[= <- <-]|Hin];
          [repeat (destruct H as [->|H]; [split; reflexivity|]);
           subst s; split; reflexivity|]).
  destruct Hin.
Qed.

Lemma shifted_frequency_names_no_note_witness :
  In ("G"%string, 392.00) NOTE_FREQUENCIES /\
  getNoteFromFrequency (392.00 * Math_pow2 (-2)) = None.
Proof.
  assert (H : In ("G"%string, 392.00) NOTE_FREQUENCIES) by (simpl; auto 20).
  split; [exact H|].
  apply (shifted_frequency_names_no_note "G" 392.00 (-2) H); [|discriminate].
  split; discriminate.
Defined.

(** ** The wheel and the piano keyboard *)

Ltac in_list := simpl; repeat (first [left; reflexivity | right]).

Lemma code_eqb_eq a b : code_eqb a b = true <-> a = b.
Proof.
  destruct a as [x|], b as [y|]; simpl; try (split; [discriminate|congruence]).
  - rewrite String.eqb_eq. split; congruence.
  - split; reflexivity.
Qed.

Lemma distinctb_NoDup l : distinctb l = true -> NoDup l.
Proof.
  induction l as [|a l IH]; simpl; [constructor|].
  intros H. apply andb_true_iff in H. destruct H as [Ha Hl].
  constructor; [|now apply IH].
  intros Hin. apply negb_true_iff in Ha.
  assert (E : existsb (code_eqb a) l = true).
  { apply existsb_exists. exists a. split; [assumption|now apply code_eqb_eq]. }
  congruence.
Qed.

(** X4.  [createWheel] gives every pitch class one path on the minor ring and
    one on the major ring, twenty-four paths in all.  The frequency a path
    plays is the canonical frequency of the note it is labelled with, one of
    the piano's, and [getNoteFromFrequency] maps it back to that note.  Each
    segment pairs a minor path with the major path of the note three
    semitones up. *)
Theorem wheel_has_every_key_once (n : string) (t : chord) :
  length wheelElements = 24%nat /\
  (In n noteOrder ->
   length (filter (fun el => String.eqb (snd (fst el)) n && chord_eqb (snd el) t)
                  wheelElements) = 1%nat) /\
  (forall f, In (f, n, t) wheelElements ->
             noteFrequency (Some n) = Some f /\
             getNoteFromFrequency f = Some n /\
             In f pianoKeys) /\
  Forall (fun seg =>
            snd (fst seg) = minor /\ snd (snd seg) = major /\
            isMajorCounterpart (snd (fst (fst seg))) (snd (fst (snd seg))) = true)
         (segmentsOf wheelElements).
Proof.
  split; [reflexivity|]. split; [|split].
  - intros Hin. simpl in Hin.
    repeat (destruct Hin as [<-|Hin]; [destruct t; reflexivity|]). destruct Hin.
  - intros f Hin. vm_compute in Hin.
    repeat (destruct Hin as [[= <- <- <-]|Hin];
            [split; [reflexivity|]; split; [reflexivity|]; in_list|]).
    destruct Hin.
  - repeat constructor.
Qed.

Lemma wheel_has_every_key_once_witness :
  In "F#"%string noteOrder /\
  In (369.99, "F#"%string, major) wheelElements /\
  getNoteFromFrequency 369.99 = Some "F#"%string.
Proof.
  assert (H : In (369.99, "F#"%string, major) wheelElements) by in_list.
  split; [in_list|]. split; [exact H|].
  destruct (wheel_has_every_key_once "F#" major) as (_ & _ & Hf & _).
  apply (Hf 369.99 H).
Defined.

(** X5.  With either notation (Camelot, or Open Key for any other value of
    [notationType]) the twenty-four labels of the wheel carry twenty-four
    different codes; the two labels of a segment share their number; and the
    number goes up by one from each segment to the next, 12 being followed
    by 1. *)
Theorem wheel_codes_consistent (notationType : string) :
  let code := wheelCode notationType in
  NoDup (map code wheelElements) /\
  ~ In None (map code wheelElements) /\
  Forall (fun seg => codeNumber (code (fst seg)) = codeNumber (code (snd seg)) /\
                     (1 <= codeNumber (code (fst seg)) <= 12)%nat)
         (segmentsOf wheelElements) /\
  clockwise (map (fun seg => codeNumber (code (fst seg))) (segmentsOf wheelElements)).
Proof.
  cbv zeta. unfold wheelCode, wheelLabelLines, keyNotationOf.
  destruct (String.eqb notationType "camelot").
  - split; [apply distinctb_NoDup; vm_compute; reflexivity|].
    split; [vm_compute; intuition discriminate|].
    split; [repeat constructor|]. vm_compute. intuition reflexivity.
  - split; [apply distinctb_NoDup; vm_compute; reflexivity|].
    split; [vm_compute; intuition discriminate|].
    split; [repeat constructor|]. vm_compute. intuition reflexivity.
Qed.

Lemma partition_by_filter {A : Type} (p : A -> bool) (l : list A) :
  Permutation (filter (fun x => negb (p x)) l ++ filter p l) l.
Proof.
  induction l as [|x l IH]; simpl; [constructor|].
  destruct (p x); simpl.
  - symmetry. apply Permutation_cons_app. now symmetry.
  - now constructor.
Qed.

(** X6.  The key hints of the piano invert [keyboardMap]: a keyboard key that
    plays a frequency is, in upper case, the hint on the piano key of that
    frequency, and lowering the hint gives a key that plays it.  Every piano
    key has a hint.  The keyboard is made of the seven white keys followed by
    the five black ones, which together are the twelve pitch classes, each
    once. *)
Theorem key_hints_invert_keyboardMap (key : string) (f : Q) :
  (keyFrequency key = Some f ->
   keyHint f = Some (toUpperCase key) /\
   keyFrequency (toLowerCase (toUpperCase key)) = Some f) /\
  (forall name black,
      In (name, f, black) pianoKeyboard ->
      exists hint, keyHint f = Some hint /\ keyFrequency (toLowerCase hint) = Some f) /\
  length whiteKeys = 7%nat /\
  length blackKeys = 5%nat /\
  Permutation pianoKeyboard pianoNotes /\
  map (fun note => fst (fst note)) pianoNotes = noteOrder.
Proof.
  split; [|split; [|split; [|split; [|split]]]]; try reflexivity.
  - unfold keyFrequency.
    destruct (assoc key keyboardMap) as [o|] eqn:E; [|discriminate].
    intros ->. apply assoc_in in E. simpl in E.
    repeat (destruct E as [[= <- <-]|E]; [split; reflexivity|]). destruct E.
  - intros name black Hin. vm_compute in Hin.
    repeat (destruct Hin as [[= <- <- <-]|Hin];
            [eexists; split; reflexivity|]).
    destruct Hin.
  - apply partition_by_filter.
Qed.

Lemma key_hints_invert_keyboardMap_witness :
  keyFrequency "t" = Some 369.99 /\ keyHint 369.99 = Some "T"%string.
Proof.
  assert (H : keyFrequency "t" = Some 369.99) by reflexivity.
  split; [exact H|].
  destruct (key_hints_invert_keyboardMap "t" 369.99) as [Hk _].
  apply (Hk H).
Defined.

(** X7.  [formatNoteName] leaves every name alone when flats are off.  With
    flats on, a pitch class is shown without a sharp sign, it is renamed
    exactly when it is a black key, and two pitch classes never get the same
    name. *)
Theorem formatNoteName_flats (n m : string) :
  formatNoteName false n = n /\
  (In n noteOrder ->
   includesSharp (formatNoteName true n) = false /\
   (formatNoteName true n = n <-> includesSharp n = false) /\
   (In m noteOrder -> formatNoteName true n = formatNoteName true m -> n = m)).
Proof.
  split; [reflexivity|]. intros Hn. simpl in Hn.
  repeat (destruct Hn as [<-|Hn];
          [split; [reflexivity|]; split;
           [split; intros H; first [reflexivity|discriminate H]|];
           intros Hm; simpl in Hm;
           repeat (destruct Hm as [<-|Hm];
                   [intros H; first [reflexivity|discriminate H]|]);
           destruct Hm|]).
  destruct Hn.
Qed.

Lemma formatNoteName_flats_witness :
  In "A#"%string noteOrder /\
  formatNoteName true "A#" = "Bb"%string /\
  includesSharp (formatNoteName true "A#") = false.
Proof.
  assert (H : In "A#"%string noteOrder) by in_list.
  split; [exact H|]. split; [reflexivity|].
  destruct (formatNoteName_flats "A#" "A#") as [_ Hf].
  destruct (Hf H) as (Hs & _). exact Hs.
Defined.

(** ** The ledger follows the voices *)

Lemma pianoKeys_note f :
  In f pianoKeys ->
  exists n, getNoteFromFrequency f = Some n /\
            noteFrequency (Some n) = Some f /\
            In n noteOrder /\ Qeq_bool f 0 = false.
Proof.
  intros H. vm_compute in H.
  repeat (destruct H as [<-|H];
          [eexists; split; [reflexivity|]; split; [reflexivity|];
           split; [in_list|reflexivity]|]).
  destruct H.
Qed.

Lemma pianoKeys_same_note f g :
  In f pianoKeys -> In g pianoKeys ->
  getNoteFromFrequency f = getNoteFromFrequency g -> f = g.
Proof.
  intros Hf Hg E.
  destruct (pianoKeys_note f Hf) as (n & Hn & Hnf & _).
  destruct (pianoKeys_note g Hg) as (m & Hm & Hmg & _).
  rewrite Hn, Hm in E. injection E as <-. congruence.
Qed.

Lemma pianoKeys_Qeq f g : In f pianoKeys -> In g pianoKeys -> f == g -> f = g.
Proof.
  intros Hf Hg E. apply pianoKeys_same_note; try assumption.
  now apply getNoteFromFrequency_compat.
Qed.

Lemma wheelElements_consistent f n t :
  In (f, n, t) wheelElements -> getNoteFromFrequency f = Some n /\ In f pianoKeys.
Proof.
  intros Hin. vm_compute in Hin.
  repeat (destruct Hin as [[= <- <- <-]|Hin]; [split; [reflexivity|in_list]|]).
  destruct Hin.
Qed.

Lemma keyFrequency_pianoKeys key f : keyFrequency key = Some f -> In f pianoKeys.
Proof.
  unfold keyFrequency. destruct (assoc key keyboardMap) as [o|] eqn:E; [|discriminate].
  intros ->. apply assoc_in in E. simpl in E.
  repeat (destruct E as [[= <- <-]|E]; [in_list|]). destruct E.
Qed.

Lemma heldOfVoice_name v h :
  heldOfVoice v = Some h -> getNoteFromFrequency (baseFrequency v) = Some (heldName h).
Proof.
  unfold heldOfVoice. destruct (getNoteFromFrequency (baseFrequency v)); [|discriminate].
  intros [= <-]. destruct (chordType v); reflexivity.
Qed.

Lemma removeHeld_split h l :
  In h l -> NoDup (map heldName l) ->
  exists l1 l2, l = l1 ++ h :: l2 /\ removeHeld (heldName h) l = l1 ++ l2.
Proof.
  induction l as [|x l IH]; simpl; [intros []|].
  intros Hin Hnd. inversion Hnd as [|? ? Hx Hl]; subst.
  destruct (String.eqb (heldName x) (heldName h)) eqn:E.
  - apply String.eqb_eq in E. destruct Hin as [->|Hin].
    + exists [], l. now split.
    + exfalso. apply Hx. rewrite E. now apply in_map.
  - destruct Hin as [->|Hin]; [rewrite String.eqb_refl in E; discriminate|].
    destruct (IH Hin Hl) as (l1 & l2 & -> & ->).
    exists (x :: l1), l2. now split.
Qed.

Lemma obj_delete_split {A : Type} k (v : A) (o : jsobj A) :
  obj_wf o -> obj_get k o = Some v ->
  exists k' o1 o2, o = o1 ++ (k', v) :: o2 /\ obj_delete k o = o1 ++ o2 /\ k' == k.
Proof.
  induction o as [|kv o IH]; simpl; [discriminate|].
  intros [Hn Hw]. destruct (is_key k kv) eqn:E; simpl.
  - intros [= <-]. exists (fst kv), [], o. split; [now destruct kv|].
    unfold is_key in E. apply Qeq_bool_iff in E. split; [|exact E].
    simpl. apply obj_delete_absent. now rewrite <- (obj_get_compat _ _ o E).
  - intros H. destruct (IH Hw H) as (k' & o1 & o2 & -> & Hd & Hk).
    exists k', (kv :: o1), o2. split; [reflexivity|]. split; [|exact Hk].
    simpl. now f_equal.
Qed.

(** Stopping a voice takes its own entry, and only that, off the ledger. *)
Lemma stopNote_sounding f st : sounding_inv st -> sounding_inv (stopNote f st).
Proof.
  intros (Hw & Hl & Hb & Hs).
  destruct (obj_get f (activeOscillators st)) as [v0|] eqn:Eget;
    [|now rewrite stopNote_absent].
  destruct (obj_delete_split f v0 _ Hw Eget) as (k' & o1 & o2 & Ho & Hd & Hk').
  assert (Hin0 : In (k', v0) (activeOscillators st))
    by (rewrite Ho; apply in_or_app; right; now left).
  destruct (pianoKeys_note _ (Hb _ _ Hin0)) as (n0 & Hn0 & _ & _ & Hnz).
  assert (Hheld : heldNotes (stopNote f st) = removeHeld n0 (heldNotes st)).
  { unfold stopNote. rewrite Eget, Hnz, Hn0. reflexivity. }
  split; [now apply stopNote_registry_wf|]. split; [now apply stopNote_ledger_unique|].
  split.
  - intros k v Hin. rewrite stopNote_activeOscillators in Hin.
    apply (Hb k v). eapply obj_delete_in; eauto.
  - unfold ledger_in_sync in *. rewrite stopNote_activeOscillators, Hheld, Hd.
    destruct (heldOfVoice v0) as [h0|] eqn:Eh;
      [|unfold heldOfVoice in Eh; rewrite Hn0 in Eh; discriminate].
    pose proof (heldOfVoice_name v0 h0 Eh) as Hname. rewrite Hn0 in Hname.
    injection Hname as ->.
    assert (Hh0 : In h0 (heldNotes st)).
    { assert (Hx : In (Some h0) (map Some (heldNotes st))).
      { eapply Permutation_in; [symmetry; exact Hs|].
        apply in_map_iff. exists (k', v0). now split. }
      apply in_map_iff in Hx. destruct Hx as (h & [= ->] & Hx). exact Hx. }
    destruct (removeHeld_split h0 _ Hh0 Hl) as (l1 & l2 & El & ->).
    rewrite El, Ho in Hs. rewrite !map_app in *. simpl in Hs. rewrite Eh in Hs.
    eapply Permutation_app_inv. exact Hs.
Qed.

Lemma stopAll_sounding ks st :
  sounding_inv st -> sounding_inv (fold_left (fun s k => stopNote k s) ks st).
Proof.
  revert st. induction ks as [|k ks IH]; simpl; intros st H; [assumption|].
  apply IH. now apply stopNote_sounding.
Qed.

(** After the guarded stop of a note-on, no entry of the pitch class is left
    on the ledger. *)
Lemma pitch_free_after_stop f n st :
  keys_follow_shift st -> sounding_inv st ->
  In f pianoKeys -> getNoteFromFrequency f = Some n ->
  ~ In n (map heldName (heldNotes (stopNote (f * Math_pow2 (octaveShift st)) st))).
Proof.
  intros Hk Hs Hf Hn Hin.
  set (k := f * Math_pow2 (octaveShift st)) in *.
  pose proof (stopNote_sounding k st Hs) as (_ & _ & Hb1 & Hs1).
  pose proof (stopNote_keys_follow_shift k st Hk) as Hk1.
  apply in_map_iff in Hin. destruct Hin as (h & Hh & Hin).
  assert (Hx : In (Some h)
                  (map (fun kv => heldOfVoice (snd kv))
                       (activeOscillators (stopNote k st)))).
  { eapply Permutation_in; [exact Hs1|]. now apply in_map. }
  apply in_map_iff in Hx. destruct Hx as ([k' v'] & Hv & Hin'). simpl in Hv.
  apply heldOfVoice_name in Hv. rewrite Hh in Hv.
  assert (Hbase : baseFrequency v' = f).
  { apply pianoKeys_same_note; [eapply Hb1; eauto|assumption|congruence]. }
  destruct (Hk1 k' v' Hin') as [Hkey _].
  rewrite stopNote_octaveShift, Hbase in Hkey.
  rewrite stopNote_activeOscillators in Hin'.
  pose proof (obj_get_delete_same k (activeOscillators st)) as Habs.
  rewrite obj_get_none in Habs. specialize (Habs _ Hin').
  unfold is_key in Habs. simpl in Habs. apply Qeq_bool_neq in Habs. now apply Habs.
Qed.

Lemma registered_sync k v h (o : jsobj voice) l :
  obj_get k o = None ->
  heldOfVoice v = Some h ->
  Permutation (map Some l) (map (fun kv => heldOfVoice (snd kv)) o) ->
  Permutation (map Some (l ++ [h]))
              (map (fun kv => heldOfVoice (snd kv)) (obj_set k v o)).
Proof.
  intros Habs Hh Hs.
  rewrite (Permutation_map _ (obj_set_perm k v o Habs)). simpl. rewrite Hh.
  rewrite map_app. simpl. rewrite <- Permutation_cons_append. now constructor.
Qed.

Lemma playNote_sounding f p st :
  keys_follow_shift st -> sounding_inv st -> In f pianoKeys ->
  sounding_inv (playNote f true p st).
Proof.
  intros Hk Hs Hf. destruct (pianoKeys_note f Hf) as (n & Hn & _).
  pose proof (pitch_free_after_stop f n st Hk Hs Hf Hn) as Hfree.
  pose proof (stopNote_sounding (f * Math_pow2 (octaveShift st)) st Hs)
    as (Hw1 & Hl1 & Hb1 & Hs1).
  unfold sounding_inv, registry_wf, ledger_unique, bases_canonical, ledger_in_sync.
  rewrite playNote_activeOscillators, playNote_heldNotes, Hn. unfold actualOf.
  rewrite (removeHeld_absent n _ Hfree).
  unfold registry_wf, bases_canonical, ledger_in_sync in Hw1, Hb1, Hs1.
  rewrite stopNote_activeOscillators in Hw1, Hb1, Hs1.
  split; [apply obj_wf_set; [apply obj_get_delete_same|exact Hw1]|]. split; [|split].
  - rewrite <- (removeHeld_absent n _ Hfree). apply (engage_NoDup (Plain n)). exact Hl1.
  - intros k v Hin. apply obj_set_in in Hin; [|apply obj_get_delete_same].
    destruct Hin as [[= -> ->]|Hin]; [exact Hf|]. eapply Hb1; eauto.
  - apply registered_sync; [apply obj_get_delete_same| |exact Hs1].
    unfold heldOfVoice. simpl. now rewrite Hn.
Qed.

Lemma playNoteFromWheel_sounding f n t st :
  keys_follow_shift st -> sounding_inv st ->
  In f pianoKeys -> getNoteFromFrequency f = Some n ->
  sounding_inv (playNoteFromWheel f n t st).
Proof.
  intros Hk Hs Hf Hn.
  pose proof (pitch_free_after_stop f n st Hk Hs Hf Hn) as Hfree.
  pose proof (stopNote_sounding (f * Math_pow2 (octaveShift st)) st Hs)
    as (Hw1 & Hl1 & Hb1 & Hs1).
  unfold sounding_inv, registry_wf, ledger_unique, bases_canonical, ledger_in_sync.
  rewrite playNoteFromWheel_activeOscillators, playNoteFromWheel_heldNotes.
  rewrite (removeHeld_absent n _ Hfree).
  unfold registry_wf, bases_canonical, ledger_in_sync in Hw1, Hb1, Hs1.
  rewrite stopNote_activeOscillators in Hw1, Hb1, Hs1.
  split; [apply obj_wf_set; [apply obj_get_delete_same|exact Hw1]|]. split; [|split].
  - rewrite <- (removeHeld_absent n _ Hfree). apply (engage_NoDup (Wheel n t)). exact Hl1.
  - intros k v Hin. apply obj_set_in in Hin; [|apply obj_get_delete_same].
    destruct Hin as [[= -> ->]|Hin]; [exact Hf|]. eapply Hb1; eauto.
  - apply registered_sync; [apply obj_get_delete_same| |exact Hs1].
    unfold heldOfVoice. simpl. now rewrite Hn.
Qed.

Lemma playNoteFromWheel_lastPlayedNote f n t st :
  lastPlayedNote (playNoteFromWheel f n t st) = Some (Wheel n t).
Proof. rewrite playNoteFromWheel_eq. reflexivity. Qed.

Lemma stopNote_full f st : full_inv st -> full_inv (stopNote f st).
Proof.
  intros (He & Hs & Hp). split; [now apply stopNote_inv|].
  split; [now apply stopNote_sounding|].
  unfold lastPlayed_canonical. now rewrite stopNote_lastPlayedNote.
Qed.

Lemma playNote_full f p st :
  In f pianoKeys -> full_inv st -> full_inv (playNote f true p st).
Proof.
  intros Hf (He & Hs & Hp). split; [now apply playNote_inv|].
  split; [apply playNote_sounding; try assumption; apply He|].
  unfold lastPlayed_canonical. rewrite playNote_lastPlayedNote.
  destruct (getNoteFromFrequency f) as [n|] eqn:En; [|exact Hp].
  intros h [= <-]. simpl. eapply getNoteFromFrequency_in; eauto.
Qed.

Lemma playNoteFromWheel_full f n t st :
  In f pianoKeys -> getNoteFromFrequency f = Some n ->
  full_inv st -> full_inv (playNoteFromWheel f n t st).
Proof.
  intros Hf Hn (He & Hs & Hp). split; [now apply playNoteFromWheel_inv|].
  split; [apply playNoteFromWheel_sounding; try assumption; apply He|].
  unfold lastPlayed_canonical. rewrite playNoteFromWheel_lastPlayedNote.
  intros h [= <-]. simpl. eapply getNoteFromFrequency_in; eauto.
Qed.

Lemma full_frame st st' :
  activeOscillators st' = activeOscillators st ->
  heldNotes st' = heldNotes st ->
  octaveShift st' = octaveShift st ->
  lastPlayedNote st' = lastPlayedNote st ->
  full_inv st -> full_inv st'.
Proof.
  intros Ho Hh Hs Hl (He & (Hw & Hu & Hb & Hy) & Hp).
  split; [now apply (inv_frame st)|]. split.
  - unfold sounding_inv, registry_wf, ledger_unique, bases_canonical, ledger_in_sync.
    rewrite Ho, Hh. now repeat split.
  - unfold lastPlayed_canonical. now rewrite Hl.
Qed.

Lemma restartNote_full note st :
  In (baseFreq note) pianoKeys -> full_inv st -> full_inv (restartNote note st).
Proof.
  intros Hb H. unfold restartNote.
  destruct (getNoteFromFrequency (baseFreq note)) as [n|] eqn:En; [|assumption].
  destruct (existsb (isWheelNote n) (heldNotes st)).
  - destruct (find (isWheelNote n) (heldNotes st)) as [[?|? t]|]; try assumption.
    now apply playNoteFromWheel_full.
  - now apply playNote_full.
Qed.

Lemma restartAll_full notes : forall st,
  (forall note, In note notes -> In (baseFreq note) pianoKeys) ->
  full_inv st -> full_inv (fold_left (fun s note => restartNote note s) notes st).
Proof.
  induction notes as [|note notes IH]; simpl; intros st Hb H; [assumption|].
  apply IH; [intros x Hx; apply Hb; now right|].
  apply restartNote_full; [apply Hb; now left|assumption].
Qed.

Lemma shiftActiveNotes_full old new st :
  shift_in_range st -> sounding_inv st -> lastPlayed_canonical st ->
  full_inv (shiftActiveNotes old new st).
Proof.
  intros Hr Hs Hp. unfold shiftActiveNotes. cbv zeta.
  set (notes := map _ (activeOscillators st)).
  apply restartAll_full.
  - intros note Hin. subst notes. apply in_map_iff in Hin.
    destruct Hin as ([k v] & <- & Hin). simpl.
    destruct Hs as (_ & _ & Hb & _). eapply Hb; eauto.
  - rewrite (fold_left_on_map stopNote actualFreq). subst notes.
    rewrite activeNotes_keys.
    pose proof (stopAll_sounding (obj_keys (activeOscillators st)) st Hs) as Hs'.
    split; [|split; [exact Hs'|]].
    + unfold engine_inv, shift_in_range, keys_follow_shift.
      rewrite stopAll_empty, stopAll_octaveShift.
      split; [exact Hr|]. split; [intros k v []|]. split; apply Hs'.
    + unfold lastPlayed_canonical. now rewrite stopAll_lastPlayedNote.
Qed.

Lemma stopDragged_full f st : full_inv st -> full_inv (stopDragged f st).
Proof.
  intros H. unfold stopDragged. destruct (currentPlayingFrequency st); [|assumption].
  destruct (negb _ && negb _); [now apply stopNote_full|assumption].
Qed.

Lemma wheelPress_full el st :
  In el wheelElements -> full_inv st -> full_inv (wheelPress el st).
Proof.
  intros Hel H. unfold wheelPress, wheelPlay. destruct el as [[f n] t]. simpl.
  destruct (wheelElements_consistent f n t Hel) as [Hn Hf].
  apply playNoteFromWheel_full; try assumption.
  apply (full_frame (stopDragged f st)); try reflexivity. now apply stopDragged_full.
Qed.

Lemma pianoPress_full f st :
  In f pianoKeys -> full_inv st -> full_inv (pianoPress f st).
Proof.
  intros Hf H. unfold pianoPress, pianoPlay. apply playNote_full; [assumption|].
  apply (full_frame (stopDragged f st)); try reflexivity. now apply stopDragged_full.
Qed.

Lemma octave_full z st :
  (MIN_OCTAVE_SHIFT <= z <= MAX_OCTAVE_SHIFT)%Z -> full_inv st ->
  full_inv (shiftActiveNotes (octaveShift st) z (set_octaveShift z st)).
Proof.
  intros Hz (_ & Hs & Hp). apply shiftActiveNotes_full; [exact Hz|exact Hs|exact Hp].
Qed.

Lemma onBlur_full st : full_inv st -> full_inv (onBlur st).
Proof.
  intros (He & _ & Hp). split; [now apply onBlur_inv|].
  unfold onBlur.
  match goal with
  | |- context [fold_left _ (obj_keys (activeOscillators ?s)) ?s] =>
      pose proof (stopAll_empty s) as Ho;
      pose proof (stopAll_heldNotes_nil (obj_keys (activeOscillators s)) s eq_refl) as Hh;
      pose proof (stopAll_lastPlayedNote (obj_keys (activeOscillators s)) s) as Hl
  end.
  split.
  - unfold sounding_inv, registry_wf, ledger_unique, bases_canonical, ledger_in_sync.
    rewrite Ho, Hh. split; [exact I|]. split; [constructor|].
    split; [intros k v []|constructor].
  - unfold lastPlayed_canonical. rewrite Hl. exact Hp.
Qed.

Lemma heldOfVoice_with_gain_value x v : heldOfVoice (with_gain_value x v) = heldOfVoice v.
Proof. reflexivity. Qed.

Lemma audioRender_full now level st : full_inv st -> full_inv (audioRender now level st).
Proof.
  intros (He & (Hw & Hu & Hb & Hy) & Hp). split; [now apply audioRender_inv|].
  split; [|exact Hp]. split; [|split; [exact Hu|split]].
  - unfold registry_wf. simpl.
    apply (mapped_values_wf (fun k v => with_gain_value (level k) v)). exact Hw.
  - intros k v Hin. simpl in Hin. apply in_map_iff in Hin.
    destruct Hin as ([k0 v0] & [= <- <-] & Hin). simpl. eapply Hb; eauto.
  - unfold ledger_in_sync. simpl. rewrite map_map. exact Hy.
Qed.

Lemma handle_full e st : valid_event e -> full_inv st -> full_inv (handle e st).
Proof.
  intros Hv H. destruct e; simpl in *.
  - apply wheelPress_full; [assumption|]. now apply (full_frame st).
  - destruct (isMouseDown st); [now apply wheelPress_full|assumption].
  - destruct el as [[f n] t]. destruct (wheelElements_consistent f n t Hv).
    now apply playNoteFromWheel_full.
  - now apply stopNote_full.
  - unfold onMouseUp. simpl.
    destruct (currentPlayingFrequency st) as [cpf|]; [|now apply (full_frame st)].
    destruct (negb _); [|now apply (full_frame st)].
    eapply full_frame;
      [..|apply (stopNote_full (cpf * Math_pow2 (octaveShift st)))];
      [reflexivity|reflexivity|reflexivity|reflexivity|].
    now apply (full_frame st).
  - unfold onKeyDown. destruct ignored; [assumption|].
    destruct (String.eqb (toLowerCase key) "z" && _) eqn:Ez.
    { apply andb_true_iff in Ez. destruct Ez as [_ Ez]. apply Z.ltb_lt in Ez.
      unfold octaveDown. apply octave_full; [|assumption].
      destruct H as ((Hr & _) & _). unfold shift_in_range in Hr. simpl. lia. }
    destruct (String.eqb (toLowerCase key) "x" && _) eqn:Ex.
    { apply andb_true_iff in Ex. destruct Ex as [_ Ex]. apply Z.ltb_lt in Ex.
      unfold octaveUp. apply octave_full; [|assumption].
      destruct H as ((Hr & _) & _). unfold shift_in_range in Hr. simpl. lia. }
    destruct (keyFrequency (toLowerCase key)) as [f|] eqn:Ef; [|assumption].
    destruct (negb _ && negb _); [|assumption].
    apply playNote_full; [eapply keyFrequency_pianoKeys; eauto|].
    now apply (full_frame st).
  - unfold onKeyUp. destruct (keyFrequency (toLowerCase key)); [|assumption].
    destruct (negb _ && set_has _ _); [|assumption].
    apply stopNote_full. now apply (full_frame st).
  - now apply onBlur_full.
  - apply pianoPress_full; [assumption|]. now apply (full_frame st).
  - destruct (isMouseDown st); [now apply pianoPress_full|assumption].
  - now apply playNote_full.
  - now apply stopNote_full.
  - now apply (full_frame st).
  - now apply (full_frame st).
  - destruct (MIN_OCTAVE_SHIFT <? octaveShift st)%Z eqn:E; [|assumption].
    apply Z.ltb_lt in E. unfold octaveDown. apply octave_full; [|assumption].
    destruct H as ((Hr & _) & _). unfold shift_in_range in Hr. simpl. lia.
  - unfold octaveReset. apply octave_full; [|assumption].
    unfold MIN_OCTAVE_SHIFT, MAX_OCTAVE_SHIFT. simpl. lia.
  - destruct (octaveShift st <? MAX_OCTAVE_SHIFT)%Z eqn:E; [|assumption].
    apply Z.ltb_lt in E. unfold octaveUp. apply octave_full; [|assumption].
    destruct H as ((Hr & _) & _). unfold shift_in_range in Hr. simpl. lia.
Qed.

Lemma reachable_full st : reachable st -> full_inv st.
Proof.
  induction 1 as [m v|e st _ IH Hv|now level st _ IH].
  - split; [apply initialState_inv|]. split.
    + split; [exact I|]. split; [constructor|]. split; [intros k x []|constructor].
    + intros h Hh. discriminate Hh.
  - now apply handle_full.
  - now apply audioRender_full.
Qed.

(** X8.  In every reachable state the ledger and the registry tell the same
    story: the ledger holds, in some order, exactly one entry per live voice,
    with the pitch class of the voice's base frequency and, for a voice from
    the wheel, its chord type; so there are as many held notes as live
    voices.  Every base frequency is one of the twelve canonical ones, and
    every name on the ledger or in the fallback is a pitch class. *)
Theorem ledger_matches_live_voices (st : state) :
  reachable st ->
  Permutation (map Some (heldNotes st))
              (map (fun kv => heldOfVoice (snd kv)) (activeOscillators st)) /\
  length (heldNotes st) = obj_count (activeOscillators st) /\
  (forall k v, In (k, v) (activeOscillators st) -> In (baseFrequency v) pianoKeys) /\
  (forall h, In h (heldNotes st) -> In (heldName h) noteOrder) /\
  (forall h, lastPlayedNote st = Some h -> In (heldName h) noteOrder).
Proof.
  intros Hreach. destruct (reachable_full st Hreach) as (_ & (_ & _ & Hb & Hs) & Hp).
  split; [exact Hs|]. split; [|split; [exact Hb|split; [|exact Hp]]].
  - unfold obj_count, obj_keys. rewrite length_map.
    rewrite <- (length_map Some), (Permutation_length Hs). apply length_map.
  - intros h Hin.
    assert (Hx : In (Some h) (map (fun kv => heldOfVoice (snd kv)) (activeOscillators st))).
    { eapply Permutation_in; [exact Hs|]. now apply in_map. }
    apply in_map_iff in Hx. destruct Hx as ([k v] & Hv & _). simpl in Hv.
    apply heldOfVoice_name in Hv. eapply getNoteFromFrequency_in; eauto.
Qed.

Lemma ledger_matches_live_voices_witness :
  reachable wheelCmajor /\
  length (heldNotes wheelCmajor) = obj_count (activeOscillators wheelCmajor).
Proof.
  assert (R : reachable wheelCmajor).
  { apply reach_event; [apply reach_init|]. in_list. }
  split; [exact R|].
  destruct (ledger_matches_live_voices wheelCmajor R) as (_ & H & _). exact H.
Defined.

(** ** Releasing a note *)

Lemma released_note f st :
  full_inv st -> In f pianoKeys ->
  let st' := stopNote (f * Math_pow2 (octaveShift st)) st in
  obj_get (f * Math_pow2 (octaveShift st)) (activeOscillators st') = None /\
  (forall k v, In (k, v) (activeOscillators st') -> baseFrequency v <> f) /\
  (forall n, getNoteFromFrequency f = Some n ->
             ~ In n (map heldName (heldNotes st'))).
Proof.
  intros H Hf st'. subst st'. set (k := f * Math_pow2 (octaveShift st)).
  destruct H as ((_ & Hk & _) & Hs & _).
  pose proof (stopNote_keys_follow_shift k st Hk) as Hk1.
  assert (Habs : obj_get k (activeOscillators (stopNote k st)) = None)
    by (rewrite stopNote_activeOscillators; apply obj_get_delete_same).
  split; [exact Habs|]. split.
  - intros k' v' Hin Hbase. destruct (Hk1 k' v' Hin) as [Hkey _].
    rewrite stopNote_octaveShift, Hbase in Hkey.
    rewrite obj_get_none in Habs. specialize (Habs _ Hin).
    unfold is_key in Habs. simpl in Habs. apply Qeq_bool_neq in Habs. now apply Habs.
  - intros n Hn. now apply pitch_free_after_stop.
Qed.

(** ** The mouse pointer *)

Lemma aux_kept_refl st : aux_kept st st.
Proof. repeat split. Qed.

Lemma aux_kept_trans st1 st2 st3 : aux_kept st1 st2 -> aux_kept st2 st3 -> aux_kept st1 st3.
Proof.
  intros (A1 & A2 & A3 & A4 & A5) (B1 & B2 & B3 & B4 & B5).
  repeat split; congruence.
Qed.

Lemma stopNote_aux_kept f st : aux_kept st (stopNote f st).
Proof. stop_cases; repeat split. Qed.

Lemma playNote_aux_kept f a p st : aux_kept st (playNote f a p st).
Proof.
  rewrite playNote_eq. cbv zeta.
  destruct (stopNote_aux_kept (actualOf a f st) st) as (A1 & A2 & A3 & A4 & A5).
  destruct (getNoteFromFrequency f); repeat split; assumption.
Qed.

Lemma playNoteFromWheel_aux_kept f n t st : aux_kept st (playNoteFromWheel f n t st).
Proof.
  rewrite playNoteFromWheel_eq. cbv zeta.
  destruct (stopNote_aux_kept (f * Math_pow2 (octaveShift st)) st)
    as (A1 & A2 & A3 & A4 & A5).
  repeat split; assumption.
Qed.

Lemma fold_aux_kept {X : Type} (F : state -> X -> state) (l : list X) :
  (forall s x, aux_kept s (F s x)) -> forall st, aux_kept st (fold_left F l st).
Proof.
  intros HF. induction l as [|x l IH]; simpl; intros st; [apply aux_kept_refl|].
  eapply aux_kept_trans; [apply HF|apply IH].
Qed.

Lemma restartNote_aux_kept note st : aux_kept st (restartNote note st).
Proof.
  unfold restartNote.
  destruct (getNoteFromFrequency (baseFreq note)) as [n|]; [|apply aux_kept_refl].
  destruct (existsb (isWheelNote n) (heldNotes st)).
  - destruct (find (isWheelNote n) (heldNotes st)) as [[?|? t]|];
      try apply aux_kept_refl.
    apply playNoteFromWheel_aux_kept.
  - apply playNote_aux_kept.
Qed.

Lemma shiftActiveNotes_aux_kept old new st : aux_kept st (shiftActiveNotes old new st).
Proof.
  unfold shiftActiveNotes. cbv zeta. set (notes := map _ (activeOscillators st)).
  apply (aux_kept_trans _
           (fold_left (fun s note => stopNote (actualFreq note) s) notes st)).
  - apply (fold_aux_kept (fun s note => stopNote (actualFreq note) s)).
    intros s x. apply stopNote_aux_kept.
  - apply (fold_aux_kept (fun s note => restartNote note s)).
    intros s x. apply restartNote_aux_kept.
Qed.

Lemma pointer_kept st st' : aux_kept st st' -> pointer_inv st -> pointer_inv st'.
Proof. intros (A1 & A2 & _) H f. rewrite A1, A2. apply H. Qed.

Lemma stopDragged_aux_kept f st : aux_kept st (stopDragged f st).
Proof.
  unfold stopDragged. destruct (currentPlayingFrequency st); [|apply aux_kept_refl].
  destruct (negb _ && negb _); [apply stopNote_aux_kept|apply aux_kept_refl].
Qed.

Lemma pointer_set f (st' : state) :
  In f pianoKeys ->
  isMouseDown st' = true -> currentPlayingFrequency st' = Some f -> pointer_inv st'.
Proof. intros Hf Hd Hc g Hg. rewrite Hc in Hg. injection Hg as <-. now split. Qed.

Lemma pointer_none st : currentPlayingFrequency st = None -> pointer_inv st.
Proof. intros H f Hf. congruence. Qed.

Lemma wheelPress_pointer el st :
  In el wheelElements -> isMouseDown st = true -> pointer_inv (wheelPress el st).
Proof.
  intros Hel Hd. destruct el as [[f n] t].
  destruct (wheelElements_consistent f n t Hel) as [_ Hf].
  unfold wheelPress, wheelPlay. simpl.
  destruct (playNoteFromWheel_aux_kept f n t
              (set_currentPlayingFrequency (Some f) (stopDragged f st)))
    as (A1 & A2 & _).
  destruct (stopDragged_aux_kept f st) as (B1 & _).
  apply (pointer_set f); [assumption| |].
  - rewrite A1. simpl. now rewrite B1.
  - rewrite A2. reflexivity.
Qed.

Lemma pianoPress_pointer f st :
  In f pianoKeys -> isMouseDown st = true -> pointer_inv (pianoPress f st).
Proof.
  intros Hf Hd. unfold pianoPress, pianoPlay.
  set (st1 := set_currentPlayingFrequency (Some f) (stopDragged f st)).
  destruct (playNote_aux_kept f true (plainIsPrimary f st1) st1) as (A1 & A2 & _).
  destruct (stopDragged_aux_kept f st) as (B1 & _).
  apply (pointer_set f); [assumption| |].
  - rewrite A1. simpl. now rewrite B1.
  - rewrite A2. reflexivity.
Qed.

Lemma handle_pointer e st : valid_event e -> pointer_inv st -> pointer_inv (handle e st).
Proof.
  intros Hv H. destruct e; simpl in *.
  - now apply wheelPress_pointer.
  - destruct (isMouseDown st) eqn:E; [now apply wheelPress_pointer|assumption].
  - destruct el as [[f n] t]. eapply pointer_kept; [apply playNoteFromWheel_aux_kept|assumption].
  - eapply pointer_kept; [apply stopNote_aux_kept|assumption].
  - unfold onMouseUp. simpl. destruct (currentPlayingFrequency st) as [cpf|] eqn:E.
    + destruct (negb (Qeq_bool cpf 0)) eqn:E0; [now apply pointer_none|].
      exfalso. destruct (H cpf E) as [_ Hc].
      destruct (pianoKeys_note cpf Hc) as (_ & _ & _ & _ & Hz).
      rewrite Hz in E0. discriminate.
    + now apply pointer_none.
  - unfold onKeyDown. destruct ignored; [assumption|].
    destruct (String.eqb (toLowerCase key) "z" && _).
    { eapply pointer_kept; [apply shiftActiveNotes_aux_kept|]. exact H. }
    destruct (String.eqb (toLowerCase key) "x" && _).
    { eapply pointer_kept; [apply shiftActiveNotes_aux_kept|]. exact H. }
    destruct (keyFrequency (toLowerCase key)); [|assumption].
    destruct (negb _ && negb _); [|assumption].
    eapply pointer_kept; [apply playNote_aux_kept|]. exact H.
  - unfold onKeyUp. destruct (keyFrequency (toLowerCase key)); [|assumption].
    destruct (negb _ && set_has _ _); [|assumption].
    eapply pointer_kept; [apply stopNote_aux_kept|]. exact H.
  - unfold onBlur. apply pointer_none.
    match goal with
    | |- context [fold_left ?F ?l ?s] =>
        destruct (fold_aux_kept F l (fun s' x => stopNote_aux_kept x s') s) as (_ & A2 & _)
    end.
    rewrite A2. reflexivity.
  - now apply pianoPress_pointer.
  - destruct (isMouseDown st) eqn:E; [now apply pianoPress_pointer|assumption].
  - eapply pointer_kept; [apply playNote_aux_kept|assumption].
  - eapply pointer_kept; [apply stopNote_aux_kept|assumption].
  - exact H.
  - exact H.
  - destruct (MIN_OCTAVE_SHIFT <? octaveShift st)%Z; [|assumption].
    eapply pointer_kept; [apply shiftActiveNotes_aux_kept|]. exact H.
  - eapply pointer_kept; [apply shiftActiveNotes_aux_kept|]. exact H.
  - destruct (octaveShift st <? MAX_OCTAVE_SHIFT)%Z; [|assumption].
    eapply pointer_kept; [apply shiftActiveNotes_aux_kept|]. exact H.
Qed.

Lemma reachable_pointer st : reachable st -> pointer_inv st.
Proof.
  induction 1 as [m v|e st _ IH Hv|now level st _ IH].
  - now apply pointer_none.
  - now apply handle_pointer.
  - exact IH.
Qed.

(** X9.  A release never leaves the note hanging.  In every reachable state,
    when the keyboard key that holds a note goes up, the touch on its piano
    key or wheel path ends, or the mouse button goes up while the note is
    under the pointer, then afterwards no live voice has the base frequency
    of that note, at any octave, and the ledger has no entry for its pitch
    class. *)
Theorem release_leaves_no_voice (e : event) (f : Q) (st : state) :
  reachable st -> valid_event e -> releaseOf e f st ->
  let st' := handle e st in
  obj_get (f * 2 ^ octaveShift st) (activeOscillators st') = None /\
  (forall k v, In (k, v) (activeOscillators st') -> baseFrequency v <> f) /\
  (forall n, getNoteFromFrequency f = Some n ->
             ~ In n (map heldName (heldNotes st'))).
Proof.
  intros Hreach Hv Hrel. pose proof (reachable_full st Hreach) as Hfull.
  destruct e; simpl in Hrel; try contradiction; cbv zeta; simpl handle.
  - destruct el as [[g n] t]. simpl in Hrel. subst g.
    destruct (wheelElements_consistent f n t Hv) as [_ Hf].
    apply (released_note f st Hfull Hf).
  - pose proof (reachable_pointer st Hreach f Hrel) as [_ Hf].
    destruct (pianoKeys_note f Hf) as (_ & _ & _ & _ & Hz).
    unfold onMouseUp. simpl. rewrite Hrel, Hz. simpl.
    apply (released_note f (set_isMouseDown false st)); [|exact Hf].
    now apply (full_frame st).
  - destruct Hrel as [Hk Ha]. pose proof (keyFrequency_pianoKeys _ _ Hk) as Hf.
    destruct (pianoKeys_note f Hf) as (_ & _ & _ & _ & Hz).
    unfold onKeyUp. rewrite Hk, Ha, Hz. simpl.
    apply (released_note f (set_activeKeys _ st)); [|exact Hf].
    now apply (full_frame st).
  - subst frequency. simpl in Hv. apply (released_note f st Hfull Hv).
Qed.

Lemma release_leaves_no_voice_witness :
  reachable keyboardC /\
  releaseOf (KeyUp "A") 261.63 keyboardC /\
  obj_get 261.63 (activeOscillators (handle (KeyUp "A") keyboardC)) = None.
Proof.
  assert (R : reachable keyboardC).
  { apply reach_event; [apply reach_init|exact I]. }
  assert (Hrel : releaseOf (KeyUp "A") 261.63 keyboardC) by (split; reflexivity).
  split; [exact R|]. split; [exact Hrel|].
  destruct (release_leaves_no_voice (KeyUp "A") 261.63 keyboardC R I Hrel) as (H & _).
  exact H.
Defined.

Lemma dragged_away f g st :
  full_inv st -> In f pianoKeys -> In g pianoKeys ->
  currentPlayingFrequency st = Some g -> g <> f ->
  stopDragged f st = stopNote (g * Math_pow2 (octaveShift st)) st.
Proof.
  intros H Hf Hg Hc Hne. unfold stopDragged. rewrite Hc.
  destruct (pianoKeys_note g Hg) as (_ & _ & _ & _ & Hz). rewrite Hz.
  destruct (Qeq_bool g f) eqn:E; [|reflexivity].
  apply Qeq_bool_iff in E. exfalso. apply Hne. now apply pianoKeys_Qeq.
Qed.

(** X10.  The mouse pointer plays one note at a time.  In a reachable state,
    while a note is under the pointer the button is down and the note is one
    of the twelve; and when the pointer presses or, with the button down,
    enters the element of another note, the note it has been playing no longer
    has a live voice, the new note has one and is now the note under the
    pointer. *)
Theorem pointer_plays_one_note (e : event) (f g : Q) (st : state) :
  reachable st -> valid_event e -> pointerPlays e f st ->
  currentPlayingFrequency st = Some g -> g <> f ->
  let st' := handle e st in
  (isMouseDown st = true /\ In g pianoKeys) /\
  currentPlayingFrequency st' = Some f /\
  isMouseDown st' = true /\
  (forall k v, In (k, v) (activeOscillators st') -> baseFrequency v <> g) /\
  (exists v, obj_get (f * 2 ^ octaveShift st) (activeOscillators st') = Some v /\
             baseFrequency v = f).
Proof.
  intros Hreach Hv Hplay Hc Hne st'.
  pose proof (reachable_full st Hreach) as Hfull.
  pose proof (reachable_pointer st Hreach g Hc) as [Hdown Hg].
  split; [now split|].
  assert (Hwheel : forall el, In el wheelElements -> fst (fst el) = f ->
            let s1 := wheelPress el st in
            currentPlayingFrequency s1 = Some f /\ isMouseDown s1 = true /\
            (forall k v, In (k, v) (activeOscillators s1) -> baseFrequency v <> g) /\
            (exists v, obj_get (f * 2 ^ octaveShift st) (activeOscillators s1) = Some v /\
                       baseFrequency v = f)).
  { intros [[f' n] t] Hel Hf'. simpl in Hf'. subst f'.
    destruct (wheelElements_consistent f n t Hel) as [_ Hf].
    unfold wheelPress, wheelPlay. cbn [fst snd].
    rewrite (dragged_away f g st Hfull Hf Hg Hc Hne).
    set (s0 := stopNote (g * Math_pow2 (octaveShift st)) st).
    set (s2 := set_currentPlayingFrequency (Some f) s0).
    destruct (playNoteFromWheel_aux_kept f n t s2) as (A1 & A2 & _).
    destruct (stopNote_aux_kept (g * Math_pow2 (octaveShift st)) st) as (B1 & _).
    destruct (released_note g st Hfull Hg) as (_ & Hnog & _). fold s0 in Hnog.
    assert (Hs : octaveShift s2 = octaveShift st) by apply stopNote_octaveShift.
    split; [now rewrite A2|]. split.
    { rewrite A1. change (isMouseDown s2) with (isMouseDown s0). unfold s0.
      now rewrite B1. }
    rewrite playNoteFromWheel_activeOscillators, Hs. split.
    - intros k v Hin. apply registered_in in Hin.
      destruct Hin as [[= -> ->]|Hin]; [simpl; congruence|now apply (Hnog k v)].
    - eexists. split; [apply registered_get|reflexivity]. }
  assert (Hpiano : In f pianoKeys ->
            let s1 := pianoPress f st in
            currentPlayingFrequency s1 = Some f /\ isMouseDown s1 = true /\
            (forall k v, In (k, v) (activeOscillators s1) -> baseFrequency v <> g) /\
            (exists v, obj_get (f * 2 ^ octaveShift st) (activeOscillators s1) = Some v /\
                       baseFrequency v = f)).
  { intros Hf. unfold pianoPress, pianoPlay.
    rewrite (dragged_away f g st Hfull Hf Hg Hc Hne).
    set (s0 := stopNote (g * Math_pow2 (octaveShift st)) st).
    set (s2 := set_currentPlayingFrequency (Some f) s0).
    destruct (playNote_aux_kept f true (plainIsPrimary f s2) s2) as (A1 & A2 & _).
    destruct (stopNote_aux_kept (g * Math_pow2 (octaveShift st)) st) as (B1 & _).
    destruct (released_note g st Hfull Hg) as (_ & Hnog & _). fold s0 in Hnog.
    assert (Hs : octaveShift s2 = octaveShift st) by apply stopNote_octaveShift.
    split; [now rewrite A2|]. split.
    { rewrite A1. change (isMouseDown s2) with (isMouseDown s0). unfold s0.
      now rewrite B1. }
    rewrite playNote_activeOscillators. unfold actualOf. rewrite Hs. split.
    - intros k v Hin. apply registered_in in Hin.
      destruct Hin as [[= -> ->]|Hin]; [simpl; congruence|now apply (Hnog k v)].
    - eexists. split; [apply registered_get|reflexivity]. }
  assert (Hsame : set_isMouseDown true st = st).
  { destruct st. simpl in Hdown. subst. reflexivity. }
  subst st'. destruct e; simpl in Hplay; try contradiction; simpl handle.
  - rewrite Hsame. now apply Hwheel.
  - destruct Hplay as [Hf' ->]. now apply Hwheel.
  - subst frequency. rewrite Hsame. now apply Hpiano.
  - destruct Hplay as [-> Hd]. rewrite Hd. now apply Hpiano.
Qed.

Lemma pointer_plays_one_note_witness :
  reachable (handle (PianoMouseDown 261.63) (initialState false 0.7)) /\
  obj_keys
    (activeOscillators
       (handle (PianoMouseEnter 329.63)
          (handle (PianoMouseDown 261.63) (initialState false 0.7))))
  = [329.63 * 2 ^ 0].
Proof.
  set (st := handle (PianoMouseDown 261.63) (initialState false 0.7)).
  assert (R : reachable st).
  { apply reach_event; [apply reach_init|in_list]. }
  split; [exact R|].
  assert (V : valid_event (PianoMouseEnter 329.63)) by in_list.
  assert (P : pointerPlays (PianoMouseEnter 329.63) 329.63 st) by (split; reflexivity).
  assert (N : 261.63 <> 329.63) by discriminate.
  destruct (pointer_plays_one_note (PianoMouseEnter 329.63) 329.63 261.63 st
              R V P eq_refl N) as (_ & _ & _ & _ & (v & Hv & _)).
  reflexivity.
Defined.

(** ** An octave shift keeps the notes *)

Lemma map_Some_inj {A : Type} (l l' : list A) : map Some l = map Some l' -> l = l'.
Proof.
  revert l'. induction l as [|x l IH]; intros [|y l']; simpl; try discriminate.
  - reflexivity.
  - intros [= -> H]. f_equal. now apply IH.
Qed.

Lemma Permutation_Some {A : Type} (l l' : list A) :
  Permutation (map Some l) (map Some l') -> Permutation l l'.
Proof.
  intros H. apply Permutation_map_inv in H. destruct H as (l3 & E & HP).
  apply map_Some_inj in E. subst. now symmetry.
Qed.

Lemma liveBases_NoDup st :
  registry_wf st -> keys_follow_shift st -> NoDup (liveBases st).
Proof.
  unfold registry_wf, keys_follow_shift, liveBases.
  induction (activeOscillators st) as [|[k v] o IH]; simpl; intros Hw Hk; [constructor|].
  destruct Hw as [Hn Hw]. constructor.
  - intros Hin. apply in_map_iff in Hin. destruct Hin as ([k' v'] & Hb & Hin).
    simpl in Hb. rewrite obj_get_none in Hn. specialize (Hn _ Hin).
    unfold is_key in Hn. simpl in Hn. apply Qeq_bool_neq in Hn. apply Hn.
    destruct (Hk k v (or_introl eq_refl)) as [-> _].
    destruct (Hk k' v' (or_intror Hin)) as [-> _]. now rewrite Hb.
  - apply IH; [exact Hw|]. intros k' v' Hin. apply Hk. now right.
Qed.

(** Whichever path the restart takes, it registers a voice of that base
    frequency under the shifted key. *)
Lemma restartNote_registers note st :
  In (baseFreq note) pianoKeys ->
  exists v,
    baseFrequency v = baseFreq note /\
    activeOscillators (restartNote note st)
    = obj_set (baseFreq note * Math_pow2 (octaveShift st)) v
              (obj_delete (baseFreq note * Math_pow2 (octaveShift st))
                          (activeOscillators st)).
Proof.
  intros Hb. destruct (pianoKeys_note _ Hb) as (n & Hn & _).
  unfold restartNote. rewrite Hn.
  destruct (existsb (isWheelNote n) (heldNotes st)) eqn:E.
  - destruct (find (isWheelNote n) (heldNotes st)) as [[m|m t]|] eqn:Ef.
    + apply find_some in Ef. destruct Ef as [_ Ef]. discriminate.
    + eexists. split; [|apply playNoteFromWheel_activeOscillators]. reflexivity.
    + apply existsb_exists in E. destruct E as (h & Hin & Hh).
      pose proof (find_none _ _ Ef h Hin). congruence.
  - eexists. split; [|apply playNote_activeOscillators]. reflexivity.
Qed.

Lemma restartNote_octaveShift note st : octaveShift (restartNote note st) = octaveShift st.
Proof.
  unfold restartNote. destruct (getNoteFromFrequency (baseFreq note)) as [n|]; [|reflexivity].
  destruct (existsb (isWheelNote n) (heldNotes st)).
  - destruct (find (isWheelNote n) (heldNotes st)) as [[?|? t]|]; try reflexivity.
    apply playNoteFromWheel_octaveShift.
  - apply playNote_octaveShift.
Qed.

Lemma restartAll_octaveShift notes : forall st,
  octaveShift (fold_left (fun s note => restartNote note s) notes st) = octaveShift st.
Proof.
  induction notes as [|note notes IH]; simpl; intros st; [reflexivity|].
  rewrite IH. apply restartNote_octaveShift.
Qed.

Lemma restartAll_bases notes : forall st,
  full_inv st ->
  (forall note, In note notes -> In (baseFreq note) pianoKeys) ->
  NoDup (map baseFreq notes) ->
  (forall note, In note notes -> ~ In (baseFreq note) (liveBases st)) ->
  Permutation (liveBases (fold_left (fun s note => restartNote note s) notes st))
              (liveBases st ++ map baseFreq notes).
Proof.
  induction notes as [|note notes IH]; intros st Hfull Hb Hnd Hnew; simpl.
  - now rewrite app_nil_r.
  - inversion Hnd as [|? ? Hfirst Hrest]; subst.
    assert (Hbn : In (baseFreq note) pianoKeys) by (apply Hb; now left).
    destruct (restartNote_registers note st Hbn) as (v & Hv & Hreg).
    set (k := baseFreq note * Math_pow2 (octaveShift st)) in *.
    destruct Hfull as (He & Hs & Hp).
    assert (Habs : obj_get k (activeOscillators st) = None).
    { destruct (obj_get k (activeOscillators st)) as [v'|] eqn:E; [|reflexivity].
      exfalso. destruct (obj_get_some_in _ _ _ E) as (k' & Hin & Hk').
      apply (Hnew note (or_introl eq_refl)).
      destruct He as (_ & Hkeys & _). destruct (Hkeys k' v' Hin) as [Hkey _].
      assert (Hq : baseFrequency v' == baseFreq note).
      { apply (shifted_inj _ _ (octaveShift st)). now rewrite <- Hkey. }
      destruct Hs as (_ & _ & Hcan & _).
      rewrite <- (pianoKeys_Qeq _ _ (Hcan _ _ Hin) Hbn Hq).
      unfold liveBases. apply in_map_iff. exists (k', v'). now split. }
    rewrite (obj_delete_absent _ _ Habs) in Hreg.
    assert (Hstep : Permutation (liveBases (restartNote note st))
                                (baseFreq note :: liveBases st)).
    { unfold liveBases. rewrite Hreg.
      rewrite (Permutation_map _ (obj_set_perm k v _ Habs)). simpl. now rewrite Hv. }
    rewrite IH.
    + rewrite Hstep. simpl. apply Permutation_middle.
    + apply restartNote_full; [assumption|exact (conj He (conj Hs Hp))].
    + intros x Hx. apply Hb. now right.
    + exact Hrest.
    + intros x Hx Hin. apply (Permutation_in _ Hstep) in Hin.
      destruct Hin as [Heq|Hin].
      * apply Hfirst. rewrite Heq. now apply in_map.
      * apply (Hnew x (or_intror Hx) Hin).
Qed.

Lemma shiftActiveNotes_bases old z st :
  full_inv st -> (MIN_OCTAVE_SHIFT <= z <= MAX_OCTAVE_SHIFT)%Z ->
  Permutation (liveBases (shiftActiveNotes old z (set_octaveShift z st)))
              (liveBases st).
Proof.
  intros Hfull Hz. pose proof Hfull as ((_ & Hk & _ & Hw) & Hs & Hp).
  unfold shiftActiveNotes. cbv zeta.
  change (activeOscillators (set_octaveShift z st)) with (activeOscillators st).
  set (notes := map _ (activeOscillators st)).
  assert (Hnotes : map baseFreq notes = liveBases st).
  { subst notes. unfold liveBases. rewrite map_map. reflexivity. }
  rewrite (fold_left_on_map stopNote actualFreq).
  assert (Hkeys : map actualFreq notes = obj_keys (activeOscillators (set_octaveShift z st))).
  { subst notes. apply activeNotes_keys. }
  rewrite Hkeys.
  set (s1 := fold_left _ (obj_keys _) (set_octaveShift z st)).
  assert (Hempty : activeOscillators s1 = []) by apply stopAll_empty.
  assert (Hfull1 : full_inv s1).
  { pose proof (stopAll_sounding (obj_keys (activeOscillators (set_octaveShift z st)))
                  (set_octaveShift z st) Hs) as Hs1.
    fold s1 in Hs1. split; [|split; [exact Hs1|]].
    - unfold engine_inv, shift_in_range, keys_follow_shift. rewrite Hempty.
      unfold s1. rewrite stopAll_octaveShift.
      split; [exact Hz|]. split; [intros k v []|]. split; apply Hs1.
    - unfold lastPlayed_canonical, s1. now rewrite stopAll_lastPlayedNote. }
  rewrite (restartAll_bases notes s1 Hfull1).
  - unfold liveBases at 1. rewrite Hempty. simpl. now rewrite Hnotes.
  - intros note Hin. subst notes. apply in_map_iff in Hin.
    destruct Hin as ([k v] & <- & Hin). simpl. destruct Hs as (_ & _ & Hb & _).
    eapply Hb; eauto.
  - rewrite Hnotes. now apply liveBases_NoDup.
  - intros note _. unfold liveBases. rewrite Hempty. intros [].
Qed.

(** X11.  An accepted octave request (the buttons, the display click, the
    keys [z] and [x]) in a reachable state sets the shift to the value asked
    for and keeps the notes: the base frequencies of the live voices
    afterwards are those before, none dropped and none doubled, each voice
    registered under its base frequency times two to the new shift; the
    ledger names the same pitch classes; and no voice carries a chord type
    any more. *)
Theorem octave_shift_keeps_the_notes (e : event) (z : Z) (st : state) :
  reachable st -> octaveTarget e st = Some z ->
  let st' := handle e st in
  octaveShift st' = z /\
  Permutation (liveBases st') (liveBases st) /\
  Permutation (map heldName (heldNotes st')) (map heldName (heldNotes st)) /\
  (forall k v, In (k, v) (activeOscillators st') ->
               k == baseFrequency v * 2 ^ z /\ chordType v = None).
Proof.
  intros Hreach Ht. pose proof (reachable_full st Hreach) as Hfull.
  assert (Hz : (MIN_OCTAVE_SHIFT <= z <= MAX_OCTAVE_SHIFT)%Z).
  { destruct Hfull as ((Hr & _) & _). unfold shift_in_range in Hr.
    destruct e; simpl in Ht; try discriminate;
      unfold MIN_OCTAVE_SHIFT, MAX_OCTAVE_SHIFT in *.
    - destruct ignored; [discriminate|].
      destruct (String.eqb (toLowerCase key) "z").
      + destruct (-3 <? octaveShift st)%Z eqn:E; [|discriminate].
        apply Z.ltb_lt in E. injection Ht as <-. lia.
      + destruct (String.eqb (toLowerCase key) "x"); [|discriminate].
        destruct (octaveShift st <? 3)%Z eqn:E; [|discriminate].
        apply Z.ltb_lt in E. injection Ht as <-. lia.
    - destruct (-3 <? octaveShift st)%Z eqn:E; [|discriminate].
      apply Z.ltb_lt in E. injection Ht as <-. lia.
    - injection Ht as <-. lia.
    - destruct (octaveShift st <? 3)%Z eqn:E; [|discriminate].
      apply Z.ltb_lt in E. injection Ht as <-. lia. }
  assert (Hh : handle e st = shiftActiveNotes (octaveShift st) z (set_octaveShift z st)).
  { destruct e; simpl in Ht; try discriminate; simpl.
    - destruct ignored; [discriminate|]. unfold onKeyDown.
      destruct (String.eqb (toLowerCase key) "z").
      + destruct (MIN_OCTAVE_SHIFT <? octaveShift st)%Z; [|discriminate].
        injection Ht as <-. reflexivity.
      + destruct (String.eqb (toLowerCase key) "x"); [|discriminate].
        destruct (octaveShift st <? MAX_OCTAVE_SHIFT)%Z; [|discriminate].
        injection Ht as <-. reflexivity.
    - destruct (MIN_OCTAVE_SHIFT <? octaveShift st)%Z; [|discriminate].
      injection Ht as <-. reflexivity.
    - injection Ht as <-. reflexivity.
    - destruct (octaveShift st <? MAX_OCTAVE_SHIFT)%Z; [|discriminate].
      injection Ht as <-. reflexivity. }
  cbv zeta. rewrite Hh.
  pose proof (octave_full z st Hz Hfull) as Hfull'.
  pose proof (shiftActiveNotes_bases (octaveShift st) z st Hfull Hz) as Hbases.
  assert (Hshift : octaveShift (shiftActiveNotes (octaveShift st) z (set_octaveShift z st)) = z).
  { unfold shiftActiveNotes. cbv zeta. rewrite restartAll_octaveShift.
    rewrite (fold_left_on_map stopNote actualFreq). now rewrite stopAll_octaveShift. }
  assert (Hnames : forall s, full_inv s ->
            Permutation (map Some (map heldName (heldNotes s)))
                        (map getNoteFromFrequency (liveBases s))).
  { intros s (_ & (_ & _ & _ & Hsync) & _). unfold ledger_in_sync in Hsync.
    apply (Permutation_map (option_map heldName)) in Hsync.
    rewrite !map_map in Hsync. unfold liveBases. rewrite !map_map.
    rewrite (map_ext _ (fun kv => getNoteFromFrequency (baseFrequency (snd kv))))
      in Hsync; [exact Hsync|].
    intros [k v]. simpl. unfold heldOfVoice.
    destruct (getNoteFromFrequency (baseFrequency v)); [|reflexivity].
    destruct (chordType v); reflexivity. }
  split; [exact Hshift|]. split; [exact Hbases|]. split.
  - apply Permutation_Some.
    rewrite (Hnames _ Hfull'), (Hnames _ Hfull). now apply Permutation_map.
  - intros k v Hin. split.
    + destruct Hfull' as ((_ & Hk & _) & _). destruct (Hk k v Hin) as [Hkey _].
      rewrite Hshift in Hkey. exact Hkey.
    + destruct Hfull as (_ & (Hw & Hl & _) & _).
      eapply shiftActiveNotes_restarts_plain; [| |exact Hin]; assumption.
Qed.

Lemma octave_shift_keeps_the_notes_witness :
  reachable wheelCmajor /\
  octaveTarget (KeyDown "X" false) wheelCmajor = Some 1%Z /\
  Permutation (liveBases (handle (KeyDown "X" false) wheelCmajor)) [261.63].
Proof.
  assert (R : reachable wheelCmajor).
  { apply reach_event; [apply reach_init|]. in_list. }
  split; [exact R|]. split; [reflexivity|].
  destruct (octave_shift_keeps_the_notes (KeyDown "X" false) 1 wheelCmajor R eq_refl)
    as (_ & H & _).
  exact H.
Defined.

(** ** The centre display *)

Lemma noteOrder_nonEmpty n : In n noteOrder -> nonEmpty n = true.
Proof.
  intros H. simpl in H. repeat (destruct H as [<-|H]; [reflexivity|]). destruct H.
Qed.

Lemma noteOrder_notated nt n :
  In n noteOrder ->
  exists entry colour,
    assoc n (keyNotationOf nt) = Some entry /\ assoc n keyColors = Some colour /\
    (forall rest, (pair_major entry ++ rest)%string <> "--"%string) /\
    (forall rest, (pair_minor entry ++ rest)%string <> "--"%string).
Proof.
  intros H. unfold keyNotationOf. simpl in H.
  destruct (String.eqb nt "camelot");
    repeat (destruct H as [<-|H];
            [do 2 eexists; split; [reflexivity|]; split; [reflexivity|];
             split; intros rest; discriminate|]);
    destruct H.
Qed.

Lemma heldTruthy_canonical h : In (heldName h) noteOrder -> heldTruthy h = true.
Proof. destruct h; simpl; [apply noteOrder_nonEmpty|reflexivity]. Qed.

Lemma last_in {A : Type} (l : list A) d : In (last l d) (d :: l).
Proof.
  induction l as [|x l IH]; [now left|].
  destruct l as [|y l]; [right; now left|].
  change (last (x :: y :: l) d) with (last (y :: l) d).
  destruct IH as [<-|IH]; [now left|right; now right].
Qed.

(** In a reachable state [updateCenterDisplay] picks the last entry of the
    ledger, or the fallback when the ledger is empty; its name is a pitch
    class. *)
Lemma reachable_noteToDisplay st :
  reachable st ->
  noteToDisplay st
  = match heldNotes st with
    | [] => lastPlayedNote st
    | h0 :: l => Some (last l h0)
    end /\
  (forall h, noteToDisplay st = Some h -> In (heldName h) noteOrder).
Proof.
  intros Hreach. destruct (reachable_full st Hreach) as (_ & Hs & Hp).
  assert (Hheld : forall h, In h (heldNotes st) -> In (heldName h) noteOrder).
  { destruct Hs as (_ & _ & _ & Hsync). intros h Hin.
    assert (Hx : In (Some h) (map (fun kv => heldOfVoice (snd kv)) (activeOscillators st))).
    { eapply Permutation_in; [exact Hsync|]. now apply in_map. }
    apply in_map_iff in Hx. destruct Hx as ([k v] & Hv & _). simpl in Hv.
    apply heldOfVoice_name in Hv. eapply getNoteFromFrequency_in; eauto. }
  assert (E : noteToDisplay st
              = match heldNotes st with
                | [] => lastPlayedNote st
                | h0 :: l => Some (last l h0)
                end).
  { unfold noteToDisplay. destruct (heldNotes st) as [|h0 l] eqn:El.
    - destruct (lastPlayedNote st) as [h|] eqn:Eh; [|reflexivity].
      now rewrite (heldTruthy_canonical h (Hp h Eh)).
    - rewrite heldTruthy_canonical; [reflexivity|]. apply Hheld. apply last_in. }
  split; [exact E|]. rewrite E. intros h Hh.
  destruct (heldNotes st) as [|h0 l] eqn:El; [now apply Hp|].
  injection Hh as <-. apply Hheld. apply last_in.
Qed.

(** What the display shows for the note it has picked. *)
Lemma display_of_note nt uf st el h :
  noteToDisplay st = Some h -> In (heldName h) noteOrder ->
  exists d top bottom,
    updateCenterDisplay None nt uf st el = Some d /\
    labelLine nt uf (heldName h) (topType st h) = Some top /\
    labelLine nt uf (heldName h) (otherType (topType st h)) = Some bottom /\
    mainText d = top /\ altText d = bottom /\
    top <> "--"%string /\ bottom <> "--"%string.
Proof.
  intros Hnote Hin.
  destruct (noteOrder_notated nt (heldName h) Hin)
    as (entry & colour & He & Hc & Hmaj & Hmin).
  unfold updateCenterDisplay, labelLine, wheelLabelLines.
  rewrite Hnote, He, Hc.
  assert (Htop : match h with
                 | Plain _ => majorOnTop st
                 | Wheel _ type => chord_eqb type major
                 end = chord_eqb (topType st h) major).
  { destruct h as [n|n t]; simpl; [destruct (majorOnTop st)|]; reflexivity. }
  rewrite Htop. destruct (topType st h); simpl;
    do 3 eexists; repeat split; try reflexivity; auto.
Qed.

(** X12.  In every reachable state [updateCenterDisplay] succeeds: the name
    it looks up is always in the notation table.  It shows the most recently
    engaged note that is still held or, when none is held, the last note
    played; both lines are ["--"] exactly as long as no note has been played
    since the page was loaded. *)
Theorem centre_display_never_fails (forceDisplay : option string)
  (notationType : string) (useFlats : bool) (el : centerDisplay) (st : state) :
  reachable st ->
  noteToDisplay st
  = match heldNotes st with
    | [] => lastPlayedNote st
    | h0 :: l => Some (last l h0)
    end /\
  exists d,
    updateCenterDisplay forceDisplay notationType useFlats st el = Some d /\
    (mainText d = "--"%string <-> heldNotes st = [] /\ lastPlayedNote st = None) /\
    (altText d = "--"%string <-> heldNotes st = [] /\ lastPlayedNote st = None).
Proof.
  intros Hreach. destruct (reachable_noteToDisplay st Hreach) as [E Hname].
  split; [exact E|].
  destruct (noteToDisplay st) as [h|] eqn:Hn.
  - destruct (noteOrder_notated notationType (heldName h) (Hname h eq_refl))
      as (entry & colour & He & Hc & Hmaj & Hmin).
    assert (Hsome : ~ (heldNotes st = [] /\ lastPlayedNote st = None)).
    { intros [H1 H2]. rewrite H1, H2 in E. discriminate. }
    unfold updateCenterDisplay. rewrite Hn, He, Hc.
    match goal with
    | |- context [if ?b then mkDisplay _ _ _ _ _ _ else _] => destruct b
    end; eexists; (split; [reflexivity|]); simpl;
      split; split; intros H; try contradiction; exfalso;
      first [apply (Hmaj _ H)|apply (Hmin _ H)].
  - assert (Hnone : heldNotes st = [] /\ lastPlayedNote st = None).
    { destruct (heldNotes st); [now split|discriminate]. }
    unfold updateCenterDisplay. rewrite Hn. eexists. split; [reflexivity|].
    simpl. split; split; auto.
Qed.

Lemma centre_display_never_fails_witness :
  reachable wheelCmajor /\
  option_map mainText
    (updateCenterDisplay None "camelot" false wheelCmajor
       (mkDisplay "--" "--" "white" "white" "" ""))
  = Some "8B Cmaj"%string.
Proof.
  assert (R : reachable wheelCmajor).
  { apply reach_event; [apply reach_init|]. in_list. }
  split; [exact R|].
  destruct (centre_display_never_fails None "camelot" false
              (mkDisplay "--" "--" "white" "white" "" "") wheelCmajor R)
    as (_ & d & Hd & _).
  reflexivity.
Defined.

Lemma noteToDisplay_snoc st l h :
  heldNotes st = l ++ [h] -> heldTruthy h = true -> noteToDisplay st = Some h.
Proof.
  intros E Ht. unfold noteToDisplay. destruct (heldNotes st) as [|h0 l'] eqn:El.
  - destruct l; discriminate.
  - assert (Hlast : last l' h0 = last (h0 :: l') h0) by (destruct l'; reflexivity).
    rewrite Hlast, E, last_last, Ht. reflexivity.
Qed.

Lemma wheelPress_heldNotes f n t st :
  exists l, heldNotes (wheelPress (f, n, t) st) = l ++ [Wheel n t].
Proof.
  unfold wheelPress, wheelPlay. cbn [fst snd].
  rewrite playNoteFromWheel_heldNotes. eexists. reflexivity.
Qed.

(** X13.  After a press, a touch or a drag onto a path of the wheel, the
    centre display shows on top the code and key name of the label of that
    path, the note with the chord type that was clicked, whatever the
    [majorOnTop] setting, and below it the label of the other chord type of
    the same note; the note is also the new fallback. *)
Theorem wheel_click_shows_clicked_key (e : event) (f : Q) (n : string) (t : chord)
  (notationType : string) (useFlats : bool) (el : centerDisplay) (st : state) :
  In (f, n, t) wheelElements ->
  wheelNoteOn e (f, n, t) st ->
  let st' := handle e st in
  lastPlayedNote st' = Some (Wheel n t) /\
  exists d top bottom,
    updateCenterDisplay None notationType useFlats st' el = Some d /\
    labelLine notationType useFlats n t = Some top /\
    labelLine notationType useFlats n (otherType t) = Some bottom /\
    mainText d = top /\ altText d = bottom.
Proof.
  intros Hel He st'.
  destruct (wheelElements_consistent f n t Hel) as [Hn _].
  assert (Hin : In n noteOrder) by (eapply getNoteFromFrequency_in; eauto).
  assert (Hst : lastPlayedNote st' = Some (Wheel n t) /\
                exists l, heldNotes st' = l ++ [Wheel n t]).
  { subst st'. destruct e; simpl in He; try contradiction; simpl handle.
    - subst el0. split; [apply playNoteFromWheel_lastPlayedNote|apply wheelPress_heldNotes].
    - destruct He as [-> Hd]. rewrite Hd.
      split; [apply playNoteFromWheel_lastPlayedNote|apply wheelPress_heldNotes].
    - subst el0. unfold wheelPlay.
      split; [apply playNoteFromWheel_lastPlayedNote|].
      rewrite playNoteFromWheel_heldNotes. eexists. reflexivity. }
  destruct Hst as [Hlast (l & Hheld)]. split; [exact Hlast|].
  pose proof (noteToDisplay_snoc st' l (Wheel n t) Hheld eq_refl) as Hnote.
  destruct (display_of_note notationType useFlats st' el (Wheel n t) Hnote Hin)
    as (d & top & bottom & Hd & Htop & Hbot & Hm & Ha & _).
  exists d, top, bottom. repeat split; assumption.
Qed.

Lemma wheel_click_shows_clicked_key_witness :
  In (261.63, "C"%string, minor) wheelElements /\
  option_map mainText
    (updateCenterDisplay None "openkey" true
       (handle (WheelTouchStart (261.63, "C"%string, minor)) (initialState true 0.7))
       (mkDisplay "--" "--" "white" "white" "" ""))
  = labelLine "openkey" true "C" minor.
Proof.
  assert (H : In (261.63, "C"%string, minor) wheelElements) by in_list.
  split; [exact H|].
  destruct (wheel_click_shows_clicked_key
              (WheelTouchStart (261.63, "C"%string, minor)) 261.63 "C" minor
              "openkey" true (mkDisplay "--" "--" "white" "white" "" "")
              (initialState true 0.7) H eq_refl)
    as (_ & d & top & bottom & Hd & Htop & _ & Hm & _).
  rewrite Hd, Htop. simpl. now rewrite Hm.
Defined.

Lemma plainNoteOn_state e f n st :
  plainNoteOn e f st -> getNoteFromFrequency f = Some n ->
  majorOnTop (handle e st) = majorOnTop st /\
  lastPlayedNote (handle e st) = Some (Plain n) /\
  exists l, heldNotes (handle e st) = l ++ [Plain n].
Proof.
  intros He Hn.
  assert (Hplay : forall p s, majorOnTop s = majorOnTop st ->
            majorOnTop (playNote f true p s) = majorOnTop st /\
            lastPlayedNote (playNote f true p s) = Some (Plain n) /\
            exists l, heldNotes (playNote f true p s) = l ++ [Plain n]).
  { intros p s Hs. destruct (playNote_aux_kept f true p s) as (_ & _ & _ & Hm & _).
    split; [congruence|]. rewrite playNote_lastPlayedNote, playNote_heldNotes, Hn.
    split; [reflexivity|]. eexists. reflexivity. }
  assert (Hpress : forall s, majorOnTop s = majorOnTop st ->
            majorOnTop (pianoPress f s) = majorOnTop st /\
            lastPlayedNote (pianoPress f s) = Some (Plain n) /\
            exists l, heldNotes (pianoPress f s) = l ++ [Plain n]).
  { intros s Hs. unfold pianoPress, pianoPlay. apply Hplay.
    destruct (stopDragged_aux_kept f s) as (_ & _ & _ & Hm & _).
    simpl. congruence. }
  destruct e; simpl in He; try contradiction; simpl handle.
  - destruct He as (-> & Hf & Hfree). unfold onKeyDown.
    destruct (keyFrequency_mapped _ _ Hf) as (Hz & Hx & H0).
    rewrite Hz, Hx, Hf, H0, Hfree. simpl. now apply Hplay.
  - subst frequency. now apply Hpress.
  - destruct He as [-> Hd]. rewrite Hd. now apply Hpress.
  - subst frequency. unfold pianoPlay. now apply Hplay.
Qed.

(** X14.  After a plain note-on (piano key or mapped keyboard key) on one of
    the twelve pitches, the centre display shows that note, with its major
    key on top when [majorOnTop] is set and its minor key on top otherwise;
    the lines are those of the two wheel labels of the note. *)
Theorem plain_noteOn_shows_setting_order (e : event) (f : Q) (n : string)
  (notationType : string) (useFlats : bool) (el : centerDisplay) (st : state) :
  plainNoteOn e f st ->
  getNoteFromFrequency f = Some n ->
  let top := if majorOnTop st then major else minor in
  exists d mainLine altLine,
    updateCenterDisplay None notationType useFlats (handle e st) el = Some d /\
    labelLine notationType useFlats n top = Some mainLine /\
    labelLine notationType useFlats n (otherType top) = Some altLine /\
    mainText d = mainLine /\ altText d = altLine.
Proof.
  intros He Hn top.
  destruct (plainNoteOn_state e f n st He Hn) as (Hm & _ & l & Hheld).
  assert (Hin : In n noteOrder) by (eapply getNoteFromFrequency_in; eauto).
  pose proof (noteToDisplay_snoc (handle e st) l (Plain n) Hheld
                (noteOrder_nonEmpty n Hin)) as Hnote.
  destruct (display_of_note notationType useFlats (handle e st) el (Plain n) Hnote Hin)
    as (d & mainLine & altLine & Hd & Htop & Hbot & Hmt & Hat & _).
  simpl in Htop, Hbot. rewrite Hm in Htop, Hbot.
  exists d, mainLine, altLine. repeat split; assumption.
Qed.

Lemma plain_noteOn_shows_setting_order_witness :
  plainNoteOn (KeyDown "w" false) 277.18 (initialState false 0.7) /\
  option_map mainText
    (updateCenterDisplay None "camelot" true
       (handle (KeyDown "w" false) (initialState false 0.7))
       (mkDisplay "--" "--" "white" "white" "" ""))
  = Some "12A Dbmin"%string.
Proof.
  assert (H : plainNoteOn (KeyDown "w" false) 277.18 (initialState false 0.7))
    by (repeat split).
  split; [exact H|].
  destruct (plain_noteOn_shows_setting_order (KeyDown "w" false) 277.18 "C#"
              "camelot" true (mkDisplay "--" "--" "white" "white" "" "")
              (initialState false 0.7) H eq_refl)
    as (d & mainLine & altLine & Hd & Htop & _ & Hm & _).
  rewrite Hd. simpl. rewrite Hm. injection Htop as <-. reflexivity.
Defined.

(** X15.  When the window loses focus every note stops, but the centre
    display keeps showing the last note played: in a reachable state the
    display after the blur handler is that of the fallback, with the chord
    type on top that the entry asks for, and it is ["--"] only if no note has
    been played yet. *)
Theorem blur_keeps_last_note_on_display (notationType : string) (useFlats : bool)
  (el : centerDisplay) (st : state) :
  reachable st ->
  noteToDisplay (handle Blur st) = lastPlayedNote st /\
  (forall h, lastPlayedNote st = Some h ->
     exists d top,
       updateCenterDisplay None notationType useFlats (handle Blur st) el = Some d /\
       labelLine notationType useFlats (heldName h) (topType st h) = Some top /\
       mainText d = top) /\
  (lastPlayedNote st = None ->
     option_map mainText
       (updateCenterDisplay None notationType useFlats (handle Blur st) el)
     = Some "--"%string).
Proof.
  intros Hreach.
  assert (Hreach' : reachable (handle Blur st)) by (now apply reach_event).
  destruct (reachable_noteToDisplay _ Hreach') as [E Hname].
  assert (Hheld : heldNotes (handle Blur st) = []).
  { simpl. unfold onBlur. now apply stopAll_heldNotes_nil. }
  assert (Hlast : lastPlayedNote (handle Blur st) = lastPlayedNote st).
  { simpl. unfold onBlur. now rewrite stopAll_lastPlayedNote. }
  assert (Hmaj : majorOnTop (handle Blur st) = majorOnTop st).
  { simpl. unfold onBlur.
    match goal with
    | |- context [fold_left ?F ?l ?s] =>
        destruct (fold_aux_kept F l (fun s' x => stopNote_aux_kept x s') s)
          as (_ & _ & _ & A4 & _)
    end.
    rewrite A4. reflexivity. }
  rewrite Hheld, Hlast in E. split; [exact E|]. split.
  - intros h Hh. rewrite Hh in E.
    destruct (display_of_note notationType useFlats _ el h E (Hname h E))
      as (d & top & bottom & Hd & Htop & _ & Hm & _).
    exists d, top. split; [exact Hd|]. split; [|exact Hm].
    destruct h; simpl in *; [now rewrite Hmaj in Htop|exact Htop].
  - intros Hnone. rewrite Hnone in E. unfold updateCenterDisplay. now rewrite E.
Qed.

Lemma blur_keeps_last_note_on_display_witness :
  reachable keyboardC /\
  option_map mainText
    (updateCenterDisplay None "camelot" false (handle Blur keyboardC)
       (mkDisplay "--" "--" "white" "white" "" ""))
  = Some "5A Cmin"%string.
Proof.
  assert (R : reachable keyboardC).
  { apply reach_event; [apply reach_init|exact I]. }
  split; [exact R|].
  destruct (blur_keeps_last_note_on_display "camelot" false
              (mkDisplay "--" "--" "white" "white" "" "") keyboardC R)
    as (_ & H & _).
  destruct (H (Plain "C") eq_refl) as (d & top & Hd & Htop & Hm).
  rewrite Hd. simpl. rewrite Hm. injection Htop as <-. reflexivity.
Defined.

(** ** Oscillators are never lost *)

Lemma startsIn_snoc log e :
  startsIn (log ++ [e]) = (startsIn log + if isStart e then 1 else 0)%nat.
Proof.
  unfold startsIn. rewrite filter_app, length_app. simpl. now destruct (isStart e).
Qed.

Lemma releasesIn_snoc log e :
  releasesIn (log ++ [e]) = (releasesIn log + if isRelease e then 1 else 0)%nat.
Proof.
  unfold releasesIn. rewrite filter_app, length_app. simpl. now destruct (isRelease e).
Qed.

Lemma obj_count_delete_live {A : Type} k (v : A) (o : jsobj A) :
  obj_wf o -> obj_get k o = Some v -> S (obj_count (obj_delete k o)) = obj_count o.
Proof.
  intros Hw Hg. destruct (obj_delete_split k v o Hw Hg) as (k' & o1 & o2 & -> & -> & _).
  unfold obj_count, obj_keys. rewrite !length_map, !length_app. simpl. lia.
Qed.

Lemma fade_is_smooth f now g :
  smoothRelease
    (FadeOutAndRelease f
       (linearRampToValueAtTime 0 (now + 0.05)
          (setValueAtTime (gain_value g) now (cancelScheduledValues now g)))).
Proof.
  simpl. exists (filter (fun e => Qlt_bool (automation_time e) now) (gain_events g)), now.
  split; [now rewrite <- app_assoc|].
  apply Forall_forall. intros ev Hin. apply filter_In in Hin.
  now apply Qlt_bool_iff.
Qed.

Lemma stopNote_accounted f st : accounted st -> accounted (stopNote f st).
Proof.
  intros (Hw & Hc & Hs).
  destruct (obj_get f (activeOscillators st)) as [v|] eqn:E;
    [|rewrite stopNote_absent; [now repeat split|assumption]].
  split; [now apply stopNote_registry_wf|].
  pose proof (obj_count_delete_live f v _ Hw E) as Hcount.
  rewrite stopNote_activeOscillators.
  assert (Hlog : exists g,
            audioLog (stopNote f st) = audioLog st ++ [FadeOutAndRelease (oscillator v) g] /\
            smoothRelease (FadeOutAndRelease (oscillator v) g)).
  { unfold stopNote. rewrite E. cbv zeta.
    destruct (getNoteFromFrequency _); cbn [audioLog set_heldNotes log_effect];
      eexists; (split; [reflexivity|]); apply fade_is_smooth. }
  destruct Hlog as (g & -> & Hg).
  rewrite startsIn_snoc, releasesIn_snoc. simpl. split; [lia|].
  apply Forall_app. split; [exact Hs|]. now constructor.
Qed.

Lemma registered_accounted k v st1 st2 :
  accounted st1 ->
  obj_get k (activeOscillators st1) = None ->
  activeOscillators st2 = obj_set k v (activeOscillators st1) ->
  audioLog st2 = audioLog st1 ++ [OscillatorStart k] ->
  accounted st2.
Proof.
  intros (Hw & Hc & Hs) Habs Ho Hl. unfold accounted, registry_wf.
  rewrite Ho, Hl. split; [now apply obj_wf_set|].
  rewrite startsIn_snoc, releasesIn_snoc, (obj_count_set _ _ _ Habs). simpl.
  split; [lia|]. apply Forall_app. split; [exact Hs|]. now repeat constructor.
Qed.

Lemma playNote_accounted f a p st : accounted st -> accounted (playNote f a p st).
Proof.
  intros H.
  apply (registered_accounted (actualOf a f st)
           (plainVoice (actualOf a f st) f (currentTime st) p)
           (stopNote (actualOf a f st) st)).
  - now apply stopNote_accounted.
  - rewrite stopNote_activeOscillators. apply obj_get_delete_same.
  - rewrite playNote_activeOscillators, stopNote_activeOscillators. reflexivity.
  - apply playNote_audioLog.
Qed.

Lemma playNoteFromWheel_accounted f n t st :
  accounted st -> accounted (playNoteFromWheel f n t st).
Proof.
  intros H. set (k := f * Math_pow2 (octaveShift st)).
  apply (registered_accounted k (wheelVoice k f (currentTime st) t) (stopNote k st)).
  - now apply stopNote_accounted.
  - rewrite stopNote_activeOscillators. apply obj_get_delete_same.
  - rewrite playNoteFromWheel_activeOscillators, stopNote_activeOscillators. reflexivity.
  - apply playNoteFromWheel_audioLog.
Qed.

Lemma accounted_frame st st' :
  activeOscillators st' = activeOscillators st ->
  audioLog st' = audioLog st ->
  accounted st -> accounted st'.
Proof. unfold accounted, registry_wf. intros -> ->. trivial. Qed.

Lemma fold_accounted {X : Type} (F : state -> X -> state) (l : list X) :
  (forall s x, accounted s -> accounted (F s x)) ->
  forall st, accounted st -> accounted (fold_left F l st).
Proof.
  intros HF. induction l as [|x l IH]; simpl; intros st H; [assumption|].
  apply IH. now apply HF.
Qed.

Lemma restartNote_accounted note st : accounted st -> accounted (restartNote note st).
Proof.
  intros H. unfold restartNote.
  destruct (getNoteFromFrequency (baseFreq note)) as [n|]; [|assumption].
  destruct (existsb (isWheelNote n) (heldNotes st)).
  - destruct (find (isWheelNote n) (heldNotes st)) as [[?|? t]|]; try assumption.
    now apply playNoteFromWheel_accounted.
  - now apply playNote_accounted.
Qed.

Lemma shiftActiveNotes_accounted old new st :
  accounted st -> accounted (shiftActiveNotes old new st).
Proof.
  intros H. unfold shiftActiveNotes. cbv zeta.
  apply (fold_accounted (fun s note => restartNote note s));
    [intros s x; apply restartNote_accounted|].
  apply (fold_accounted (fun s note => stopNote (actualFreq note) s));
    [intros s x; apply stopNote_accounted|exact H].
Qed.

Lemma stopDragged_accounted f st : accounted st -> accounted (stopDragged f st).
Proof.
  intros H. unfold stopDragged. destruct (currentPlayingFrequency st); [|assumption].
  destruct (negb _ && negb _); [now apply stopNote_accounted|assumption].
Qed.

Lemma handle_accounted e st : accounted st -> accounted (handle e st).
Proof.
  intros H. destruct e; simpl.
  - destruct el as [[f n] t]. unfold wheelPress, wheelPlay. cbn [fst snd].
    apply playNoteFromWheel_accounted.
    apply (accounted_frame (stopDragged f (set_isMouseDown true st))); try reflexivity.
    apply stopDragged_accounted. now apply (accounted_frame st).
  - destruct (isMouseDown st); [|assumption].
    destruct el as [[f n] t]. unfold wheelPress, wheelPlay. cbn [fst snd].
    apply playNoteFromWheel_accounted.
    apply (accounted_frame (stopDragged f st)); try reflexivity.
    now apply stopDragged_accounted.
  - destruct el as [[f n] t]. now apply playNoteFromWheel_accounted.
  - now apply stopNote_accounted.
  - unfold onMouseUp. simpl.
    destruct (currentPlayingFrequency st) as [cpf|]; [|now apply (accounted_frame st)].
    destruct (negb _); [|now apply (accounted_frame st)].
    eapply accounted_frame;
      [..|apply (stopNote_accounted (cpf * Math_pow2 (octaveShift st)))];
      [reflexivity|reflexivity|].
    now apply (accounted_frame st).
  - unfold onKeyDown. destruct ignored; [assumption|].
    destruct (String.eqb (toLowerCase key) "z" && _).
    { unfold octaveDown. apply shiftActiveNotes_accounted. now apply (accounted_frame st). }
    destruct (String.eqb (toLowerCase key) "x" && _).
    { unfold octaveUp. apply shiftActiveNotes_accounted. now apply (accounted_frame st). }
    destruct (keyFrequency (toLowerCase key)); [|assumption].
    destruct (negb _ && negb _); [|assumption].
    apply playNote_accounted. now apply (accounted_frame st).
  - unfold onKeyUp. destruct (keyFrequency (toLowerCase key)); [|assumption].
    destruct (negb _ && set_has _ _); [|assumption].
    apply stopNote_accounted. now apply (accounted_frame st).
  - unfold onBlur.
    apply (fold_accounted (fun s freq => stopNote freq s));
      [intros s x; apply stopNote_accounted|].
    now apply (accounted_frame st).
  - unfold pianoPress, pianoPlay. apply playNote_accounted.
    apply (accounted_frame (stopDragged frequency (set_isMouseDown true st)));
      try reflexivity.
    apply stopDragged_accounted. now apply (accounted_frame st).
  - destruct (isMouseDown st); [|assumption].
    unfold pianoPress, pianoPlay. apply playNote_accounted.
    apply (accounted_frame (stopDragged frequency st)); try reflexivity.
    now apply stopDragged_accounted.
  - now apply playNote_accounted.
  - now apply stopNote_accounted.
  - now apply (accounted_frame st).
  - now apply (accounted_frame st).
  - destruct (MIN_OCTAVE_SHIFT <? octaveShift st)%Z; [|assumption].
    unfold octaveDown. apply shiftActiveNotes_accounted. now apply (accounted_frame st).
  - unfold octaveReset. apply shiftActiveNotes_accounted. now apply (accounted_frame st).
  - destruct (octaveShift st <? MAX_OCTAVE_SHIFT)%Z; [|assumption].
    unfold octaveUp. apply shiftActiveNotes_accounted. now apply (accounted_frame st).
Qed.

(** X16.  No oscillator is ever lost: in every reachable state the number of
    oscillators started so far equals the number of live voices plus the
    number of voices that were faded out and handed to the delayed release.
    Every such fade-out is smooth: it cancels what was scheduled from now on,
    pins the gain to the value it reads, and ramps from there to zero within
    50 ms. *)
Theorem every_oscillator_is_live_or_released (st : state) :
  reachable st ->
  startsIn (audioLog st)
  = (obj_count (activeOscillators st) + releasesIn (audioLog st))%nat /\
  (forall f g, In (FadeOutAndRelease f g) (audioLog st) ->
     exists past now,
       gain_events g = past ++ [SetValue (gain_value g) now; LinearRamp 0 (now + 0.05)] /\
       Forall (fun ev => automation_time ev < now) past).
Proof.
  intros Hreach.
  assert (H : accounted st).
  { induction Hreach as [m v|e st _ IH _|now level st _ IH].
    - split; [exact I|]. split; [reflexivity|constructor].
    - now apply handle_accounted.
    - destruct IH as (Hw & Hc & Hs). split; [|split; [|exact Hs]].
      + unfold registry_wf. simpl.
        apply (mapped_values_wf (fun k v => with_gain_value (level k) v)). exact Hw.
      + simpl. unfold obj_count, obj_keys in *. rewrite !length_map in *. exact Hc. }
  destruct H as (_ & Hc & Hs). split; [exact Hc|].
  intros f g Hin. rewrite Forall_forall in Hs. exact (Hs _ Hin).
Qed.

Lemma every_oscillator_is_live_or_released_witness :
  reachable (handle (KeyUp "a") keyboardC) /\
  startsIn (audioLog (handle (KeyUp "a") keyboardC)) = 1%nat /\
  releasesIn (audioLog (handle (KeyUp "a") keyboardC)) = 1%nat.
Proof.
  assert (R : reachable (handle (KeyUp "a") keyboardC)).
  { repeat (apply reach_event; [|exact I]). apply reach_init. }
  split; [exact R|].
  destruct (every_oscillator_is_live_or_released _ R) as [H _].
  split; [rewrite H|]; reflexivity.
Defined.

(** X17.  Polyphony and the master volume never reach a voice's own gain: in
    every reachable state the automation of each live voice is exactly the
    attack written when it was created, from 0 to [OSC_GAIN] = 0.15 within
    7 ms. *)
Theorem live_gain_is_the_attack_ramp (st : state) :
  reachable st ->
  forall k v, In (k, v) (activeOscillators st) ->
    exists created,
      gain_events (gainNode v)
      = [SetValue 0 created; LinearRamp 0.15 (created + 0.007)].
Proof.
  induction 1 as [m x|e st _ IH _|now level st _ IH]; intros k v Hin.
  - destruct Hin.
  - destruct (handle_fresh_or_kept e st) as [_ Hk].
    destruct (Hk k v Hin) as [->|Hold]; [|now apply (IH k v)].
    exists (currentTime st). reflexivity.
  - simpl in Hin. apply in_map_iff in Hin.
    destruct Hin as ([k0 v0] & [= <- <-] & Hin). simpl. now apply (IH k0 v0).
Qed.

Lemma live_gain_is_the_attack_ramp_witness :
  reachable secondKey /\
  exists created,
    [SetValue 0 0; LinearRamp 0.15 0.007]
    = [SetValue 0 created; LinearRamp 0.15 (created + 0.007)].
Proof.
  assert (R : reachable secondKey).
  { apply reach_event; [|exact I]. apply reach_render.
    apply reach_event; [apply reach_init|exact I]. }
  split; [exact R|].
  apply (live_gain_is_the_attack_ramp secondKey R 261.63
           (mkVoice 261.63 (mkParam 0.15 [SetValue 0 0; LinearRamp 0.15 0.007])
                    261.63 false None)).
  left. reflexivity.
Defined.

(** ** A key pressed and released *)

Lemma removeHeld_snoc n l h :
  ~ In n (map heldName l) -> heldName h = n -> removeHeld n (l ++ [h]) = l.
Proof.
  intros Hn Hh. induction l as [|x l IH]; simpl.
  - now rewrite Hh, String.eqb_refl.
  - destruct (String.eqb (heldName x) n) eqn:E.
    + apply String.eqb_eq in E. exfalso. apply Hn. now left.
    + f_equal. apply IH. intros H. apply Hn. now right.
Qed.

Lemma set_remove_absent key s : set_has key s = false -> set_remove key s = s.
Proof.
  unfold set_has. induction s as [|a s IH]; simpl; [reflexivity|].
  destruct (String.eqb key a); simpl; [discriminate|].
  intros H. f_equal. now apply IH.
Qed.

Lemma set_remove_add key s :
  set_has key s = false -> set_remove key (set_add key s) = s.
Proof.
  intros H. unfold set_add. rewrite H. unfold set_remove. rewrite filter_app. simpl.
  rewrite String.eqb_refl. simpl. rewrite app_nil_r. now apply set_remove_absent.
Qed.

Lemma set_has_add key s : set_has key (set_add key s) = true.
Proof.
  unfold set_add. destruct (set_has key s) eqn:E; [assumption|].
  unfold set_has. rewrite existsb_app. simpl. rewrite String.eqb_refl.
  now rewrite orb_true_r.
Qed.

Lemma stopNote_live_heldNotes k v n st :
  obj_get k (activeOscillators st) = Some v ->
  Qeq_bool (baseFrequency v) 0 = false ->
  getNoteFromFrequency (baseFrequency v) = Some n ->
  heldNotes (stopNote k st) = removeHeld n (heldNotes st).
Proof.
  intros Hg H0 Hn. unfold stopNote. rewrite Hg. cbv zeta. rewrite H0, Hn. reflexivity.
Qed.

(** X18.  Pressing a mapped key whose note is not sounding and releasing it
    again gives back the registry, the ledger, the set of keys held down and
    the octave shift exactly as they were; what stays is the last played
    note, and one oscillator start followed by its fade-out in the audio
    log. *)
Theorem key_press_then_release_restores (key : string) (f : Q) (st : state) :
  reachable st ->
  keyFrequency (toLowerCase key) = Some f ->
  set_has (toLowerCase key) (activeKeys st) = false ->
  obj_get (f * Math_pow2 (octaveShift st)) (activeOscillators st) = None ->
  let st' := handle (KeyUp key) (handle (KeyDown key false) st) in
  activeOscillators st' = activeOscillators st /\
  heldNotes st' = heldNotes st /\
  activeKeys st' = activeKeys st /\
  octaveShift st' = octaveShift st /\
  (exists n, getNoteFromFrequency f = Some n /\ lastPlayedNote st' = Some (Plain n)) /\
  (exists g, audioLog st'
             = audioLog st ++ [OscillatorStart (f * Math_pow2 (octaveShift st));
                               FadeOutAndRelease (f * Math_pow2 (octaveShift st)) g]).
Proof.
  intros Hr Hf Hfree Habs. cbv zeta.
  destruct (keyFrequency_mapped _ _ Hf) as (Hz & Hx & H0).
  pose proof (keyFrequency_pianoKeys _ _ Hf) as Hpiano.
  destruct (pianoKeys_note f Hpiano) as (n & Hn & _).
  destruct (reachable_full st Hr) as ((_ & Hk & _) & Hs & _).
  pose proof (pitch_free_after_stop f n st Hk Hs Hpiano Hn) as Hfreen.
  rewrite (stopNote_absent _ _ Habs) in Hfreen.
  set (k := f * Math_pow2 (octaveShift st)) in *.
  set (lk := toLowerCase key) in *.
  set (st1 := set_activeKeys (set_add lk (activeKeys st)) st).
  set (v := plainVoice k f (currentTime st) (plainIsPrimary f st1)).
  assert (E1 : handle (KeyDown key false) st = playNote f true (plainIsPrimary f st1) st1).
  { simpl. unfold onKeyDown. fold lk. rewrite Hz, Hx, Hf, H0, Hfree. reflexivity. }
  rewrite E1. set (s1 := playNote f true (plainIsPrimary f st1) st1).
  assert (Hstop1 : stopNote k st1 = st1) by (apply stopNote_absent; exact Habs).
  assert (Ao : activeOscillators s1 = obj_set k v (activeOscillators st)).
  { unfold s1. rewrite playNote_activeOscillators.
    change (actualOf true f st1) with k. change (activeOscillators st1) with (activeOscillators st).
    now rewrite (obj_delete_absent _ _ Habs). }
  assert (Ah : heldNotes s1 = heldNotes st ++ [Plain n]).
  { unfold s1. rewrite playNote_heldNotes, Hn. change (actualOf true f st1) with k.
    rewrite Hstop1. change (heldNotes st1) with (heldNotes st).
    now rewrite (removeHeld_absent _ _ Hfreen). }
  assert (Ak : activeKeys s1 = set_add lk (activeKeys st)).
  { destruct (playNote_aux_kept f true (plainIsPrimary f st1) st1) as (_ & _ & A & _).
    exact A. }
  assert (As : octaveShift s1 = octaveShift st).
  { unfold s1. now rewrite playNote_octaveShift. }
  assert (Al : lastPlayedNote s1 = Some (Plain n)).
  { unfold s1. now rewrite playNote_lastPlayedNote, Hn. }
  assert (Alog : audioLog s1 = audioLog st ++ [OscillatorStart k]).
  { unfold s1. rewrite playNote_audioLog. change (actualOf true f st1) with k.
    now rewrite Hstop1. }
  set (st2 := set_activeKeys (set_remove lk (activeKeys s1)) s1).
  assert (E2 : handle (KeyUp key) s1 = stopNote k st2).
  { simpl. unfold onKeyUp. fold lk. rewrite Hf, H0, Ak, set_has_add. cbv zeta.
    cbn [negb andb]. change (octaveShift (set_activeKeys _ s1)) with (octaveShift s1).
    rewrite As. fold k. unfold st2. now rewrite Ak. }
  rewrite E2.
  assert (Hlive : obj_get k (activeOscillators st2) = Some v).
  { change (activeOscillators st2) with (activeOscillators s1). rewrite Ao.
    now apply obj_get_set_same. }
  repeat apply conj.
  - rewrite stopNote_activeOscillators.
    change (activeOscillators st2) with (activeOscillators s1). rewrite Ao.
    now apply obj_delete_set.
  - rewrite (stopNote_live_heldNotes k v n st2 Hlive H0 Hn).
    change (heldNotes st2) with (heldNotes s1). rewrite Ah.
    now apply removeHeld_snoc.
  - destruct (stopNote_aux_kept k st2) as (_ & _ & A & _). rewrite A.
    change (activeKeys st2) with (set_remove lk (activeKeys s1)). rewrite Ak.
    now apply set_remove_add.
  - rewrite stopNote_octaveShift. exact As.
  - exists n. split; [exact Hn|]. rewrite stopNote_lastPlayedNote. exact Al.
  - destruct (stopNote_audioLog_live k v st2 Hlive) as (g & Hg). exists g.
    rewrite Hg. change (audioLog st2) with (audioLog s1). rewrite Alog.
    now rewrite <- app_assoc.
Qed.

Lemma key_press_then_release_restores_witness :
  activeOscillators (handle (KeyUp "H") (handle (KeyDown "H" false) secondKey))
  = activeOscillators secondKey /\
  heldNotes (handle (KeyUp "H") (handle (KeyDown "H" false) secondKey))
  = heldNotes secondKey.
Proof.
  assert (R : reachable secondKey).
  { apply reach_event; [|exact I]. apply reach_render.
    apply reach_event; [apply reach_init|exact I]. }
  destruct (key_press_then_release_restores "H" 440.00 secondKey R eq_refl eq_refl eq_refl)
    as (Ho & Hh & _).
  split; [exact Ho|exact Hh].
Defined.

(** ** After a blur *)

Lemma onBlur_fields st :
  activeOscillators (onBlur st) = [] /\
  heldNotes (onBlur st) = [] /\
  activeKeys (onBlur st) = [] /\
  isMouseDown (onBlur st) = false /\
  currentPlayingFrequency (onBlur st) = None.
Proof.
  unfold onBlur. cbv zeta.
  match goal with
  | |- context [fold_left ?F (obj_keys (activeOscillators ?s)) ?s] =>
      pose proof (stopAll_empty s) as Ho;
      pose proof (stopAll_heldNotes_nil (obj_keys (activeOscillators s)) s eq_refl) as Hh;
      destruct (fold_aux_kept F (obj_keys (activeOscillators s))
                  (fun s0 k => stopNote_aux_kept k s0) s) as (Hm & Hc & Hk & _)
  end.
  repeat split; assumption.
Qed.

Lemma idle_onBlur s :
  activeOscillators s = [] -> heldNotes s = [] -> activeKeys s = [] ->
  isMouseDown s = false -> currentPlayingFrequency s = None ->
  onBlur s = s.
Proof. destruct s; simpl; intros; subst; reflexivity. Qed.

Lemma idle_onMouseUp s :
  isMouseDown s = false -> currentPlayingFrequency s = None -> onMouseUp s = s.
Proof. destruct s; simpl; intros; subst; reflexivity. Qed.

Lemma idle_onKeyUp key s : activeKeys s = [] -> onKeyUp key s = s.
Proof.
  intros Hk. unfold onKeyUp. destruct (keyFrequency (toLowerCase key)); [|reflexivity].
  rewrite Hk. simpl. now rewrite andb_false_r.
Qed.

(** X19.  A blur leaves nothing pending.  On the state it produces, a second
    blur, a mouse-up, the release of any key, the end of a touch on any
    element and the pointer entering any element are all without effect. *)
Theorem nothing_pending_after_blur (st : state) :
  handle Blur (handle Blur st) = handle Blur st /\
  handle MouseUp (handle Blur st) = handle Blur st /\
  (forall key, handle (KeyUp key) (handle Blur st) = handle Blur st) /\
  (forall el, handle (WheelTouchEnd el) (handle Blur st) = handle Blur st) /\
  (forall f, handle (PianoTouchEnd f) (handle Blur st) = handle Blur st) /\
  (forall el, handle (WheelMouseEnter el) (handle Blur st) = handle Blur st) /\
  (forall f, handle (PianoMouseEnter f) (handle Blur st) = handle Blur st).
Proof.
  cbn [handle]. destruct (onBlur_fields st) as (Ho & Hh & Hk & Hm & Hc).
  split; [now apply idle_onBlur|].
  split; [now apply idle_onMouseUp|].
  split; [intros key; now apply idle_onKeyUp|].
  split; [intros el; apply stopNote_absent; now rewrite Ho|].
  split; [intros f; apply stopNote_absent; now rewrite Ho|].
  split; intros x; now rewrite Hm.
Qed.

(** ** Rebalancing twice *)

Lemma Qlt_bool_false x y : ~ x < y -> Qlt_bool x y = false.
Proof.
  intros H. destruct (Qlt_bool x y) eqn:E; [|reflexivity].
  apply Qlt_bool_iff in E. contradiction.
Qed.

Lemma filter_idempotent {A : Type} (p : A -> bool) (l : list A) :
  filter p (filter p l) = filter p l.
Proof.
  induction l as [|x l IH]; simpl; [reflexivity|].
  destruct (p x) eqn:E; simpl; [rewrite E; now f_equal|assumption].
Qed.

Lemma rampToTarget_idempotent target now g :
  rampToTarget target now (rampToTarget target now g) = rampToTarget target now g.
Proof.
  unfold rampToTarget. cbv zeta.
  destruct (Qlt_bool 0.01 (gain_value g)) eqn:E; [|now rewrite E].
  cbn [gain_value linearRampToValueAtTime setValueAtTime cancelScheduledValues].
  rewrite E. unfold linearRampToValueAtTime, setValueAtTime, cancelScheduledValues.
  cbn [gain_value gain_events]. f_equal.
  rewrite !filter_app, filter_idempotent. cbn [filter automation_time].
  rewrite (Qlt_bool_false now now) by apply Qlt_irrefl.
  rewrite (Qlt_bool_false (now + 0.05) now) by lra.
  now rewrite !app_nil_r.
Qed.

(** X20.  Rebalancing is idempotent and touches nothing but gain automation:
    running [adjustActiveVolumes] a second time at the same instant gives the
    state the first run gave, and one run leaves the keys of the registry,
    and the oscillator, base frequency, primary flag and chord type of every
    voice, the ledger, the last played note and the audio log as they
    were. *)
Theorem adjustActiveVolumes_idempotent (Math_sqrt : Q -> Q) (st : state) :
  adjustActiveVolumes Math_sqrt (adjustActiveVolumes Math_sqrt st)
  = adjustActiveVolumes Math_sqrt st /\
  obj_keys (activeOscillators (adjustActiveVolumes Math_sqrt st))
  = obj_keys (activeOscillators st) /\
  map (fun kv => with_gainNode (mkParam 0 []) (snd kv))
      (activeOscillators (adjustActiveVolumes Math_sqrt st))
  = map (fun kv => with_gainNode (mkParam 0 []) (snd kv)) (activeOscillators st) /\
  heldNotes (adjustActiveVolumes Math_sqrt st) = heldNotes st /\
  lastPlayedNote (adjustActiveVolumes Math_sqrt st) = lastPlayedNote st /\
  audioLog (adjustActiveVolumes Math_sqrt st) = audioLog st.
Proof.
  split; [|split; [|split; [|repeat split]]].
  - assert (Hv : calculateVolume Math_sqrt (adjustActiveVolumes Math_sqrt st)
                 = calculateVolume Math_sqrt st).
    { unfold calculateVolume, adjustActiveVolumes, obj_count, obj_keys. simpl.
      now rewrite !length_map. }
    unfold adjustActiveVolumes at 1. cbv zeta. rewrite Hv.
    unfold adjustActiveVolumes. cbv zeta.
    unfold set_activeOscillators. cbn [activeOscillators heldNotes lastPlayedNote
      octaveShift majorOnTop MASTER_GAIN isMouseDown currentPlayingFrequency
      activeKeys currentTime audioLog].
    f_equal. rewrite map_map. apply map_ext. intros [k v]. cbn [fst snd].
    unfold with_gainNode. cbn [oscillator gainNode baseFrequency isPrimary chordType].
    now rewrite rampToTarget_idempotent.
  - unfold adjustActiveVolumes, obj_keys. simpl. rewrite map_map. reflexivity.
  - unfold adjustActiveVolumes. simpl. rewrite map_map. reflexivity.
Qed.

(** ** The keyboard does not mind the case *)

Lemma lower_upper_ascii c : lower_ascii (upper_ascii c) = lower_ascii c.
Proof. destruct c as [[] [] [] [] [] [] [] []]; reflexivity. Qed.

Lemma lower_lower_ascii c : lower_ascii (lower_ascii c) = lower_ascii c.
Proof. destruct c as [[] [] [] [] [] [] [] []]; reflexivity. Qed.

Lemma toLowerCase_toUpperCase key : toLowerCase (toUpperCase key) = toLowerCase key.
Proof. induction key as [|c key IH]; simpl; [reflexivity|]. now rewrite lower_upper_ascii, IH. Qed.

Lemma toLowerCase_idempotent key : toLowerCase (toLowerCase key) = toLowerCase key.
Proof. induction key as [|c key IH]; simpl; [reflexivity|]. now rewrite lower_lower_ascii, IH. Qed.

Lemma keyHint_plays f hint :
  In f pianoKeys -> keyHint f = Some hint -> keyFrequency (toLowerCase hint) = Some f.
Proof.
  intros H. vm_compute in H.
  repeat (destruct H as [<-|H];
          [intros Hh; vm_compute in Hh; injection Hh as <-; reflexivity|]).
  destruct H.
Qed.

(** X21.  The keyboard handlers do not mind the case of a key: a key event
    gives the same state whether the key arrives in upper case, in lower case
    or as typed.  So the hint drawn on a piano key, typed as it is drawn,
    plays that key: when it is not already held down, the voice registered
    under the key's frequency times 2^octaveShift has the key's frequency as
    its base. *)
Theorem typed_hint_plays_its_key (key hint : string) (f : Q) (st : state) :
  (forall ignored,
      handle (KeyDown (toUpperCase key) ignored) st = handle (KeyDown key ignored) st /\
      handle (KeyDown (toLowerCase key) ignored) st = handle (KeyDown key ignored) st) /\
  handle (KeyUp (toUpperCase key)) st = handle (KeyUp key) st /\
  handle (KeyUp (toLowerCase key)) st = handle (KeyUp key) st /\
  (In f pianoKeys ->
   keyHint f = Some hint ->
   set_has (toLowerCase hint) (activeKeys st) = false ->
   obj_get (f * Math_pow2 (octaveShift st))
           (activeOscillators (handle (KeyDown hint false) st))
   = Some (plainVoice (f * Math_pow2 (octaveShift st)) f (currentTime st)
                      (plainIsPrimary f st))).
Proof.
  split; [|split; [|split]].
  - intros ignored. cbn [handle]. unfold onKeyDown.
    now rewrite toLowerCase_toUpperCase, toLowerCase_idempotent.
  - cbn [handle]. unfold onKeyUp. now rewrite toLowerCase_toUpperCase.
  - cbn [handle]. unfold onKeyUp. now rewrite toLowerCase_idempotent.
  - intros Hf Hh Hfree. apply keyDown_voice; [|exact Hfree].
    now apply keyHint_plays.
Qed.

Lemma typed_hint_plays_its_key_witness :
  obj_get (329.63 * Math_pow2 (octaveShift keyboardC))
          (activeOscillators (handle (KeyDown "D" false) keyboardC))
  = Some (plainVoice (329.63 * Math_pow2 (octaveShift keyboardC)) 329.63
                     (currentTime keyboardC) (plainIsPrimary 329.63 keyboardC)).
Proof.
  destruct (typed_hint_plays_its_key "d" "D" 329.63 keyboardC) as (_ & _ & _ & H).
  apply H; [in_list|reflexivity|reflexivity].
Defined.
